(** * vvroom: pagination and media layout

    A shallow embedding of the layout core of the repository:

    - [textbook-editor/page_splitter.py]: the block segmenter
      ([parse_content_blocks]) and the page packer ([split_into_pages]);
    - [tools/images-to-pdf.py] and [tools/journal-to-pdf.py]: the image
      fitter ([can_fit_with_shrink]) and the two slice croppers (the crop
      loop of [create_pdf] and [add_split_image]);
    - around them: the page files [process_file] writes under the prefix
      [extract_prefix] finds, and the pattern [generate_html] reads them
      back with ([textbook-editor/generate_pdf.py]); the journal parser
      ([parse_journal]) and the screenshots [create_pdf] includes.

    Python [str] is modelled as [string] (one [ascii] per code point, so the
    model covers the Latin-1 range), Python [int] as [Z], Python [float] as
    the primitive binary64 floats of the kernel. *)

From Stdlib Require Import ZArith List Bool Ascii String Lia.
From Stdlib Require Import Floats.
From Stdlib Require QArith.
From Stdlib Require Import DecimalString DecimalPos DecimalN.
Import ListNotations.

Local Open Scope string_scope.
Local Open Scope Z_scope.

(* ================================================================== *)
(** ** Python string primitives *)
(* ================================================================== *)

Module PyStr.

(** The line separator of [content.split('\n')] and ['\n'.join(...)]. *)
Definition newline : ascii := "010"%char.
Definition nl : string := String newline EmptyString.

(** [str.isspace] on one character, which is also what [\s] matches in a
    [str] pattern: TAB..CR, FS..US, SPACE, NEL and NBSP. *)
Definition is_space (c : ascii) : bool :=
  let n := N_of_ascii c in
  (((9 <=? n) && (n <=? 13)) || ((28 <=? n) && (n <=? 32))
   || (n =? 133) || (n =? 160))%N.

(** [\d] on one character. *)
Definition is_digit (c : ascii) : bool :=
  let n := N_of_ascii c in ((48 <=? n) && (n <=? 57))%N.

Fixpoint lstrip (s : string) : string :=
  match s with
  | EmptyString => EmptyString
  | String c s' => if is_space c then lstrip s' else s
  end.

Fixpoint rstrip (s : string) : string :=
  match s with
  | EmptyString => EmptyString
  | String c s' =>
      match rstrip s' with
      | EmptyString => if is_space c then EmptyString else String c EmptyString
      | r => String c r
      end
  end.

(** [s.strip()] *)
Definition strip (s : string) : string := rstrip (lstrip s).

(** [s.startswith(p)] *)
Definition startswith (s p : string) : bool := String.prefix p s.

(** [len(s)] *)
Definition len (s : string) : Z := Z.of_nat (String.length s).

(** [s.split('\n')]: never empty, [''.split('\n') == ['']]. *)
Fixpoint split_nl (s : string) : list string :=
  match s with
  | EmptyString => [EmptyString]
  | String c s' =>
      if Ascii.eqb c newline then EmptyString :: split_nl s'
      else match split_nl s' with
           | [] => [String c EmptyString]
           | l :: ls => String c l :: ls
           end
  end.

(** ['\n'.join(ls)] *)
Definition join_nl (ls : list string) : string := String.concat nl ls.

(** Truth value of a string: [if s:] *)
Definition truthy (s : string) : bool :=
  match s with EmptyString => false | _ => true end.

End PyStr.

(* ================================================================== *)
(** ** textbook-editor/page_splitter.py *)
(* ================================================================== *)

Module PageSplitter.
Import PyStr.

Definition TARGET_CHARS : Z := 2750.
Definition MIN_CHARS : Z := 2000.
Definition MAX_CHARS : Z := 3500.

(** The values [block_type] takes in the source; ['other'] is only
    named in the field's comment. *)
Inductive BlockType : Type :=
| bt_heading | bt_paragraph | bt_code | bt_table | bt_list | bt_hr
| bt_step | bt_other.

Record ContentBlock : Type := mkContentBlock
  { content : string;
    block_type : BlockType;
    char_count : Z }.

(** [block_type in ('heading', 'hr', 'step')] *)
Definition is_break_point (b : ContentBlock) : bool :=
  match block_type b with
  | bt_heading | bt_hr | bt_step => true
  | _ => false
  end.

(** *** The block segmenter *)

(** Truth value of a list: [if current_block:], [if current_page:]. *)
Definition nonempty {A : Type} (l : list A) : bool :=
  match l with [] => false | _ => true end.

Definition make_block (text : string) (ty : BlockType) : ContentBlock :=
  {| content := text; block_type := ty; char_count := len text |}.

(** [line.strip().startswith('```')] *)
Definition is_fence (line : string) : bool :=
  startswith (strip line) "```".

(** The table test of the source, with its three disjuncts. *)
Definition is_table_line (line : string) : bool :=
  startswith (strip line) "|"
  || (startswith (strip line) "|-" || startswith (strip line) "|:").

(** [line.strip() in ('---', '***', '___')] *)
Definition is_hr (line : string) : bool :=
  let s := strip line in
  String.eqb s "---" || String.eqb s "***" || String.eqb s "___".

(** [line.startswith('#')] *)
Definition is_heading (line : string) : bool := startswith line "#".

(** [line.strip() == ''] *)
Definition is_blank (line : string) : bool := String.eqb (strip line) "".

Fixpoint skip_digits (s : string) : string :=
  match s with
  | EmptyString => EmptyString
  | String c s' => if is_digit c then skip_digits s' else s
  end.

Fixpoint skip_hashes (s : string) : string :=
  match s with
  | EmptyString => EmptyString
  | String c s' => if Ascii.eqb c "#" then skip_hashes s' else s
  end.

Definition is_bullet_char (c : ascii) : bool :=
  Ascii.eqb c "-" || Ascii.eqb c "*" || Ascii.eqb c "+".

(** [re.match(r'^[\s]*[-*+]\s', line)]: no marker character is white
    space, so the only way to match is to skip all leading white space. *)
Definition re_bullet (line : string) : bool :=
  match lstrip line with
  | String c (String d _) => is_bullet_char c && is_space d
  | _ => false
  end.

(** [\d+\.] followed by one more character accepted by [after], at the
    start of [s]. *)
Definition re_number_dot (s : string) (after : ascii -> bool) : bool :=
  match s with
  | String c s1 =>
      is_digit c &&
      match skip_digits s1 with
      | String dot (String d _) => Ascii.eqb dot "." && after d
      | _ => false
      end
  | EmptyString => false
  end.

(** [re.match(r'^[\s]*\d+\.\s', line)] *)
Definition re_numbered (line : string) : bool :=
  re_number_dot (lstrip line) is_space.

(** The list-item test, used on [line], [next_line] and [lines[j]]. *)
Definition is_list_item (line : string) : bool :=
  re_bullet line || re_numbered line.

Fixpoint drop (n : nat) (s : string) : string :=
  match n, s with
  | S n', String _ s' => drop n' s'
  | _, _ => s
  end.

(** [re.match(r'^#+\s*Step\s+\d+\.\d+', line)] *)
Definition re_step (line : string) : bool :=
  match line with
  | String h s0 =>
      Ascii.eqb h "#" &&
      let s2 := lstrip (skip_hashes s0) in
      startswith s2 "Step" &&
      match drop 4 s2 with
      | String c s4 => is_space c && re_number_dot (lstrip s4) is_digit
      | EmptyString => false
      end
  | EmptyString => false
  end.

(** [while i < len(lines) and p(lines[i]): acc.append(lines[i]); i += 1]
    as the absorbed lines and the lines left. *)
Fixpoint span (p : string -> bool) (ls : list string)
  : list string * list string :=
  match ls with
  | [] => ([], [])
  | l :: ls' =>
      if p l then let (a, r) := span p ls' in (l :: a, r) else ([], ls)
  end.

(** Guard of the second loop of the heading branch. *)
Definition is_lead_in (l : string) : bool :=
  negb (String.eqb (strip l) "") && negb (startswith l "#")
  && negb (startswith (strip l) "```") && negb (startswith (strip l) "|").

(** The look-ahead of the list branch: [lines[j]] for the first [j > i]
    with a non-blank line, if there is one. *)
Fixpoint first_non_blank (ls : list string) : option string :=
  match ls with
  | [] => None
  | l :: ls' => if is_blank l then first_non_blank ls' else Some l
  end.

(** The inner [while] of the list branch, from [lines[i]] on: the lines
    appended to [list_block] and the lines left. *)
Fixpoint collect_list (ls : list string) : list string * list string :=
  match ls with
  | [] => ([], [])
  | next_line :: ls' =>
      if is_list_item next_line
         || (startswith next_line "  " && truthy (strip next_line))
         || is_blank next_line
      then
        if is_blank next_line then
          match first_non_blank ls' with
          | Some l =>
              if is_list_item l
              then let (a, r) := collect_list ls' in (next_line :: a, r)
              else ([], ls)
          | None => ([], ls)
          end
        else let (a, r) := collect_list ls' in (next_line :: a, r)
      else ([], ls)
  end.

Record ParseState : Type := mkParseState
  { blocks : list ContentBlock;
    current_block : list string;
    current_type : BlockType;
    in_code_block : bool;
    in_table : bool }.

Definition parse_init : ParseState :=
  {| blocks := []; current_block := []; current_type := bt_paragraph;
     in_code_block := false; in_table := false |}.

(** The recurring "flush current block": [if current_block: ...]. *)
Definition flush_current (st : ParseState) : ParseState :=
  if nonempty (current_block st)
  then {| blocks := blocks st
                    ++ [make_block (join_nl (current_block st))
                                   (current_type st)];
          current_block := [];
          current_type := current_type st;
          in_code_block := in_code_block st;
          in_table := in_table st |}
  else st.

(** [current_block.append(line)] *)
Definition append_line (st : ParseState) (line : string) : ParseState :=
  {| blocks := blocks st;
     current_block := current_block st ++ [line];
     current_type := current_type st;
     in_code_block := in_code_block st;
     in_table := in_table st |}.

(** The [elif in_table:] branch, "End of table". *)
Definition close_table (st : ParseState) : ParseState :=
  {| blocks := blocks st
               ++ [make_block (join_nl (current_block st)) bt_table];
     current_block := [];
     current_type := bt_paragraph;
     in_code_block := in_code_block st;
     in_table := false |}.

(** A block emitted directly by the rule, heading or list branch, after
    the flush; [current_type] goes back to ['paragraph']. *)
Definition emit_block (st : ParseState) (text : string) (ty : BlockType)
  : ParseState :=
  {| blocks := blocks st ++ [make_block text ty];
     current_block := current_block st;
     current_type := bt_paragraph;
     in_code_block := in_code_block st;
     in_table := in_table st |}.

(** One pass through the body of [while i < len(lines)], started at
    [line = lines[i]] with [rest = lines[i+1:]]; the result is the state
    and the lines from the new [i] on.

    The [elif in_table:] branch ends with [continue] without advancing
    [i]: the body runs again on the same line with [in_table] cleared, and
    that second run fails the fence, code and table tests as the first one
    did, so it goes on with the rule test.  The two runs are one step
    here. *)
Definition parse_step (line : string) (rest : list string) (st : ParseState)
  : ParseState * list string :=
  if is_fence line then
    if in_code_block st then
      ({| blocks := blocks st
                    ++ [make_block (join_nl (current_block st ++ [line]))
                                   bt_code];
          current_block := [];
          current_type := bt_paragraph;
          in_code_block := false;
          in_table := in_table st |}, rest)
    else
      let st1 := flush_current st in
      ({| blocks := blocks st1;
          current_block := current_block st1 ++ [line];
          current_type := bt_code;
          in_code_block := true;
          in_table := in_table st1 |}, rest)
  else if in_code_block st then (append_line st line, rest)
  else if is_table_line line then
    let st1 :=
      if negb (in_table st)
      then let st0 := flush_current st in
           {| blocks := blocks st0;
              current_block := current_block st0;
              current_type := bt_table;
              in_code_block := in_code_block st0;
              in_table := true |}
      else st in
    (append_line st1 line, rest)
  else
    let st1 := if in_table st then close_table st else st in
    if is_hr line then
      (emit_block (flush_current st1) line bt_hr, rest)
    else if is_heading line then
      let st2 := flush_current st1 in
      let heading_type := if re_step line then bt_step else bt_heading in
      let (blanks, rest1) := span is_blank rest in
      let (lead_in, rest2) := span is_lead_in rest1 in
      (emit_block st2 (join_nl (line :: blanks ++ lead_in)) heading_type,
       rest2)
    else if is_list_item line then
      let st2 := flush_current st1 in
      let (items, rest1) := collect_list rest in
      (emit_block st2 (join_nl (line :: items)) bt_list, rest1)
    else if is_blank line then
      if nonempty (current_block st1)
      then (append_line st1 line, rest)
      else (append_line st1 line, rest)
    else (append_line st1 line, rest).

(** The [while] loop.  Every step leaves fewer lines, so [length lines]
    steps are enough; [None] is the loop cut short. *)
Fixpoint parse_loop (fuel : nat) (lines : list string) (st : ParseState)
  : option ParseState :=
  match lines with
  | [] => Some st
  | line :: rest =>
      match fuel with
      | O => None
      | S fuel' =>
          let (st', rest') := parse_step line rest st in
          parse_loop fuel' rest' st'
      end
  end.

(** "Flush remaining block". *)
Definition parse_finish (st : ParseState) : list ContentBlock :=
  if nonempty (current_block st) then
    let block_content := join_nl (current_block st) in
    if truthy (strip block_content)
    then blocks st
         ++ [make_block block_content
               (if negb (in_code_block st) then current_type st
                else bt_code)]
    else blocks st
  else blocks st.

(** [parse_content_blocks(content)].  The loop is given one step per
    line, which it never exhausts ([parse_loop_total] below). *)
Definition parse_content_blocks (text : string) : list ContentBlock :=
  let lines := split_nl text in
  match parse_loop (List.length lines) lines parse_init with
  | Some st => parse_finish st
  | None => []
  end.

(** A [table] block with no text. *)
Definition empty_table (b : ContentBlock) : bool :=
  match block_type b with
  | bt_table => String.eqb (content b) ""
  | _ => false
  end.

(** The specification's table row: a line that begins with the table
    delimiter and contains at least one more delimiter. *)
Fixpoint has_bar (s : string) : bool :=
  match s with
  | EmptyString => false
  | String c s' => Ascii.eqb c "|" || has_bar s'
  end.

Definition spec_table_row (line : string) : bool :=
  match line with
  | String c s' => Ascii.eqb c "|" && has_bar s'
  | EmptyString => false
  end.

(** *** The page packer *)

(** [TARGET_CHARS * 1.3] is the float [3575.0] (the product rounds to it
    exactly), and Python compares an [int] with a [float] by value, so
    [potential_chars > TARGET_CHARS * 1.3] is [potential_chars > 3575]. *)
Definition OVERSHOOT_CHARS : Z := 3575.

(** The [if/elif] chain that sets [should_break]. *)
Definition should_break (current_chars : Z) (block : ContentBlock) : bool :=
  let potential_chars := current_chars + char_count block in
  if current_chars =? 0 then false
  else if is_break_point block && (MIN_CHARS <=? current_chars) then true
  else if (MAX_CHARS <? potential_chars) && (MIN_CHARS <=? current_chars)
       then true
  else if OVERSHOOT_CHARS <? potential_chars then true
  else false.

Section Packer.
(** What a closed page is turned into when it is appended to [pages]:
    the source stores the page text; keeping the blocks instead gives
    the grouping itself. *)
Context {A : Type} (render : list ContentBlock -> A).

Record PackState : Type := mkPackState
  { pages : list A;
    current_page : list ContentBlock;
    current_chars : Z }.

Definition pack_init : PackState :=
  {| pages := []; current_page := []; current_chars := 0 |}.

(** One iteration of [for i, block in enumerate(blocks)]. *)
Definition pack_step (st : PackState) (block : ContentBlock) : PackState :=
  let st1 :=
    if should_break (current_chars st) block && nonempty (current_page st)
    then {| pages := pages st ++ [render (current_page st)];
            current_page := [];
            current_chars := 0 |}
    else st in
  {| pages := pages st1;
     current_page := current_page st1 ++ [block];
     current_chars := current_chars st1 + char_count block |}.

(** "Don't forget the last page". *)
Definition pack_finish (st : PackState) : list A :=
  if nonempty (current_page st)
  then pages st ++ [render (current_page st)]
  else pages st.

Definition pack_loop (blocks : list ContentBlock) (st : PackState)
  : PackState :=
  fold_left pack_step blocks st.

Definition pack (blocks : list ContentBlock) : list A :=
  pack_finish (pack_loop blocks pack_init).
End Packer.

Arguments PackState : clear implicits.

(** ['\n'.join(b.content for b in current_page)] followed by [.strip()]. *)
Definition page_text (page : list ContentBlock) : string :=
  strip (join_nl (map content page)).

(** [split_into_pages(blocks, source_file)]; [source_file] is unused. *)
Definition split_into_pages (blocks : list ContentBlock)
  (source_file : string) : list string :=
  pack page_text blocks.

(** The same loop, keeping each closed [current_page] as it is. *)
Definition page_groups (blocks : list ContentBlock)
  : list (list ContentBlock) :=
  pack (fun page => page) blocks.

(** The budget a page is charged with: the sum of its blocks'
    [char_count], which is what [current_chars] accumulates. *)
Definition page_chars (page : list ContentBlock) : Z :=
  fold_right (fun b acc => char_count b + acc) 0 page.

(** [current_chars] once the loop has gone through [done]: what the page
    under construction holds when the next block is met. *)
Definition chars_so_far (done : list ContentBlock) : Z :=
  current_chars (pack_loop (fun page => page) done pack_init).

(** The shape every page has: within [MAX_CHARS], or grown past it by a
    last block added while the page was still below [MIN_CHARS]. *)
Definition page_ok (page : list ContentBlock) : Prop :=
  page_chars page <= MAX_CHARS
  \/ exists before last,
       page = (before ++ [last])%list
       /\ page_chars before < MIN_CHARS
       /\ (page_chars page <= OVERSHOOT_CHARS
           \/ Forall (fun b => char_count b = 0) before).

(** A block charged with the length of its text. *)
Definition counted (b : ContentBlock) : Prop := char_count b = len (content b).

(** A block stands for a group of lines; the group is empty only for a
    [table] block closed with nothing in it. *)
Definition group_block (b : ContentBlock) (g : list string) : Prop :=
  content b = join_nl g /\ (g = [] -> block_type b = bt_table).

(** The emitted blocks, the pending buffer and the lines not yet read make
    up [lines], in this order. *)
Definition covers (lines : list string) (st : ParseState)
  (rest : list string) : Prop :=
  exists groups,
    Forall2 group_block (blocks st) groups
    /\ (List.concat groups ++ current_block st ++ rest)%list = lines.

(** No line that passes the table test is directly followed by a fence
    line. *)
Fixpoint no_fence_after_table (lines : list string) : Prop :=
  match lines with
  | a :: (b :: _) as rest =>
      (is_table_line a = true -> is_fence b = false)
      /\ no_fence_after_table rest
  | _ => True
  end.

(** What keeps empty [table] blocks away: a table run is never open
    inside a code block, holds table rows only, and is what
    [current_type = 'table'] stands for. *)
Definition table_run_ok (st : ParseState) : Prop :=
  Forall (fun b => empty_table b = false) (blocks st)
  /\ (in_table st = true ->
      in_code_block st = false
      /\ current_block st <> []
      /\ Forall (fun l => is_table_line l = true) (current_block st))
  /\ (current_type st = bt_table -> in_table st = true).

(** *** When a page is closed *)

(** What the page [g] held when the block that opens [next] was met:
    something, and either [MIN_CHARS] at least or so much that the block
    would have taken it past 1.3 x target. *)
Definition break_justified (g next : list ContentBlock) : Prop :=
  match next with
  | b :: _ =>
      page_chars g <> 0
      /\ (MIN_CHARS <= page_chars g
          \/ OVERSHOOT_CHARS < page_chars g + char_count b)
  | [] => True
  end.

Fixpoint breaks_justified (gs : list (list ContentBlock)) : Prop :=
  match gs with
  | g :: ((next :: _) as later) =>
      break_justified g next /\ breaks_justified later
  | _ => True
  end.

(** *** What the lines of a block are *)

(** A line holds no line separator. *)
Fixpoint no_newline (s : string) : bool :=
  match s with
  | EmptyString => true
  | String c s' => negb (Ascii.eqb c newline) && no_newline s'
  end.

(** A line that fails the fence, rule, heading and list tests of the main
    loop. *)
Definition is_plain (l : string) : bool :=
  negb (is_fence l) && negb (is_hr l) && negb (is_heading l)
  && negb (is_list_item l).

(** The guard of the inner [while] of the list branch. *)
Definition is_list_line (l : string) : bool :=
  is_list_item l || (startswith l "  " && truthy (strip l)) || is_blank l.

(** A fence line, the lines up to the next fence line, and that fence
    line if the text has one. *)
Definition code_shape (g : list string) : Prop :=
  exists opening body closing,
    g = opening :: body ++ closing
    /\ is_fence opening = true
    /\ Forall (fun x => is_fence x = false) body
    /\ (closing = [] \/ exists f, closing = [f] /\ is_fence f = true).

(** The heading line, the blank lines after it and the lead-in paragraph;
    [step] tells a ['step'] block from a ['heading'] block. *)
Definition heading_shape (step : bool) (g : list string) : Prop :=
  exists l blanks lead_in,
    g = l :: blanks ++ lead_in
    /\ is_heading l = true
    /\ re_step l = step
    /\ Forall (fun x => is_blank x = true) blanks
    /\ Forall (fun x => is_lead_in x = true) lead_in.

Definition list_shape (g : list string) : Prop :=
  exists l items,
    g = l :: items
    /\ is_list_item l = true
    /\ Forall (fun x => is_list_line x = true) items
    /\ is_blank (last g "") = false.

(** The lines a block of each type is made of. *)
Definition block_shape (ty : BlockType) (g : list string) : Prop :=
  match ty with
  | bt_hr => exists l, g = [l] /\ is_hr l = true
  | bt_heading => heading_shape false g
  | bt_step => heading_shape true g
  | bt_list => list_shape g
  | bt_code => code_shape g
  | bt_table => Forall (fun x => is_table_line x = true) g
  | bt_paragraph => g <> [] /\ Forall (fun x => is_plain x = true) g
  | bt_other => False
  end.

(** A block is its lines, joined, and the lines are what its type stands
    for. *)
Definition well_shaped (b : ContentBlock) : Prop :=
  exists g,
    content b = join_nl g
    /\ Forall (fun x => no_newline x = true) g
    /\ block_shape (block_type b) g.

(** A ['code'] block that both fences enclose. *)
Definition fenced (b : ContentBlock) : Prop :=
  block_type b = bt_code ->
  exists opening body closing,
    content b = join_nl (opening :: body ++ [closing])
    /\ Forall (fun x => no_newline x = true) (opening :: body ++ [closing])
    /\ is_fence opening = true
    /\ Forall (fun x => is_fence x = false) body
    /\ is_fence closing = true.

(** What the segmenter's state holds between two lines. *)
Definition shape_inv (st : ParseState) : Prop :=
  Forall (fun x => no_newline x = true) (current_block st)
  /\ Forall well_shaped (blocks st)
  /\ Forall fenced (blocks st)
  /\ (in_code_block st = true ->
      current_type st = bt_code
      /\ exists opening body,
           current_block st = opening :: body
           /\ is_fence opening = true
           /\ Forall (fun x => is_fence x = false) body)
  /\ (in_code_block st = false ->
      (current_type st = bt_paragraph \/ current_type st = bt_table)
      /\ (current_type st = bt_table -> in_table st = true)
      /\ (in_table st = true ->
          Forall (fun x => is_table_line x = true) (current_block st))
      /\ Forall (fun x => is_plain x = true) (current_block st)).

(** *** What comes after a heading block *)

Definition is_heading_type (ty : BlockType) : bool :=
  match ty with bt_heading | bt_step => true | _ => false end.

Definition is_list_or_hr (ty : BlockType) : bool :=
  match ty with bt_list | bt_hr => true | _ => false end.

(** No ['list'] or ['hr'] block comes right after a ['heading'] or
    ['step'] block. *)
Fixpoint no_list_after_heading (bs : list ContentBlock) : Prop :=
  match bs with
  | b :: ((b' :: _) as later) =>
      (is_heading_type (block_type b) = true ->
       is_list_or_hr (block_type b') = false)
      /\ no_list_after_heading later
  | _ => True
  end.

(** The last block, if there is one, is no heading block. *)
Definition ends_calm (bs : list ContentBlock) : Prop :=
  forall before b,
    bs = (before ++ [b])%list -> is_heading_type (block_type b) = false.

(** Right after a heading block, with nothing in the buffer, the line to
    come is one the lead-in loop stopped at. *)
Definition follow_inv (st : ParseState) (lines : list string) : Prop :=
  no_list_after_heading (blocks st)
  /\ (ends_calm (blocks st)
      \/ current_block st <> []
      \/ match lines with
         | [] => True
         | l :: _ => is_lead_in l = false
         end).

(** The blank lines a text of white space is read as. *)
Definition blank_inv (st : ParseState) : Prop :=
  blocks st = [] /\ in_code_block st = false /\ in_table st = false
  /\ Forall (fun x => is_blank x = true) (current_block st).

(** *** File names *)

(** [[A-Z]] on one character. *)
Definition is_upper (c : ascii) : bool :=
  let n := N_of_ascii c in ((65 <=? n) && (n <=? 90))%N.

(** The digits [\d+] takes at the start of [s]; [skip_digits] is what it
    leaves. *)
Fixpoint take_digits (s : string) : string :=
  match s with
  | EmptyString => EmptyString
  | String c s' =>
      if is_digit c then String c (take_digits s') else EmptyString
  end.

(** [[A-Z]?\d+] at the start of [s]: the text matched and the text left.
    The digits are followed by a character that is no digit in both
    patterns this is used in, so [\d+] takes them all; and leaving the
    optional letter out is a way to match only when [s] starts with a
    digit, where there is no letter to take. *)
Definition letter_digits (s : string) : option (string * string) :=
  match s with
  | String c s' =>
      if is_upper c then
        match take_digits s' with
        | EmptyString => None
        | ds => Some (String c ds, skip_digits s')
        end
      else
        match take_digits s with
        | EmptyString => None
        | ds => Some (ds, skip_digits s)
        end
  | EmptyString => None
  end.

(** [re.match(r'^([A-Z]?\d+)-', filename)]: [group(1)] of the match. *)
Definition re_prefix (filename : string) : option string :=
  match letter_digits filename with
  | Some (g, String c _) => if Ascii.eqb c "-" then Some g else None
  | _ => None
  end.

(** [s.split('-')[0]] *)
Fixpoint before_dash (s : string) : string :=
  match s with
  | EmptyString => EmptyString
  | String c s' =>
      if Ascii.eqb c "-" then EmptyString else String c (before_dash s')
  end.

(** [extract_prefix(filename)] *)
Definition extract_prefix (filename : string) : string :=
  match re_prefix filename with
  | Some g => g
  | None => before_dash filename
  end.

(** [str(n)] for [n >= 0].  (CPython refuses to convert more than 4300
    digits; no page number comes near that.) *)
Definition decimal (n : N) : string :=
  NilEmpty.string_of_uint (N.to_uint n).

(** [f"{i:02d}"]: the sign counts for the width. *)
Definition format_02d (i : Z) : string :=
  match i with
  | Zneg p => "-" ++ decimal (Npos p)
  | _ =>
      let d := decimal (Z.to_N i) in
      if (String.length d <? 2)%nat then "0" ++ d else d
  end.

(** [f"{prefix}-p{i:02d}.md"] *)
Definition page_filename (prefix : string) (i : Z) : string :=
  prefix ++ "-p" ++ format_02d i ++ ".md".

(** [enumerate(l, start)] *)
Fixpoint enumerate {A : Type} (start : Z) (l : list A) : list (Z * A) :=
  match l with
  | [] => []
  | x :: l' => (start, x) :: enumerate (start + 1) l'
  end.

(** [process_file(source_path, output_dir)], with the text read from
    [source_path] as [text]: the files written into [output_dir], in the
    order of the [write_text] calls, and the pair returned. *)
Definition process_file (source_name text : string)
  : list (string * string) * (string * Z) :=
  let prefix := extract_prefix source_name in
  let blocks := parse_content_blocks text in
  let pages := split_into_pages blocks source_name in
  (map (fun ip => (page_filename prefix (fst ip), snd ip))
       (enumerate 1 pages),
   (source_name, Z.of_nat (List.length pages))).

End PageSplitter.

(* ================================================================== *)
(** ** textbook-editor/generate_pdf.py: the page files read back *)
(* ================================================================== *)

Module GeneratePdf.
Import PyStr PageSplitter.

(** [int(s)] on the text a [(\d+)] group holds: decimal digits, at least
    one. *)
Definition int_of_digits (s : string) : option Z :=
  match s with
  | EmptyString => None
  | _ =>
      match NilEmpty.uint_of_string s with
      | Some d => Some (Z.of_N (N.of_uint d))
      | None => None
      end
  end.

(** [$] without [re.MULTILINE]: the end of the string, or the newline
    that ends it. *)
Definition at_end (s : string) : bool :=
  String.eqb s "" || String.eqb s nl.

(** In [generate_html]:
    [match = re.match(r'^([A-Z]?\d+)-p(\d+)\.md$', page_file.name)],
    and on a match [prefix = match.group(1)],
    [page_num = int(match.group(2))]. *)
Definition parse_page_name (name : string) : option (string * Z) :=
  match letter_digits name with
  | Some (prefix, rest) =>
      if startswith rest "-p" then
        let rest1 := drop 2 rest in
        match take_digits rest1 with
        | EmptyString => None
        | ds =>
            let rest2 := skip_digits rest1 in
            if startswith rest2 ".md" && at_end (drop 3 rest2)
            then match int_of_digits ds with
                 | Some page_num => Some (prefix, page_num)
                 | None => None
                 end
            else None
        end
      else None
  | None => None
  end.

End GeneratePdf.

(* ================================================================== *)
(** ** Python floats *)
(* ================================================================== *)

Module PyFloat.
Local Open Scope float_scope.

(** [float(n)], the conversion an [int] operand of a float operation
    undergoes: the nearest binary64 value.  (Python raises [OverflowError]
    beyond the binary64 range, where this is an infinity; no image is that
    large.) *)
Definition of_int (n : Z) : float :=
  SF2Prim (binary_normalize prec emax n 0 false).

(** [x / y]; [None] is [ZeroDivisionError]. *)
Definition truediv (x y : float) : option float :=
  if y =? 0 then None else Some (x / y).

(** A finite float as [m * 2^e]. *)
Definition parts (x : float) : option (Z * Z) :=
  match Prim2SF x with
  | S754_zero _ => Some (0, 0)%Z
  | S754_finite s m e => Some (if s then Z.neg m else Z.pos m, e)
  | _ => None
  end.

(** [int(x)], truncation towards zero; [None] is the error raised on an
    infinity or a NaN. *)
Definition to_int (x : float) : option Z :=
  match parts x with
  | Some (m, e) =>
      Some (if (0 <=? e)%Z then (m * 2 ^ e)%Z else Z.quot m (2 ^ (- e)))
  | None => None
  end.

(** [x // y]: the floor of the quotient of the two values, as a float;
    [None] is [ZeroDivisionError].  The tools only divide finite values by
    the page height; an infinite or NaN operand is given NaN. *)
Definition floordiv (x y : float) : option float :=
  if y =? 0 then None
  else match parts x, parts y with
       | Some (mx, ex), Some (my, ey) =>
           let e := Z.min ex ey in
           Some (of_int ((mx * 2 ^ (ex - e)) / (my * 2 ^ (ey - e)))%Z)
       | _, _ => Some nan
       end.

(** [min(a, b)]: the first argument unless the second is smaller. *)
Definition pymin (a b : float) : float := if b <? a then b else a.

(** [math.ceil(x / y)] on the values of two finite floats, [y > 0]: the
    specification's slice count. *)
Definition exact_ceil_div (x y : float) : option Z :=
  match parts x, parts y with
  | Some (mx, ex), Some (my, ey) =>
      let e := Z.min ex ey in
      Some (- ((- (mx * 2 ^ (ex - e))) / (my * 2 ^ (ey - e))))%Z
  | _, _ => None
  end.

(** A small error monad for the operations that can raise. *)
Definition bind {A B : Type} (m : option A) (k : A -> option B)
  : option B :=
  match m with Some a => k a | None => None end.

End PyFloat.

Declare Scope py_scope.
Notation "x <- m ;; k" := (PyFloat.bind m (fun x => k))
  (at level 61, m at next level, right associativity) : py_scope.

(* ================================================================== *)
(** ** tools/images-to-pdf.py *)
(* ================================================================== *)

Module ImagesToPdf.
Import PyFloat.
Local Open Scope float_scope.
Local Open Scope py_scope.

(** The page geometry comes from reportlab, which is not part of the
    repository: [reportlab.lib.units.inch] is [72.0] and
    [reportlab.lib.pagesizes.LETTER] is [(612.0, 792.0)]. *)
Definition inch : float := 72.
Definition PAGE_WIDTH : float := 612.
Definition PAGE_HEIGHT : float := 792.
Definition MARGIN : float := 0.5 * inch.
Definition USABLE_WIDTH : float := PAGE_WIDTH - of_int 2 * MARGIN.
Definition USABLE_HEIGHT : float := PAGE_HEIGHT - of_int 2 * MARGIN.

(** [calculate_scaled_dimensions]; [max_height = None] is the default
    argument. *)
Definition calculate_scaled_dimensions (img_width img_height : Z)
  (max_width : float) (max_height : option float)
  : option (float * float) :=
  scale <- truediv max_width (of_int img_width) ;;
  let scaled_width := max_width in
  let scaled_height := of_int img_height * scale in
  match max_height with
  | Some mh =>
      if mh <? scaled_height then
        scale' <- truediv mh (of_int img_height) ;;
        Some (of_int img_width * scale', mh)
      else Some (scaled_width, scaled_height)
  | None => Some (scaled_width, scaled_height)
  end.

(** The default [shrink_factor], the literal [0.8]: the nearest binary64
    value. *)
Definition default_shrink_factor : float := 0x1.999999999999ap-1.

(** [can_fit_with_shrink] *)
Definition can_fit_with_shrink (img_width img_height : Z)
  (shrink_factor : float) : option (bool * float * float) :=
  dims <- calculate_scaled_dimensions img_width img_height
            USABLE_WIDTH None ;;
  let (scaled_width, scaled_height) := dims in
  if scaled_height <=? USABLE_HEIGHT
  then Some (true, scaled_width, scaled_height)
  else
    let min_scale := shrink_factor in
    required_scale <- truediv USABLE_HEIGHT scaled_height ;;
    if min_scale <=? required_scale
    then Some (true, scaled_width * required_scale, USABLE_HEIGHT)
    else Some (false, scaled_width, scaled_height).

(** One page of a split image: the rows handed to [img.crop], the
    height it is drawn with, and the "(page_num/total_pages)" indicator
    when one is drawn. *)
Record Slice : Type := mkSlice
  { crop_top : Z;
    crop_bottom : Z;
    actual_height : float;
    indicator : option (Z * Z) }.

(** [while remaining_height > 0: ...] in [create_pdf].  [crop_y_end]
    may be the [int] [img_height] itself; an image height is far below
    2^53, where [float(img_height)] is that same number.

    The result lists the crop boxes the loop computes.  [img.crop] and
    [cropped.save] belong to PIL: where [save] raises on a box (one with
    no rows, [crop_top = crop_bottom]), the [except] of [create_pdf]
    gives the image up there, and the pages drawn are the slices before
    that box. *)
Fixpoint crop_loop (fuel : nat) (img_height : Z)
  (scale_factor : float) (total_pages : Z)
  (remaining_height crop_y_start : float) (page_num : Z)
  : option (list Slice) :=
  if 0 <? remaining_height then
    match fuel with
    | O => None
    | S fuel' =>
        let page_num := (page_num + 1)%Z in
        let this_page_height := pymin remaining_height USABLE_HEIGHT in
        crop_height_original <- truediv this_page_height scale_factor ;;
        let crop_y_end :=
          pymin (crop_y_start + crop_height_original)
                (of_int img_height) in
        top <- to_int crop_y_start ;;
        bottom <- to_int crop_y_end ;;
        let actual_height := (crop_y_end - crop_y_start) * scale_factor in
        let slice :=
          {| crop_top := top;
             crop_bottom := bottom;
             actual_height := actual_height;
             indicator := if (1 <? total_pages)%Z
                          then Some (page_num, total_pages)
                          else None |} in
        more <- crop_loop fuel' img_height scale_factor total_pages
                  (remaining_height - this_page_height)
                  crop_y_end page_num ;;
        Some (slice :: more)
    end
  else Some [].

(** The [else] branch of [create_pdf], "Image needs to span multiple
    pages": [total_pages] and the pages drawn.  [fuel] bounds the number
    of pages; [None] is an error raised, or the bound reached. *)
Definition create_pdf_split (fuel : nat) (img_width img_height : Z)
  : option (Z * list Slice) :=
  dims <- calculate_scaled_dimensions img_width img_height
            USABLE_WIDTH None ;;
  let (scaled_width, scaled_height) := dims in
  q <- floordiv (scaled_height + USABLE_HEIGHT - of_int 1) USABLE_HEIGHT ;;
  total_pages <- to_int q ;;
  scale_factor <- truediv scaled_width (of_int img_width) ;;
  slices <- crop_loop fuel img_height scale_factor total_pages
              scaled_height (of_int 0) 0 ;;
  Some (total_pages, slices).

(** What [create_pdf] does with one image. *)
Inductive Plan : Type :=
| Fits (width height : float)
| Split (total_pages : Z) (slices : list Slice).

Definition create_pdf_image (fuel : nat) (img_width img_height : Z)
  : option Plan :=
  fit <- can_fit_with_shrink img_width img_height
           default_shrink_factor ;;
  let '(can_fit, scaled_width, scaled_height) := fit in
  if can_fit : bool then Some (Fits scaled_width scaled_height)
  else
    r <- create_pdf_split fuel img_width img_height ;;
    Some (Split (fst r) (snd r)).

(** The width-fit height [can_fit_with_shrink] works with. *)
Definition width_fit_height (img_width img_height : Z) : option float :=
  dims <- calculate_scaled_dimensions img_width img_height
            USABLE_WIDTH None ;;
  Some (snd dims).

End ImagesToPdf.

(* ================================================================== *)
(** ** The image fitter of the specification *)
(* ================================================================== *)

(** The fitter as the specification words it, in exact arithmetic on
    the rationals, for the usable area of 540 x 720 points. *)
Module FitSpec.
Import QArith.
Local Open Scope Q_scope.

(** [scaledH = H * (pageW / W)] *)
Definition spec_scaled_height (W H : Z) : Q :=
  inject_Z H * (540 / inject_Z W).

(** [pageH / 0.8] *)
Definition spec_shrink_limit : Q := 720 / (8 # 10).

(** "Fits": the width-fit height is at most [pageH / 0.8]. *)
Definition spec_fits (W H : Z) : bool :=
  Qle_bool (spec_scaled_height W H) spec_shrink_limit.

End FitSpec.

(* ================================================================== *)
(** ** tools/journal-to-pdf.py *)
(* ================================================================== *)

Module JournalToPdf.
Import PyFloat.
Local Open Scope float_scope.
Local Open Scope py_scope.

(** The same page geometry as in [images-to-pdf.py]. *)
Definition inch : float := 72.
Definition PAGE_WIDTH : float := 612.
Definition PAGE_HEIGHT : float := 792.
Definition MARGIN : float := 0.5 * inch.
Definition USABLE_WIDTH : float := PAGE_WIDTH - of_int 2 * MARGIN.
Definition USABLE_HEIGHT : float := PAGE_HEIGHT - of_int 2 * MARGIN.

(** One slice appended to [story]: the crop rows, the height of the
    flowable and the "(page_num + 1/num_pages)" caption. *)
Record Slice : Type := mkSlice
  { crop_y_start : Z;
    crop_y_end : Z;
    slice_height : float;
    caption : Z * Z }.

(** The body of [for page_num in range(num_pages)]. *)
Definition make_slice (img_height : Z) (scale crop_height_per_page : float)
  (num_pages page_num : Z) : option Slice :=
  crop_y_start <- to_int (of_int page_num * crop_height_per_page) ;;
  e <- to_int (of_int (page_num + 1) * crop_height_per_page) ;;
  let crop_y_end := Z.min e img_height in
  Some {| crop_y_start := crop_y_start;
          crop_y_end := crop_y_end;
          slice_height := of_int (crop_y_end - crop_y_start) * scale;
          caption := ((page_num + 1)%Z, num_pages) |}.

Fixpoint slices_from (n : nat) (img_height : Z)
  (scale crop_height_per_page : float) (num_pages page_num : Z)
  : option (list Slice) :=
  match n with
  | O => Some []
  | S n' =>
      s <- make_slice img_height scale crop_height_per_page
             num_pages page_num ;;
      more <- slices_from n' img_height scale crop_height_per_page
                num_pages (page_num + 1) ;;
      Some (s :: more)
  end.

(** [add_split_image], from the image size on. *)
Definition add_split_image (img_width img_height : Z)
  (usable_width usable_height : float) : option (list Slice) :=
  scale <- truediv usable_width (of_int img_width) ;;
  let scaled_height := of_int img_height * scale in
  q <- floordiv (scaled_height + usable_height - of_int 1) usable_height ;;
  num_pages <- to_int q ;;
  crop_height_per_page <- truediv usable_height scale ;;
  slices_from (Z.to_nat num_pages) img_height scale
    crop_height_per_page num_pages 0.

(** How [create_pdf] places a screenshot. *)
Inductive Placement : Type :=
| OnePage (final_width final_height : float)
| ScaledToFit (final_width final_height : float)
| MultiPage (slices : list Slice).

Definition create_pdf_screenshot (img_width img_height : Z)
  : option Placement :=
  let available_height := USABLE_HEIGHT - of_int 1 * inch in
  scale <- truediv USABLE_WIDTH (of_int img_width) ;;
  let scaled_height := of_int img_height * scale in
  if scaled_height <=? available_height * 1.25 then
    s2 <- truediv available_height (of_int img_height) ;;
    let final_scale := pymin scale s2 in
    Some (OnePage (of_int img_width * final_scale)
                  (of_int img_height * final_scale))
  else
    let final_height := available_height in
    final_scale <- truediv final_height (of_int img_height) ;;
    let final_width := of_int img_width * final_scale in
    if available_height * of_int 2 <? scaled_height then
      slices <- add_split_image img_width img_height
                  USABLE_WIDTH USABLE_HEIGHT ;;
      Some (MultiPage slices)
    else Some (ScaledToFit final_width final_height).

(** *** The journal parser *)

Import PyStr.

Record JournalEntry : Type := mkJournalEntry
  { timestamp : string;
    content : string;
    screenshots : list string;
    is_header : bool;
    is_category_complete : bool }.

(** [needle in s] *)
Fixpoint contains (needle s : string) : bool :=
  String.prefix needle s
  || match s with
     | EmptyString => false
     | String _ s' => contains needle s'
     end.

(** [s in l] *)
Definition mem (s : string) (l : list string) : bool :=
  existsb (String.eqb s) l.

(** [\d{4}-\d{2}-\d{2}_\d{2}:\d{2}:\d{2}], one item per character:
    [None] is [\d]. *)
Definition timestamp_shape : list (option ascii) :=
  [ None; None; None; None; Some "-"%char; None; None; Some "-"%char;
    None; None; Some "_"%char; None; None; Some ":"%char; None; None;
    Some ":"%char; None; None ].

(** The text [shape] matches at the start of [s], and the text left. *)
Fixpoint match_shape (shape : list (option ascii)) (s : string)
  : option (string * string) :=
  match shape with
  | [] => Some (EmptyString, s)
  | item :: shape' =>
      match s with
      | EmptyString => None
      | String c s' =>
          if match item with
             | None => is_digit c
             | Some l => Ascii.eqb c l
             end
          then match match_shape shape' s' with
               | Some (g, r) => Some (String c g, r)
               | None => None
               end
          else None
      end
  end.

Fixpoint all_space (s : string) : bool :=
  match s with
  | EmptyString => true
  | String c s' => is_space c && all_space s'
  end.

(** [re.match(timestamp_pattern, s)]: [group(1)] of the match.  After
    the timestamp, [\s*$] asks for white space up to the end (the newline
    [$] may stop at is white space too). *)
Definition re_timestamp (s : string) : option string :=
  match match_shape timestamp_shape s with
  | Some (g, rest) => if all_space rest then Some g else None
  | None => None
  end.

Definition ACTION_LOG : string := "## Action Log".

Section ParseJournal.
(** What [parse_journal] looks up outside: the two functions that read
    the screenshots directory, with that directory fixed, and
    [re.findall(r'\b([VUP][\d.]+)\b', content_text)]. *)
Variable find_screenshots_in_text : string -> list string.
Variable infer_screenshots_for_test : string -> string -> list string.
Variable findall_test_ids : string -> list string.

(** [for s in inferred: if s not in screenshots: screenshots.append(s)] *)
Definition add_new (screenshots inferred : list string) : list string :=
  fold_left (fun shots s => if mem s shots then shots else (shots ++ [s])%list)
            inferred screenshots.

(** [for test_id in test_ids: ...] *)
Definition add_inferred (content_text : string) (screenshots : list string)
  : list string :=
  fold_left (fun shots test_id =>
               add_new shots (infer_screenshots_for_test test_id content_text))
            (findall_test_ids content_text) screenshots.

(** The entry as it is appended to [entries]: when a new timestamp is
    met ([last = false]), and after the loop ([last = true]), where the
    completion test is another one. *)
Definition finish_entry (last : bool) (ts : string)
  (current_content : list string) : JournalEntry :=
  let content_text := strip (join_nl current_content) in
  {| timestamp := ts;
     content := content_text;
     screenshots :=
       add_inferred content_text (find_screenshots_in_text content_text);
     is_header := false;
     is_category_complete :=
       if last
       then contains "=== CATEGORY" content_text
            || contains "=== ALL CATEGORIES" content_text
       else contains "=== CATEGORY" content_text
            && contains "COMPLETE ===" content_text |}.

Record JournalState : Type := mkJournalState
  { entries : list JournalEntry;
    current_entry : option string;
    current_content : list string;
    in_action_log : bool }.

Definition journal_init : JournalState :=
  {| entries := []; current_entry := None; current_content := [];
     in_action_log := false |}.

(** One iteration of [for i, line in enumerate(lines)].  Of the entry
    under construction only the timestamp is kept: its other fields are
    set when it is appended. *)
Definition journal_step (st : JournalState) (line : string) : JournalState :=
  if contains ACTION_LOG line then
    {| entries := entries st;
       current_entry := current_entry st;
       current_content := current_content st;
       in_action_log := true |}
  else if negb (in_action_log st) then st
  else
    match re_timestamp (strip line) with
    | Some ts =>
        {| entries :=
             match current_entry st with
             | Some ts0 =>
                 (entries st
                  ++ [finish_entry false ts0 (current_content st)])%list
             | None => entries st
             end;
           current_entry := Some ts;
           current_content := [];
           in_action_log := in_action_log st |}
    | None =>
        match current_entry st with
        | Some _ =>
            {| entries := entries st;
               current_entry := current_entry st;
               current_content := (current_content st ++ [line])%list;
               in_action_log := in_action_log st |}
        | None => st
        end
    end.

(** "Don't forget the last entry". *)
Definition journal_finish (st : JournalState) : list JournalEntry :=
  match current_entry st with
  | Some ts =>
      (entries st ++ [finish_entry true ts (current_content st)])%list
  | None => entries st
  end.

Definition parse_lines (lines : list string) (st : JournalState)
  : list JournalEntry :=
  journal_finish (fold_left journal_step lines st).

(** [parse_journal], from the text read from [journal_path] on. *)
Definition parse_journal (text : string) : list JournalEntry :=
  parse_lines (split_nl text) journal_init.

(** The timestamps the lines after the marker hold, in order. *)
Definition timestamps_of (lines : list string) : list string :=
  flat_map (fun line =>
              if contains ACTION_LOG line then []
              else match re_timestamp (strip line) with
                   | Some ts => [ts]
                   | None => []
                   end) lines.

(** The two completion tests. *)
Definition complete_between (e : JournalEntry) : Prop :=
  is_category_complete e
  = contains "=== CATEGORY" (content e)
    && contains "COMPLETE ===" (content e).

Definition complete_at_end (e : JournalEntry) : Prop :=
  is_category_complete e
  = contains "=== CATEGORY" (content e)
    || contains "=== ALL CATEGORIES" (content e).

(** The fields of an entry that do not depend on where it stands. *)
Definition entry_ok (e : JournalEntry) : Prop :=
  strip (content e) = content e
  /\ is_header e = false
  /\ exists inferred,
       screenshots e
       = (find_screenshots_in_text (content e) ++ inferred)%list
       /\ (forall s, In s inferred ->
             ~ In s (find_screenshots_in_text (content e))
             /\ exists test_id,
                  In test_id (findall_test_ids (content e))
                  /\ In s (infer_screenshots_for_test test_id (content e)))
       /\ NoDup inferred.
End ParseJournal.

(** *** The screenshots [create_pdf] includes *)

Section Placing.
(** [(screenshots_dir / screenshot).exists()] *)
Variable img_exists : string -> bool.

(** One iteration of [for screenshot in entry.screenshots], as far as
    [images_included] goes; the set is kept as the list of its members in
    the order they were added, which is the order the images are put in
    the story. *)
Definition place_step (images_included : list string) (screenshot : string)
  : list string :=
  if mem screenshot images_included then images_included
  else if negb (img_exists screenshot) then images_included
  else (images_included ++ [screenshot])%list.

Definition place_entry (images_included : list string) (e : JournalEntry)
  : list string :=
  fold_left place_step (screenshots e) images_included.

(** [images_included] after [for entry in entries]. *)
Definition images_placed (entries : list JournalEntry) : list string :=
  fold_left place_entry entries [].
End Placing.

End JournalToPdf.

(* ================================================================== *)
(** ** The binary64 values the fit test turns on *)
(* ================================================================== *)

Module FitBounds.
(** Mantissas of [720.0] and [900.0] (exponent -43) and of the literal
    [0.8] (exponent -53). *)
Definition M720 : positive := 6333186975989760.
Definition M900 : positive := 7916483719987200.
Definition Mfloor : positive := 7205759403792794.

(** The dividend [720 * 2^53] of the quotient [720 / x]. *)
Definition N720 : Z := Z.pos M720 * 2 ^ 53.

Definition SF720 : spec_float := S754_finite false M720 (-43).
Definition SF900 : spec_float := S754_finite false M900 (-43).
Definition SFfloor : spec_float := S754_finite false Mfloor (-53).
End FitBounds.

(* ================================================================== *)
(** ** Sample inputs *)
(* ================================================================== *)

Module Samples.
Import PyStr PageSplitter.

(** [c * n] *)
Fixpoint repeat_char (c : ascii) (n : nat) : string :=
  match n with
  | O => EmptyString
  | S n' => String c (repeat_char c n')
  end.

(** A paragraph block of [n] characters, as the segmenter builds it. *)
Definition paragraph_of (n : nat) : ContentBlock :=
  make_block (repeat_char "a" n) bt_paragraph.

Definition heading_of (title : string) : ContentBlock :=
  make_block ("# " ++ title) bt_heading.
(** The specification's scenario: a heading block of 40 characters and
    two paragraphs of 2000. *)
Definition scenario_heading : ContentBlock :=
  make_block ("# Introduction" ++ nl ++ repeat_char "a" 25) bt_heading.

Definition scenario : list ContentBlock :=
  [scenario_heading; paragraph_of 2000; paragraph_of 2000].
End Samples.

(* ================================================================== *)
(** ** Properties of the page packer *)
(* ================================================================== *)

Import PyStr PageSplitter.
Local Open Scope list_scope.

(** Case analysis on every test the goal still branches on. *)
Ltac break_tests :=
  repeat match goal with
         | |- context [if ?c then _ else _] => destruct c
         end.

Section PackerFacts.
Context {A : Type} (render : list ContentBlock -> A).

Lemma pack_loop_app (xs ys : list ContentBlock) (st : PackState A) :
  pack_loop render (xs ++ ys) st
  = pack_loop render ys (pack_loop render xs st).
Proof. unfold pack_loop. apply fold_left_app. Qed.

(** [current_chars] is the budget of the page under construction. *)
Lemma pack_step_chars (st : PackState A) (b : ContentBlock) :
  current_chars st = page_chars (current_page st) ->
  current_chars (pack_step render st b)
  = page_chars (current_page (pack_step render st b)).
Proof.
  intros Hst. unfold pack_step.
  assert (Happ : forall p,
             page_chars (p ++ [b])%list = page_chars p + char_count b).
  { induction p as [|x p IH]; simpl; [lia | rewrite IH; lia]. }
  destruct (should_break (current_chars st) b && nonempty (current_page st));
    cbn [current_page current_chars]; rewrite Happ; [reflexivity | lia].
Qed.

Lemma pack_loop_chars (blocks : list ContentBlock) (st : PackState A) :
  current_chars st = page_chars (current_page st) ->
  current_chars (pack_loop render blocks st)
  = page_chars (current_page (pack_loop render blocks st)).
Proof.
  revert st. induction blocks as [|b blocks IH]; intros st Hst.
  - exact Hst.
  - simpl. apply IH. now apply pack_step_chars.
Qed.

(** Closed pages are never touched again. *)
Lemma pack_loop_pages_prefix (blocks : list ContentBlock) (st : PackState A) :
  exists more, pages (pack_loop render blocks st) = (pages st ++ more)%list.
Proof.
  revert st. induction blocks as [|b blocks IH]; intros st.
  - exists []. simpl. now rewrite app_nil_r.
  - simpl. destruct (IH (pack_step render st b)) as [more Hmore].
    rewrite Hmore. unfold pack_step.
    destruct (should_break (current_chars st) b && nonempty (current_page st));
      simpl.
    + exists ([render (current_page st)] ++ more). now rewrite app_assoc.
    + now exists more.
Qed.

Lemma pack_finish_pages_prefix (blocks : list ContentBlock) (st : PackState A) :
  exists more,
    pack_finish render (pack_loop render blocks st) = (pages st ++ more)%list.
Proof.
  destruct (pack_loop_pages_prefix blocks st) as [more Hmore].
  unfold pack_finish. rewrite Hmore.
  destruct (nonempty (current_page (pack_loop render blocks st))).
  - eexists. now rewrite <- app_assoc.
  - now exists more.
Qed.
End PackerFacts.

(** [TARGET_CHARS * 1.3] is the float [3575.0]. *)
Lemma overshoot_value :
  (PyFloat.of_int TARGET_CHARS * 0x1.4cccccccccccdp+0)%float
  = PyFloat.of_int OVERSHOOT_CHARS.
Proof. vm_compute. reflexivity. Qed.

(** The page texts of the source are the block groups, rendered. *)
Lemma pack_loop_render {A : Type} (render : list ContentBlock -> A)
  (blocks : list ContentBlock) (st : PackState (list ContentBlock)) :
  let st' := pack_loop (fun page => page) blocks st in
  pack_loop render blocks
    {| pages := map render (pages st);
       current_page := current_page st;
       current_chars := current_chars st |}
  = {| pages := map render (pages st');
       current_page := current_page st';
       current_chars := current_chars st' |}.
Proof.
  revert st. induction blocks as [|b blocks IH]; intros st; simpl.
  - reflexivity.
  - rewrite <- IH. f_equal. unfold pack_step; simpl.
    destruct (should_break (current_chars st) b && nonempty (current_page st));
      simpl; [rewrite map_app|]; reflexivity.
Qed.

Lemma split_into_pages_groups (blocks : list ContentBlock)
  (source_file : string) :
  split_into_pages blocks source_file = map page_text (page_groups blocks).
Proof.
  unfold split_into_pages, page_groups, pack.
  pose proof (pack_loop_render page_text blocks pack_init) as H.
  simpl in H. unfold pack_init. rewrite H. unfold pack_finish; simpl.
  destruct (nonempty (current_page (pack_loop (fun page => page) blocks _)));
    [rewrite map_app|]; reflexivity.
Qed.

Lemma pack_loop_concat (blocks : list ContentBlock)
  (st : PackState (list ContentBlock)) :
  let st' := pack_loop (fun page => page) blocks st in
  (List.concat (pages st') ++ current_page st'
   = List.concat (pages st) ++ current_page st ++ blocks)%list.
Proof.
  revert st. induction blocks as [|b blocks IH]; intros st; simpl.
  - now rewrite app_nil_r.
  - rewrite IH. unfold pack_step.
    destruct (should_break (current_chars st) b && nonempty (current_page st));
      simpl.
    + rewrite List.concat_app. simpl. now rewrite app_nil_r, <- app_assoc.
    + now rewrite <- app_assoc.
Qed.

(** C3: the pages, concatenated in page order, are the input block list:
    every block is on exactly one page, in its place.  The page texts
    returned are these groups of blocks, rendered one by one. *)
Theorem pages_partition_blocks (blocks : list ContentBlock)
  (source_file : string) :
  List.concat (page_groups blocks) = blocks
  /\ split_into_pages blocks source_file
     = map page_text (page_groups blocks).
Proof.
  split; [|apply split_into_pages_groups].
  unfold page_groups, pack.
  pose proof (pack_loop_concat blocks pack_init) as H. simpl in H.
  unfold pack_finish.
  destruct (current_page (pack_loop (fun page => page) blocks pack_init))
    as [|b p] eqn:Hp; simpl.
  - now rewrite app_nil_r in H.
  - rewrite List.concat_app. simpl. now rewrite app_nil_r.
Qed.

(** C9: an empty block list gives an empty list of pages. *)
Theorem no_blocks_no_pages (source_file : string) :
  split_into_pages [] source_file = [] /\ page_groups [] = [].
Proof. split; reflexivity. Qed.

(** The specification's scenario: the heading and the first paragraph
    share page 1 (2040 characters), the second paragraph is page 2. *)
Example scenario_pages :
  map char_count Samples.scenario = [40; 2000; 2000]
  /\ page_groups Samples.scenario
     = [ [Samples.scenario_heading; Samples.paragraph_of 2000];
         [Samples.paragraph_of 2000] ].
Proof. split; vm_compute; reflexivity. Qed.

(** A page that opens with [b] keeps [b] as its first block. *)
Lemma pack_page_keeps_head (post : list ContentBlock)
  (st : PackState (list ContentBlock)) (b : ContentBlock)
  (q : list ContentBlock) :
  current_page st = b :: q ->
  exists page later,
    pack_finish (fun page => page) (pack_loop (fun page => page) post st)
    = pages st ++ (b :: page) :: later.
Proof.
  revert st q. induction post as [|x post IH]; intros st q Hq.
  - exists q, []. unfold pack_finish; simpl. now rewrite Hq.
  - simpl. unfold pack_step at 1.
    destruct (should_break (current_chars st) x && nonempty (current_page st)).
    + match goal with
      | |- context [pack_loop _ post ?s] =>
          destruct (pack_finish_pages_prefix (fun page => page) post s)
            as [more Hmore]
      end.
      rewrite Hmore. simpl. rewrite Hq, <- app_assoc. simpl.
      now exists q, more.
    + match goal with
      | |- context [pack_loop _ post ?s] =>
          destruct (IH s (q ++ [x])) as (page & later & Hres)
      end.
      { simpl. now rewrite Hq. }
      rewrite Hres. simpl. now exists page, later.
Qed.

(** C4: a break-preferred block met while the page under construction
    holds at least [MIN_CHARS] characters closes that page as it stands and
    becomes the first block of the next one. *)
Theorem break_point_starts_page (pre post : list ContentBlock)
  (b : ContentBlock) :
  is_break_point b = true ->
  MIN_CHARS <= chars_so_far pre ->
  exists page later,
    page_groups (pre ++ b :: post)
    = page_groups pre ++ (b :: page) :: later.
Proof.
  intros Hb Hmin. unfold chars_so_far in Hmin.
  unfold page_groups, pack. rewrite pack_loop_app. simpl.
  set (st := pack_loop (fun page => page) pre pack_init) in *.
  assert (Hchars : current_chars st = page_chars (current_page st))
    by (apply pack_loop_chars; reflexivity).
  assert (Hne : nonempty (current_page st) = true).
  { destruct (current_page st); [|reflexivity].
    simpl in Hchars. unfold MIN_CHARS in Hmin. lia. }
  assert (Hbreak : should_break (current_chars st) b = true).
  { unfold should_break. unfold MIN_CHARS in *.
    destruct (Z.eqb_spec (current_chars st) 0) as [E|_]; [lia|].
    rewrite Hb. simpl.
    destruct (Z.leb_spec 2000 (current_chars st)); [reflexivity | lia]. }
  unfold pack_step at 1. rewrite Hbreak, Hne. simpl.
  match goal with
  | |- context [pack_loop _ post ?s] =>
      destruct (pack_page_keeps_head post s b []) as (page & later & Hres);
        [reflexivity|]
  end.
  rewrite Hres. simpl.
  exists page, later. unfold pack_finish at 1. rewrite Hne.
  now rewrite <- app_assoc.
Qed.

Lemma break_point_starts_page_witness :
  exists page later,
    page_groups ([Samples.paragraph_of 2000]
                 ++ Samples.heading_of "Next" :: [Samples.paragraph_of 10])
    = page_groups [Samples.paragraph_of 2000]
      ++ (Samples.heading_of "Next" :: page) :: later.
Proof.
  apply (break_point_starts_page
           [Samples.paragraph_of 2000] [Samples.paragraph_of 10]
           (Samples.heading_of "Next")).
  - reflexivity.
  - apply Z.leb_le. vm_compute. reflexivity.
Defined.

Lemma page_chars_app (p q : list ContentBlock) :
  page_chars (p ++ q) = page_chars p + page_chars q.
Proof. induction p as [|x p IH]; simpl; [reflexivity | rewrite IH; lia]. Qed.

Lemma page_chars_zero (p : list ContentBlock) :
  Forall (fun b => 0 <= char_count b) p ->
  page_chars p = 0 ->
  Forall (fun b => char_count b = 0) p.
Proof.
  induction 1 as [|x p Hx Hp IH]; intros Hsum; [constructor|].
  simpl in Hsum.
  assert (0 <= page_chars p).
  { clear -Hp. induction Hp; simpl; lia. }
  constructor; [lia | apply IH; lia].
Qed.

Lemma should_break_false (cur : Z) (b : ContentBlock) :
  should_break cur b = false ->
  cur = 0
  \/ (cur + char_count b <= OVERSHOOT_CHARS
      /\ (cur + char_count b <= MAX_CHARS \/ cur < MIN_CHARS)).
Proof.
  unfold should_break.
  destruct (Z.eqb_spec cur 0) as [E|_]; [now left|].
  destruct (is_break_point b && (MIN_CHARS <=? cur)); [discriminate|].
  destruct (Z.ltb_spec MAX_CHARS (cur + char_count b));
    destruct (Z.leb_spec MIN_CHARS cur); simpl; try discriminate;
    destruct (Z.ltb_spec OVERSHOOT_CHARS (cur + char_count b));
    try discriminate; intros _; right; split; try assumption;
    solve [now left | now right].
Qed.

Lemma page_ok_single (b : ContentBlock) : page_ok [b].
Proof.
  right. exists [], b. split; [reflexivity | split].
  - simpl. unfold MIN_CHARS. lia.
  - right. constructor.
Qed.

Lemma pack_step_ok (st : PackState (list ContentBlock)) (b : ContentBlock) :
  0 <= char_count b ->
  Forall page_ok (pages st) ->
  page_ok (current_page st) ->
  Forall (fun x => 0 <= char_count x) (current_page st) ->
  current_chars st = page_chars (current_page st) ->
  let st' := pack_step (fun page => page) st b in
  Forall page_ok (pages st') /\ page_ok (current_page st')
  /\ Forall (fun x => 0 <= char_count x) (current_page st').
Proof.
  intros Hb Hpages Hcur Hnn Hchars. unfold pack_step.
  assert (Hkeep : page_ok (current_page st ++ [b])
                  \/ should_break (current_chars st) b = true).
  { destruct (should_break (current_chars st) b) eqn:Hsb; [now right | left].
    destruct (should_break_false _ _ Hsb) as [Hzero|[Hle [Hmax|Hmin]]].
    - rewrite Hchars in Hzero.
      pose proof (page_chars_zero _ Hnn Hzero) as Hempty.
      right. exists (current_page st), b. split; [reflexivity | split].
      + rewrite Hzero. unfold MIN_CHARS. lia.
      + now right.
    - left. rewrite page_chars_app, <- Hchars. simpl. lia.
    - right. exists (current_page st), b. split; [reflexivity | split].
      + now rewrite <- Hchars.
      + left. rewrite page_chars_app, <- Hchars. simpl. lia. }
  destruct (current_page st) as [|x p] eqn:Hp.
  - rewrite andb_false_r. cbn [pages current_page]. rewrite Hp.
    repeat split; [assumption | apply page_ok_single | now constructor].
  - rewrite andb_true_r.
    destruct (should_break (current_chars st) b) eqn:Hsb;
      cbn [pages current_page].
    + repeat split;
        [apply Forall_app; split; [assumption | now constructor]
        | apply page_ok_single | now constructor].
    + rewrite Hp. destruct Hkeep as [Hkeep|Hkeep]; [|discriminate].
      repeat split; [assumption | assumption |].
      apply Forall_app; split; [assumption | now constructor].
Qed.

Lemma pack_loop_ok (blocks : list ContentBlock)
  (st : PackState (list ContentBlock)) :
  Forall (fun b => 0 <= char_count b) blocks ->
  Forall page_ok (pages st) ->
  page_ok (current_page st) ->
  Forall (fun x => 0 <= char_count x) (current_page st) ->
  current_chars st = page_chars (current_page st) ->
  let st' := pack_loop (fun page => page) blocks st in
  Forall page_ok (pages st') /\ page_ok (current_page st').
Proof.
  revert st. induction blocks as [|b blocks IH];
    intros st Hblocks Hpages Hcur Hnn Hchars; simpl.
  - now split.
  - inversion Hblocks as [|? ? Hb Hrest]; subst.
    destruct (pack_step_ok st b Hb Hpages Hcur Hnn Hchars) as (H1 & H2 & H3).
    apply IH; try assumption. now apply pack_step_chars.
Qed.

(** C1 (amended): with [target = 2750], [min = 2000], [max = 3500], a
    page's total character count is at most [max] unless the page held fewer
    than [min] characters before its last block was added; such a page stays
    within 1.3 x target = 3575, except when every block before the last is
    empty (a single block in particular), where the last block can have any
    length. *)
Theorem page_within_budget (blocks : list ContentBlock)
  (page : list ContentBlock) :
  Forall (fun b => 0 <= char_count b) blocks ->
  In page (page_groups blocks) ->
  page_chars page <= MAX_CHARS
  \/ exists before last,
       page = before ++ [last]
       /\ page_chars before < MIN_CHARS
       /\ (page_chars page <= OVERSHOOT_CHARS
           \/ Forall (fun b => char_count b = 0) before).
Proof.
  intros Hblocks Hin.
  assert (Hinit : page_ok (current_page (@pack_init (list ContentBlock))))
    by (left; simpl; unfold MAX_CHARS; lia).
  destruct (pack_loop_ok blocks pack_init Hblocks (Forall_nil _) Hinit
              (Forall_nil _) eq_refl) as [Hpages Hcur].
  assert (Hall : Forall page_ok (page_groups blocks)).
  { unfold page_groups, pack, pack_finish.
    destruct (nonempty _); [|assumption].
    apply Forall_app; split; [assumption | now constructor]. }
  rewrite Forall_forall in Hall. exact (Hall page Hin).
Qed.

Lemma page_within_budget_witness :
  let page := [Samples.paragraph_of 1900; Samples.paragraph_of 1650] in
  page_chars page <= MAX_CHARS
  \/ exists before last,
       page = before ++ [last]
       /\ page_chars before < MIN_CHARS
       /\ (page_chars page <= OVERSHOOT_CHARS
           \/ Forall (fun b => char_count b = 0) before).
Proof.
  apply (page_within_budget
           [Samples.paragraph_of 1900; Samples.paragraph_of 1650]).
  - repeat constructor; apply Z.leb_le; vm_compute; reflexivity.
  - left. vm_compute. reflexivity.
Defined.

(** C1 as stated fails: two paragraphs of 1900 and 1650 characters share
    one page of 3550 characters, above [MAX_CHARS]. *)
Lemma page_exceeds_max :
  let blocks := [Samples.paragraph_of 1900; Samples.paragraph_of 1650] in
  exists page,
    In page (page_groups blocks)
    /\ ~ (exists b, page = [b] /\ MAX_CHARS < char_count b)
    /\ ~ (page_chars page <= MAX_CHARS).
Proof.
  exists [Samples.paragraph_of 1900; Samples.paragraph_of 1650].
  split; [|split].
  - left. vm_compute. reflexivity.
  - intros (b & Hb & _). discriminate Hb.
  - vm_compute. intros H. apply H. reflexivity.
Qed.

(* ================================================================== *)
(** ** Properties of [split] and [join] *)
(* ================================================================== *)

Lemma split_nl_nonempty (s : string) : split_nl s <> [].
Proof.
  destruct s as [|c s]; simpl; [discriminate|].
  destruct (Ascii.eqb c newline); [discriminate|].
  destruct (split_nl s); discriminate.
Qed.

Lemma join_nl_cons (l : string) (ls : list string) :
  ls <> [] -> join_nl (l :: ls) = (l ++ nl ++ join_nl ls)%string.
Proof. destruct ls; [congruence | reflexivity]. Qed.

Lemma join_nl_push (c : ascii) (l : string) (ls : list string) :
  join_nl (String c l :: ls) = String c (join_nl (l :: ls)).
Proof. destruct ls; reflexivity. Qed.

(** ['\n'.join(s.split('\n')) == s] *)
Lemma join_split (s : string) : join_nl (split_nl s) = s.
Proof.
  induction s as [|c s IH]; [reflexivity|]. simpl.
  destruct (Ascii.eqb_spec c newline) as [->|Hc].
  - rewrite join_nl_cons by apply split_nl_nonempty. now rewrite IH.
  - pose proof (split_nl_nonempty s) as Hne.
    destruct (split_nl s) as [|l ls]; [congruence|].
    now rewrite join_nl_push, IH.
Qed.

Lemma string_app_assoc (a b c : string) :
  ((a ++ b) ++ c = a ++ (b ++ c))%string.
Proof. induction a as [|x a IH]; simpl; [reflexivity | now rewrite IH]. Qed.

Lemma join_nl_app (xs ys : list string) :
  xs <> [] -> ys <> [] ->
  join_nl (xs ++ ys) = (join_nl xs ++ nl ++ join_nl ys)%string.
Proof.
  intros Hxs Hys. induction xs as [|x xs IH]; [congruence|].
  destruct xs as [|x' xs].
  - simpl app. now rewrite join_nl_cons.
  - change ((x :: x' :: xs) ++ ys) with (x :: (x' :: xs) ++ ys).
    rewrite join_nl_cons by discriminate.
    rewrite IH by discriminate.
    rewrite (join_nl_cons x (x' :: xs)) by discriminate.
    now rewrite !string_app_assoc.
Qed.

(** Joining groups of lines one by one and then together is joining all
    the lines, as long as no group is empty. *)
Lemma join_nl_groups (groups : list (list string)) :
  Forall (fun g => g <> []) groups ->
  join_nl (map join_nl groups) = join_nl (List.concat groups).
Proof.
  induction 1 as [|g groups Hg Hgs IH]; [reflexivity|].
  destruct groups as [|g' groups].
  - simpl. now rewrite app_nil_r.
  - change (map join_nl (g :: g' :: groups))
      with (join_nl g :: map join_nl (g' :: groups)).
    rewrite join_nl_cons by discriminate. rewrite IH.
    change (List.concat (g :: g' :: groups))
      with (g ++ List.concat (g' :: groups)).
    rewrite join_nl_app; [reflexivity | assumption |].
    inversion Hgs as [|? ? Hg' _]; subst. simpl.
    destruct g'; [congruence | discriminate].
Qed.

(** *** White space at the head of a string *)

Lemma lstrip_head (s : string) (c : ascii) (r : string) :
  lstrip s = String c r -> is_space c = false.
Proof.
  induction s as [|x s IH]; simpl; [discriminate|].
  destruct (is_space x) eqn:E; [exact IH|]. now intros [= <- _].
Qed.

Lemma rstrip_head (c : ascii) (s : string) :
  is_space c = false -> exists r, rstrip (String c s) = String c r.
Proof.
  intros Hc. simpl. rewrite Hc. destruct (rstrip s); now eexists.
Qed.

(** The first character that is not white space is the first character
    of the stripped string. *)
Lemma strip_head (l : string) (c : ascii) (r : string) :
  lstrip l = String c r -> exists r', strip l = String c r'.
Proof.
  intros H. unfold strip. rewrite H. apply rstrip_head.
  exact (lstrip_head _ _ _ H).
Qed.

Lemma lstrip_keeps_tail (a b : string) (c : ascii) (r : string) :
  lstrip a = String c r -> lstrip (a ++ b) = String c (r ++ b).
Proof.
  induction a as [|x a IH]; simpl; [discriminate|].
  destruct (is_space x); [exact IH|]. now intros [= -> ->].
Qed.

(* ================================================================== *)
(** ** Properties of the block segmenter *)
(* ================================================================== *)

Lemma span_app (p : string -> bool) (ls : list string) :
  ls = fst (span p ls) ++ snd (span p ls).
Proof.
  induction ls as [|l ls IH]; [reflexivity|]. simpl.
  destruct (p l); [|reflexivity].
  destruct (span p ls) as [a r]. simpl in *. now rewrite IH at 1.
Qed.

Lemma collect_list_app (ls : list string) :
  ls = fst (collect_list ls) ++ snd (collect_list ls).
Proof.
  induction ls as [|l ls IH]; [reflexivity|]. simpl.
  destruct (collect_list ls) as [a r]. simpl in IH.
  destruct (is_list_item l || _ || is_blank l); [|reflexivity].
  destruct (is_blank l).
  - destruct (first_non_blank ls) as [l'|]; [|reflexivity].
    destruct (is_list_item l'); [|reflexivity].
    simpl. now rewrite IH at 1.
  - simpl. now rewrite IH at 1.
Qed.

(** Every step consumes [line] and a prefix of [rest]. *)
Lemma parse_step_suffix (line : string) (rest : list string) (st : ParseState) :
  exists taken, rest = taken ++ snd (parse_step line rest st).
Proof.
  unfold parse_step.
  pose proof (span_app is_blank rest) as Hb.
  pose proof (span_app is_lead_in (snd (span is_blank rest))) as Hl.
  pose proof (collect_list_app rest) as Hc.
  destruct (span is_blank rest) as [blanks rest1]. simpl in Hb, Hl.
  destruct (span is_lead_in rest1) as [lead_in rest2]. simpl in Hl.
  destruct (collect_list rest) as [items rest3]. simpl in Hc.
  break_tests; simpl;
    first [ now exists []
          | now exists items
          | exists (blanks ++ lead_in); rewrite <- app_assoc, <- Hl; exact Hb ].
Qed.

Lemma parse_step_shorter (line : string) (rest : list string)
  (st : ParseState) :
  (List.length (snd (parse_step line rest st)) <= List.length rest)%nat.
Proof.
  destruct (parse_step_suffix line rest st) as [taken H].
  rewrite H at 2. rewrite length_app. lia.
Qed.

(** The loop never runs out of steps when it is given one per line. *)
Lemma parse_loop_total (fuel : nat) (lines : list string) (st : ParseState) :
  (List.length lines <= fuel)%nat ->
  exists st', parse_loop fuel lines st = Some st'.
Proof.
  revert lines st. induction fuel as [|fuel IH]; intros lines st Hlen.
  - destruct lines; [now exists st | simpl in Hlen; lia].
  - destruct lines as [|line rest]; [now exists st|].
    simpl. pose proof (parse_step_shorter line rest st) as Hs.
    destruct (parse_step line rest st) as [st1 rest1]. simpl in *.
    apply IH. lia.
Qed.

Lemma parse_content_blocks_run (text : string) :
  exists st,
    parse_loop (List.length (split_nl text)) (split_nl text) parse_init
    = Some st
    /\ parse_content_blocks text = parse_finish st.
Proof.
  destruct (parse_loop_total (List.length (split_nl text)) (split_nl text)
              parse_init (le_n _)) as [st Hst].
  exists st. split; [assumption|].
  unfold parse_content_blocks. now rewrite Hst.
Qed.

(** An invariant of the step is an invariant of the loop. *)
Lemma parse_loop_invariant (Inv : ParseState -> list string -> Prop) :
  (forall line rest st,
      Inv st (line :: rest) ->
      Inv (fst (parse_step line rest st)) (snd (parse_step line rest st))) ->
  forall fuel lines st st',
    parse_loop fuel lines st = Some st' -> Inv st lines -> Inv st' [].
Proof.
  intros Hstep. induction fuel as [|fuel IH]; intros lines st st' Hrun Hinv.
  - destruct lines; [|discriminate]. now inversion Hrun; subst.
  - destruct lines as [|line rest]; [now inversion Hrun; subst|].
    simpl in Hrun. specialize (Hstep line rest st Hinv).
    destruct (parse_step line rest st) as [st1 rest1]. simpl in *.
    exact (IH _ _ _ Hrun Hstep).
Qed.

(** *** Every block is charged its own length *)

Lemma counted_snoc (bs : list ContentBlock) (text : string) (ty : BlockType) :
  Forall counted bs -> Forall counted (bs ++ [make_block text ty]).
Proof.
  intros H. apply Forall_app; split; [assumption|].
  constructor; [reflexivity | constructor].
Qed.

Lemma counted_flush (st : ParseState) :
  Forall counted (blocks st) -> Forall counted (blocks (flush_current st)).
Proof.
  intros H. unfold flush_current.
  destruct (nonempty (current_block st)); [|assumption].
  now apply counted_snoc.
Qed.

Lemma counted_step (line : string) (rest : list string) (st : ParseState) :
  Forall counted (blocks st) ->
  Forall counted (blocks (fst (parse_step line rest st))).
Proof.
  intros H. unfold parse_step.
  assert (H1 : Forall counted
                 (blocks (if in_table st then close_table st else st))).
  { destruct (in_table st); [now apply counted_snoc | assumption]. }
  destruct (span is_blank rest) as [blanks rest1].
  destruct (span is_lead_in rest1) as [lead_in rest2].
  destruct (collect_list rest) as [items rest3].
  repeat match goal with
         | |- context [if ?c then _ else _] => destruct c eqn:?
         end;
    cbn [fst blocks append_line emit_block negb];
    repeat first [ apply counted_snoc | apply counted_flush ];
    assumption.
Qed.

(** C10: every emitted block's [char_count] is the length of its
    [content]. *)
Theorem char_count_is_length (text : string) :
  Forall (fun b => char_count b = len (content b))
         (parse_content_blocks text).
Proof.
  destruct (parse_content_blocks_run text) as (st & Hrun & ->).
  assert (Hst : Forall counted (blocks st)).
  { apply (parse_loop_invariant
             (fun st _ => Forall counted (blocks st))
             (fun line rest st H => counted_step line rest st H)
             _ _ _ _ Hrun).
    constructor. }
  unfold parse_finish.
  destruct (nonempty (current_block st)); [|assumption].
  destruct (truthy _); [|assumption].
  now apply counted_snoc.
Qed.

(** *** The blocks account for the lines *)

Section Covers.
Variable lines : list string.

Lemma covers_close (st : ParseState) (rest : list string) (ty : BlockType)
  (st' : ParseState) :
  covers lines st rest ->
  current_block st <> [] \/ ty = bt_table ->
  blocks st' = blocks st ++ [make_block (join_nl (current_block st)) ty] ->
  current_block st' = [] ->
  covers lines st' rest.
Proof.
  intros (groups & Hg & Hl) Hty Hb Hc.
  exists (groups ++ [current_block st]). rewrite Hb, Hc. split.
  - apply Forall2_app; [assumption|]. constructor; [|constructor].
    split; [reflexivity|]. intros E. simpl. destruct Hty; congruence.
  - rewrite List.concat_app. simpl. rewrite app_nil_r, <- app_assoc.
    exact Hl.
Qed.

Lemma covers_flush (st : ParseState) (rest : list string) :
  covers lines st rest -> covers lines (flush_current st) rest.
Proof.
  intros H. unfold flush_current.
  destruct (current_block st) as [|l cb] eqn:Hcb; [assumption|]. simpl.
  apply (covers_close st rest (current_type st)); try assumption.
  - left. rewrite Hcb. discriminate.
  - simpl. now rewrite Hcb.
  - reflexivity.
Qed.

Lemma flush_current_block (st : ParseState) :
  current_block (flush_current st) = [].
Proof.
  unfold flush_current.
  destruct (current_block st) eqn:E; simpl; [exact E | reflexivity].
Qed.

Lemma covers_take (st st' : ParseState) (line : string)
  (rest : list string) :
  covers lines st (line :: rest) ->
  blocks st' = blocks st ->
  current_block st' = current_block st ++ [line] ->
  covers lines st' rest.
Proof.
  intros (groups & Hg & Hl) Hb Hc. exists groups. rewrite Hb, Hc.
  split; [assumption|]. rewrite <- app_assoc. exact Hl.
Qed.

Lemma covers_emit (st : ParseState) (g rest : list string)
  (ty : BlockType) :
  covers lines st (g ++ rest) ->
  current_block st = [] ->
  g <> [] ->
  covers lines (emit_block st (join_nl g) ty) rest.
Proof.
  intros (groups & Hg & Hl) Hc Hne.
  exists (groups ++ [g]). simpl. rewrite Hc in *. split.
  - apply Forall2_app; [assumption|]. constructor; [|constructor].
    split; [reflexivity | congruence].
  - rewrite List.concat_app. simpl. rewrite app_nil_r, <- app_assoc.
    exact Hl.
Qed.

Lemma covers_close_table (st : ParseState) (rest : list string) :
  covers lines st rest -> covers lines (close_table st) rest.
Proof.
  intros H. apply (covers_close st rest bt_table); auto.
Qed.

Lemma covers_step (line : string) (rest : list string) (st : ParseState) :
  covers lines st (line :: rest) ->
  covers lines (fst (parse_step line rest st))
               (snd (parse_step line rest st)).
Proof.
  intros H. unfold parse_step.
  pose proof (span_app is_blank rest) as Hb.
  pose proof (span_app is_lead_in (snd (span is_blank rest))) as Hl.
  pose proof (collect_list_app rest) as Hc.
  destruct (span is_blank rest) as [blanks rest1]. simpl in Hb, Hl.
  destruct (span is_lead_in rest1) as [lead_in rest2]. simpl in Hl.
  destruct (collect_list rest) as [items rest3]. simpl in Hc.
  destruct (is_fence line).
  { destruct (in_code_block st); cbn [fst snd].
    - eapply (covers_close (append_line st line) rest bt_code);
        [ eapply covers_take; [exact H | reflexivity | reflexivity]
        | left; simpl; destruct (current_block st); discriminate
        | reflexivity | reflexivity ].
    - eapply covers_take;
        [ apply covers_flush; exact H | reflexivity | reflexivity ]. }
  destruct (in_code_block st); cbn [fst snd].
  { eapply covers_take; [exact H | reflexivity | reflexivity]. }
  destruct (is_table_line line); cbn [fst snd].
  { destruct (in_table st); cbn [negb].
    - eapply covers_take; [exact H | reflexivity | reflexivity].
    - eapply covers_take;
        [ apply covers_flush; exact H | reflexivity | reflexivity ]. }
  assert (H1 : covers lines (if in_table st then close_table st else st)
                 (line :: rest)).
  { destruct (in_table st); [now apply covers_close_table | assumption]. }
  set (st1 := if in_table st then close_table st else st) in *.
  destruct (is_hr line); cbn [fst snd].
  { apply (covers_emit (flush_current st1) [line] rest bt_hr);
      [ apply covers_flush; exact H1
      | apply flush_current_block | discriminate ]. }
  destruct (is_heading line); cbn [fst snd].
  { apply (covers_emit (flush_current st1) (line :: blanks ++ lead_in));
      [ | apply flush_current_block | discriminate ].
    apply covers_flush. simpl. rewrite <- app_assoc, <- Hl, <- Hb.
    exact H1. }
  destruct (is_list_item line); cbn [fst snd].
  { apply (covers_emit (flush_current st1) (line :: items));
      [ | apply flush_current_block | discriminate ].
    apply covers_flush. simpl. rewrite <- Hc. exact H1. }
  destruct (is_blank line); [destruct (nonempty (current_block st1))|];
    cbn [fst snd];
    (eapply covers_take; [exact H1 | reflexivity | reflexivity]).
Qed.
End Covers.

Lemma group_blocks_join (bs : list ContentBlock) (groups : list (list string)) :
  Forall2 group_block bs groups ->
  Forall (fun b => empty_table b = false) bs ->
  map content bs = map join_nl groups /\ Forall (fun g => g <> []) groups.
Proof.
  induction 1 as [|b g bs groups [Hc Ht] _ IH]; intros Hne.
  - split; constructor.
  - inversion Hne as [|? ? Hb Hbs]; subst.
    destruct (IH Hbs) as [IH1 IH2]. split.
    + simpl. now rewrite Hc, IH1.
    + constructor; [|assumption]. intros ->.
      unfold empty_table in Hb. rewrite (Ht eq_refl), Hc in Hb.
      discriminate.
Qed.

Lemma truthy_false (s : string) : truthy s = false -> s = ""%string.
Proof. destruct s; [reflexivity | discriminate]. Qed.

(** The loop accounts for every line of the text. *)
Lemma parse_loop_covers (text : string) (st : ParseState) :
  parse_loop (List.length (split_nl text)) (split_nl text) parse_init
  = Some st ->
  covers (split_nl text) st [].
Proof.
  intros Hrun.
  apply (parse_loop_invariant (covers (split_nl text))
           (covers_step (split_nl text)) _ _ _ _ Hrun).
  exists []. split; [constructor | reflexivity].
Qed.

(** The final flush: the blocks, and the buffer it drops if it drops one,
    give the text back as long as no group of lines is empty. *)
Lemma parse_finish_lossless (text : string) (st : ParseState) :
  covers (split_nl text) st [] ->
  Forall (fun b => empty_table b = false) (parse_finish st) ->
  exists tail,
    join_nl (map content (parse_finish st) ++ tail) = text
    /\ (tail = [] \/ exists t, tail = [t] /\ strip t = ""%string).
Proof.
  intros (groups & Hg & Hl). rewrite app_nil_r in Hl.
  assert (Hsnoc : Forall (fun b => empty_table b = false) (blocks st) ->
                  current_block st <> [] ->
                  join_nl (map content (blocks st)
                           ++ [join_nl (current_block st)]) = text).
  { intros Hne Hcb. destruct (group_blocks_join _ _ Hg Hne) as [Hm Hgs].
    rewrite Hm.
    change [join_nl (current_block st)] with (map join_nl [current_block st]).
    rewrite <- map_app, join_nl_groups.
    - rewrite List.concat_app. simpl. rewrite app_nil_r, Hl.
      apply join_split.
    - apply Forall_app; split; [assumption | now constructor]. }
  unfold parse_finish.
  destruct (current_block st) as [|l cb] eqn:Hcb; simpl nonempty; cbv iota.
  - intros Hne. exists []. split; [|now left].
    destruct (group_blocks_join _ _ Hg Hne) as [Hm Hgs].
    rewrite app_nil_r, Hm, join_nl_groups by assumption.
    rewrite app_nil_r in Hl. rewrite Hl. apply join_split.
  - destruct (truthy (strip (join_nl (l :: cb)))) eqn:Htr; intros Hne.
    + exists []. split; [|now left].
      apply Forall_app in Hne. destruct Hne as [Hne _].
      rewrite app_nil_r, map_app. simpl map.
      apply Hsnoc; [assumption | discriminate].
    + exists [join_nl (l :: cb)]. split.
      * apply Hsnoc; [assumption | discriminate].
      * right. eexists. split; [reflexivity|]. now apply truthy_false.
Qed.

(** C2 (amended): when the segmenter emits no empty [table] block, the
    blocks' [content], joined with the line separator, reproduce the text
    up to its end: either exactly, or short of a last white-space-only
    buffer, which the segmenter discards. *)
Theorem segmentation_lossless_up_to_tail (text : string) :
  Forall (fun b => empty_table b = false) (parse_content_blocks text) ->
  exists tail,
    join_nl (map content (parse_content_blocks text) ++ tail) = text
    /\ (tail = [] \/ exists t, tail = [t] /\ strip t = ""%string).
Proof.
  destruct (parse_content_blocks_run text) as (st & Hrun & ->).
  apply parse_finish_lossless. now apply parse_loop_covers.
Qed.

Lemma segmentation_lossless_up_to_tail_witness :
  let text := ("# Title" ++ nl ++ "Text" ++ nl)%string in
  exists tail,
    join_nl (map content (parse_content_blocks text) ++ tail) = text
    /\ (tail = [] \/ exists t, tail = [t] /\ strip t = ""%string).
Proof.
  apply (segmentation_lossless_up_to_tail
           ("# Title" ++ nl ++ "Text" ++ nl)%string).
  vm_compute. repeat constructor.
Defined.

(** C2 as stated fails: the newline that ends the text is lost. *)
Lemma trailing_newline_lost :
  let text := ("# Title" ++ nl ++ "Text" ++ nl)%string in
  join_nl (map content (parse_content_blocks text)) <> text.
Proof. vm_compute. discriminate. Qed.

(** The case the hypothesis leaves out: a code fence that opens inside a
    table run leaves [in_table] set, and the line after the fence's close
    makes the segmenter emit a [table] block with no line in it. *)
Lemma fence_in_table_emits_empty_block :
  let text := ("|a|" ++ nl ++ "```" ++ nl ++ "x" ++ nl ++ "```" ++ nl
               ++ "end")%string in
  parse_content_blocks text
  = [ make_block "|a|" bt_table;
      make_block ("```" ++ nl ++ "x" ++ nl ++ "```") bt_code;
      make_block "" bt_table;
      make_block "end" bt_paragraph ]
  /\ join_nl (map content (parse_content_blocks text)) <> text.
Proof. split; vm_compute; [reflexivity | discriminate]. Qed.

(** *** Table rows *)

(** The second and third disjunct of the table test add nothing. *)
Lemma is_table_line_bar (line : string) :
  is_table_line line = startswith (strip line) "|".
Proof.
  unfold is_table_line, startswith.
  destruct (strip line) as [|c s]; [reflexivity|]. cbn [prefix].
  destruct (ascii_dec "|" c); [|reflexivity].
  now destruct s.
Qed.

Lemma table_line_not_fence (line : string) :
  startswith (strip line) "|" = true -> is_fence line = false.
Proof.
  unfold is_fence, startswith.
  destruct (strip line) as [|c s]; [discriminate|]. cbn [prefix].
  destruct (ascii_dec "|" c) as [<-|]; [|discriminate].
  intros _. destruct (ascii_dec "`" "|"); [discriminate | reflexivity].
Qed.

Lemma flush_in_code_block (st : ParseState) :
  in_code_block (flush_current st) = in_code_block st.
Proof. unfold flush_current. now destruct (nonempty (current_block st)). Qed.

(** Outside a code block, the step on a table row appends it to the run. *)
Lemma parse_step_table_row (line : string) (rest : list string)
  (st : ParseState) :
  in_code_block st = false ->
  startswith (strip line) "|" = true ->
  parse_step line rest st
  = (if in_table st then append_line st line
     else {| blocks := blocks (flush_current st);
             current_block := current_block (flush_current st) ++ [line];
             current_type := bt_table;
             in_code_block := in_code_block (flush_current st);
             in_table := true |},
     rest).
Proof.
  intros Hcode Hbar. unfold parse_step.
  rewrite (table_line_not_fence line Hbar), Hcode, is_table_line_bar, Hbar.
  now destruct (in_table st).
Qed.

Lemma table_rows_absorbed (rows more : list string) (fuel : nat)
  (bs : list ContentBlock) (cb : list string) (ty : BlockType) :
  Forall (fun r => startswith (strip r) "|" = true) rows ->
  parse_loop (List.length rows + fuel) (rows ++ more)
    {| blocks := bs; current_block := cb; current_type := ty;
       in_code_block := false; in_table := true |}
  = parse_loop fuel more
      {| blocks := bs; current_block := cb ++ rows; current_type := ty;
         in_code_block := false; in_table := true |}.
Proof.
  intros Hrows. revert cb. induction Hrows as [|r rows Hr _ IH]; intros cb.
  - simpl. now rewrite app_nil_r.
  - cbn [List.length Nat.add app parse_loop].
    rewrite parse_step_table_row by (assumption || reflexivity).
    cbn [in_table]. unfold append_line.
    cbn [blocks current_block current_type in_code_block in_table].
    rewrite IH, <- app_assoc. reflexivity.
Qed.

(** A run of rows met with no run open: the buffer is flushed and the rows
    are gathered in the new buffer, of type ['table']. *)
Lemma table_run_gathered (st : ParseState) (r : string)
  (rows more : list string) (fuel : nat) :
  in_code_block st = false ->
  in_table st = false ->
  Forall (fun r => startswith (strip r) "|" = true) (r :: rows) ->
  parse_loop (List.length (r :: rows) + fuel) ((r :: rows) ++ more) st
  = parse_loop fuel more
      {| blocks := blocks (flush_current st);
         current_block := r :: rows;
         current_type := bt_table;
         in_code_block := false;
         in_table := true |}.
Proof.
  intros Hcode Htable Hrows.
  inversion Hrows as [|? ? Hr Hrows']; subst.
  simpl. rewrite (parse_step_table_row r _ st Hcode Hr), Htable.
  rewrite flush_current_block, flush_in_code_block, Hcode. simpl.
  exact (table_rows_absorbed rows more fuel _ _ _ Hrows').
Qed.

(** The rows of a run give the buffer a text that is not white space, so
    the flush at the end of the text keeps it. *)
Lemma table_rows_have_text (r : string) (rows : list string) :
  startswith (strip r) "|" = true ->
  truthy (strip (join_nl (r :: rows))) = true.
Proof.
  intros Hr. destruct (lstrip r) as [|c s] eqn:E.
  - unfold strip in Hr. rewrite E in Hr. discriminate.
  - assert (Hj : exists t, lstrip (join_nl (r :: rows)) = String c t).
    { destruct rows as [|r' rows]; [now exists s|].
      rewrite join_nl_cons by discriminate.
      eexists. apply lstrip_keeps_tail. exact E. }
    destruct Hj as [t Ht]. destruct (strip_head _ _ _ Ht) as [t' ->].
    reflexivity.
Qed.

(** C8 (amended): a line met outside a code block, and not itself a fence
    line, is taken as a table row exactly when, stripped of surrounding white
    space, it begins with the table delimiter (no second delimiter is asked
    for); it is then appended to the buffer, of the open run when [in_table]
    is set, of a new run after a flush when it is not.

    Consecutive such lines met outside a code block while [in_table] is not
    set form one [table] block, which holds exactly these lines.  The first
    following line that is not a table row ends the run: the block is
    emitted before that line is dealt with, be it another line or a fence
    line, which then opens its code block.  The end of the text ends the
    run too.

    A run met while [in_table] is still set from a run that a code fence
    interrupted is left out. *)
Theorem table_rows_by_leading_bar :
  (forall (st : ParseState) (line : string) (rest : list string),
      in_code_block st = false ->
      is_fence line = false ->
      let st' := fst (parse_step line rest st) in
      in_table st' = startswith (strip line) "|"
      /\ (startswith (strip line) "|" = true ->
          snd (parse_step line rest st) = rest
          /\ blocks st'
             = (if in_table st then blocks st else blocks (flush_current st))
          /\ current_block st'
             = (if in_table st then current_block st else []) ++ [line]))
  /\
  (forall (st : ParseState) (rows : list string),
      in_code_block st = false ->
      in_table st = false ->
      rows <> [] ->
      Forall (fun r => startswith (strip r) "|" = true) rows ->
      let emitted :=
        blocks (flush_current st) ++ [make_block (join_nl rows) bt_table] in
      (forall (l : string) (rest : list string) (fuel : nat),
          startswith (strip l) "|" = false ->
          is_fence l = false ->
          parse_loop (List.length rows + fuel) (rows ++ l :: rest) st
          = parse_loop fuel (l :: rest)
              {| blocks := emitted;
                 current_block := [];
                 current_type := bt_paragraph;
                 in_code_block := false;
                 in_table := false |})
      /\ (forall (l : string) (rest : list string) (fuel : nat),
             is_fence l = true ->
             exists st',
               parse_loop (List.length rows + S fuel) (rows ++ l :: rest) st
               = parse_loop fuel rest st'
               /\ blocks st' = emitted
               /\ current_block st' = [l]
               /\ current_type st' = bt_code
               /\ in_code_block st' = true)
      /\ (forall fuel : nat,
             exists st',
               parse_loop (List.length rows + fuel) rows st = Some st'
               /\ parse_finish st' = emitted)).
Proof.
  split.
  - intros st line rest Hcode Hfence. cbv zeta.
    destruct (startswith (strip line) "|") eqn:Hbar.
    + rewrite (parse_step_table_row line rest st Hcode Hbar).
      destruct (in_table st) eqn:Ht;
        cbn [fst snd append_line in_table blocks current_block].
      * split; [exact Ht|]. intros _. repeat split.
      * split; [reflexivity|]. intros _.
        rewrite flush_current_block. repeat split.
    + split; [|discriminate].
      unfold parse_step.
      rewrite Hfence, Hcode, is_table_line_bar, Hbar.
      destruct (span is_blank rest) as [blanks rest1].
      destruct (span is_lead_in rest1) as [lead_in rest2].
      destruct (collect_list rest) as [items rest3].
      assert (H1 : in_table (if in_table st then close_table st else st)
                   = false) by (destruct (in_table st) eqn:E; auto).
      assert (H2 : in_table (flush_current
                               (if in_table st then close_table st else st))
                   = false).
      { unfold flush_current. now destruct (nonempty _). }
      repeat match goal with
             | |- context [if ?c then _ else _] =>
                 lazymatch c with
                 | in_table st => fail
                 | _ => destruct c
                 end
             end; simpl; assumption.
  - intros st rows Hcode Htable Hne Hrows. cbv zeta.
    destruct rows as [|r rows]; [congruence|].
    pose proof (Forall_inv Hrows) as Hr.
    split; [|split].
    + intros l rest fuel Hl Hfence.
      rewrite (table_run_gathered st r rows _ fuel Hcode Htable Hrows).
      destruct fuel as [|fuel]; [reflexivity|]. simpl.
      unfold parse_step.
      rewrite Hfence, is_table_line_bar, Hl. reflexivity.
    + intros l rest fuel Hfence.
      rewrite (table_run_gathered st r rows _ (S fuel) Hcode Htable Hrows).
      cbn [parse_loop]. unfold parse_step. rewrite Hfence.
      cbn [in_code_block flush_current current_block nonempty].
      eexists. split; [reflexivity|]. repeat split.
    + intros fuel.
      pose proof (table_run_gathered st r rows [] fuel Hcode Htable Hrows)
        as Hrun.
      rewrite app_nil_r in Hrun. rewrite Hrun.
      eexists. split; [destruct fuel; reflexivity|].
      unfold parse_finish.
      cbn [current_block nonempty in_code_block negb current_type blocks].
      now rewrite (table_rows_have_text r rows Hr).
Qed.

Lemma table_rows_by_leading_bar_witness :
  (let st' := fst (parse_step "| a |" ["end"%string] parse_init) in
   in_table st' = startswith (strip "| a |") "|"
   /\ (startswith (strip "| a |") "|" = true ->
       snd (parse_step "| a |" ["end"%string] parse_init) = ["end"%string]
       /\ blocks st' = blocks (flush_current parse_init)
       /\ current_block st' = [] ++ ["| a |"%string]))
  /\ (let rows := ["| a |"; "| b |"]%string in
      let emitted := [make_block (join_nl rows) bt_table] in
      parse_loop (2 + 1) (rows ++ ["end"%string]) parse_init
      = parse_loop 1 ["end"%string]
          {| blocks := emitted;
             current_block := [];
             current_type := bt_paragraph;
             in_code_block := false;
             in_table := false |}
      /\ (exists st',
             parse_loop (2 + 2) (rows ++ ["```"; "x"]%string) parse_init
             = parse_loop 1 ["x"%string] st'
             /\ blocks st' = emitted
             /\ current_block st' = ["```"%string]
             /\ current_type st' = bt_code
             /\ in_code_block st' = true)
      /\ (exists st',
             parse_loop (2 + 0) rows parse_init = Some st'
             /\ parse_finish st' = emitted)).
Proof.
  split.
  - apply (proj1 table_rows_by_leading_bar parse_init "| a |"%string
             ["end"%string]); reflexivity.
  - assert (Hrows : Forall (fun r => startswith (strip r) "|" = true)
                      ["| a |"; "| b |"]%string) by (repeat constructor).
    destruct (proj2 table_rows_by_leading_bar parse_init
                ["| a |"; "| b |"]%string eq_refl eq_refl
                ltac:(discriminate) Hrows) as (Hline & Hfence & Hend).
    cbv zeta. split; [|split].
    + apply (Hline "end"%string [] 1%nat); reflexivity.
    + apply (Hfence "```"%string ["x"%string] 1%nat). reflexivity.
    + apply (Hend 0%nat).
Defined.

(** The run left out: a code fence that interrupts a table run leaves
    [in_table] set, the rows met after the code block join a buffer whose
    type is ['paragraph'], and the end of the text emits them as a
    [paragraph] block. *)
Lemma rows_after_fenced_table :
  let text := ("|a|" ++ nl ++ "```" ++ nl ++ "x" ++ nl ++ "```" ++ nl
               ++ "| b" ++ nl ++ "| c")%string in
  parse_content_blocks text
  = [ make_block "|a|" bt_table;
      make_block ("```" ++ nl ++ "x" ++ nl ++ "```") bt_code;
      make_block ("| b" ++ nl ++ "| c") bt_paragraph ].
Proof. vm_compute. reflexivity. Qed.

(** C8 as stated fails: a line with the leading delimiter alone is a table
    row for the segmenter. *)
Lemma bar_without_second_is_table :
  spec_table_row "| note" = false
  /\ parse_content_blocks "| note" = [make_block "| note" bt_table].
Proof. split; vm_compute; reflexivity. Qed.

(** *** Where no empty table block can appear *)

Lemma no_fence_after_table_tail (a : string) (rest : list string) :
  no_fence_after_table (a :: rest) -> no_fence_after_table rest.
Proof. destruct rest; [trivial | now intros [_ H]]. Qed.

Lemma no_fence_after_table_suffix (taken rest : list string) :
  no_fence_after_table (taken ++ rest) -> no_fence_after_table rest.
Proof.
  induction taken as [|a taken IH]; [trivial|]. intros H.
  apply IH. exact (no_fence_after_table_tail a _ H).
Qed.

Lemma table_line_nonempty (l : string) :
  is_table_line l = true -> l <> ""%string.
Proof. intros H ->. discriminate H. Qed.

Lemma join_nl_nonempty (l : string) (ls : list string) :
  l <> ""%string -> join_nl (l :: ls) <> ""%string.
Proof.
  destruct l as [|c l]; [congruence|]. intros _.
  rewrite join_nl_push. discriminate.
Qed.

Lemma not_table_not_empty_table (text : string) (ty : BlockType) :
  ty <> bt_table -> empty_table (make_block text ty) = false.
Proof. destruct ty; (reflexivity || congruence). Qed.

Lemma table_rows_not_empty_table (cb : list string) (ty : BlockType) :
  cb <> [] -> Forall (fun l => is_table_line l = true) cb ->
  empty_table (make_block (join_nl cb) ty) = false.
Proof.
  intros Hne Hall. destruct cb as [|l cb]; [congruence|].
  inversion Hall as [|? ? Hl _]; subst.
  pose proof (join_nl_nonempty l cb (table_line_nonempty l Hl)) as Hj.
  unfold empty_table. simpl block_type. simpl content.
  destruct ty; try reflexivity.
  destruct (join_nl (l :: cb)); [congruence | reflexivity].
Qed.

Lemma table_run_ok_intro (st : ParseState) :
  Forall (fun b => empty_table b = false) (blocks st) ->
  in_table st = false ->
  current_type st <> bt_table ->
  table_run_ok st.
Proof.
  intros Hb Ht Hty. split; [exact Hb | split].
  - intros E. congruence.
  - intros E. contradiction.
Qed.

Lemma table_run_ok_type (st : ParseState) :
  table_run_ok st -> in_table st = false -> current_type st <> bt_table.
Proof.
  intros (_ & _ & Hty) Ht E. specialize (Hty E). congruence.
Qed.

Lemma blocks_snoc_ok (bs : list ContentBlock) (b : ContentBlock) :
  Forall (fun b => empty_table b = false) bs ->
  empty_table b = false ->
  Forall (fun b => empty_table b = false) (bs ++ [b]).
Proof.
  intros Hbs Hb. apply Forall_app; split; [assumption | now constructor].
Qed.

Lemma table_run_ok_flush (st : ParseState) :
  table_run_ok st -> in_table st = false ->
  table_run_ok (flush_current st)
  /\ in_table (flush_current st) = false.
Proof.
  intros Hok Ht.
  pose proof (table_run_ok_type st Hok Ht) as Hne.
  destruct Hok as (Hb & _ & _).
  unfold flush_current. destruct (nonempty (current_block st)).
  - split; [|exact Ht]. apply table_run_ok_intro; simpl; try assumption.
    apply blocks_snoc_ok; [assumption|].
    now apply not_table_not_empty_table.
  - split; [|exact Ht]. now apply table_run_ok_intro.
Qed.

Lemma table_run_ok_emit (st : ParseState) (text : string) (ty : BlockType) :
  table_run_ok st -> in_table st = false -> ty <> bt_table ->
  table_run_ok (emit_block st text ty).
Proof.
  intros (Hb & _ & _) Ht Hne.
  apply table_run_ok_intro; simpl; [|assumption|discriminate].
  apply blocks_snoc_ok; [assumption|].
  now apply not_table_not_empty_table.
Qed.

(** Closing the table run, when one is open, leaves no run open. *)
Lemma table_run_ok_close (st : ParseState) :
  table_run_ok st ->
  let st1 := if in_table st then close_table st else st in
  table_run_ok st1 /\ in_table st1 = false.
Proof.
  intros Hok. cbv zeta. destruct (in_table st) eqn:Ht.
  - destruct Hok as (Hb & Hrun & _).
    destruct (Hrun Ht) as (_ & Hne & Hrows).
    split; [|reflexivity].
    apply table_run_ok_intro; simpl; [|reflexivity|discriminate].
    apply blocks_snoc_ok; [assumption|].
    now apply table_rows_not_empty_table.
  - now split.
Qed.

(** Where a step leaves a table run open, the line was a table row and the
    step consumed nothing else. *)
Lemma parse_step_opens_table (line : string) (rest : list string)
  (st : ParseState) :
  table_run_ok st ->
  (in_table st = true -> is_fence line = false) ->
  in_table (fst (parse_step line rest st)) = true ->
  is_table_line line = true /\ snd (parse_step line rest st) = rest.
Proof.
  intros (Hb & Hrun & Hty) Hhead. unfold parse_step.
  destruct (is_fence line) eqn:Hfence.
  { assert (Ht0 : in_table st = false).
    { destruct (in_table st); [|reflexivity].
      specialize (Hhead eq_refl). discriminate. }
    destruct (in_code_block st); cbn [fst snd in_table].
    - congruence.
    - unfold flush_current. destruct (nonempty _); simpl; congruence. }
  destruct (in_code_block st) eqn:Hcode; cbn [fst snd].
  { unfold append_line. simpl. intros Ht.
    destruct (Hrun Ht) as [E _]. discriminate. }
  destruct (is_table_line line); cbn [fst snd]; [now split|].
  set (st1 := if in_table st then close_table st else st).
  assert (Ht1 : in_table st1 = false)
    by (subst st1; destruct (in_table st) eqn:E; auto).
  assert (Htf : in_table (flush_current st1) = false).
  { unfold flush_current. now destruct (nonempty _). }
  destruct (span is_blank rest) as [blanks rest1].
  destruct (span is_lead_in rest1) as [lead_in rest2].
  destruct (collect_list rest) as [items rest3].
  break_tests; simpl; congruence.
Qed.

Lemma table_run_ok_step (line : string) (rest : list string)
  (st : ParseState) :
  table_run_ok st ->
  (in_table st = true -> is_fence line = false) ->
  table_run_ok (fst (parse_step line rest st)).
Proof.
  intros Hok Hhead. unfold parse_step.
  destruct (is_fence line) eqn:Hfence.
  { assert (Ht : in_table st = false).
    { destruct (in_table st); [|reflexivity].
      specialize (Hhead eq_refl). discriminate. }
    destruct (in_code_block st); cbn [fst].
    - destruct Hok as (Hb & _ & _).
      apply table_run_ok_intro; simpl; [|assumption|discriminate].
      now apply blocks_snoc_ok.
    - destruct (table_run_ok_flush st Hok Ht) as ((Hb' & _ & _) & Ht').
      apply table_run_ok_intro; simpl; [assumption|assumption|discriminate]. }
  destruct (in_code_block st) eqn:Hcode; cbn [fst].
  { assert (Ht : in_table st = false).
    { destruct (in_table st) eqn:E; [|reflexivity].
      destruct Hok as (_ & Hrun & _).
      destruct (Hrun E) as [E' _]. congruence. }
    pose proof (table_run_ok_type st Hok Ht) as Hne.
    destruct Hok as (Hb & _ & _).
    now apply table_run_ok_intro. }
  destruct (is_table_line line) eqn:Htable; cbn [fst].
  { destruct (in_table st) eqn:Ht; cbn [negb].
    - destruct Hok as (Hb & Hrun & Hty).
      destruct (Hrun Ht) as (_ & Hne & Hrows).
      split; [exact Hb | split].
      + intros _. simpl. split; [assumption | split].
        * destruct (current_block st); discriminate.
        * apply Forall_app; split; [assumption | now constructor].
      + intros _. exact Ht.
    - destruct (table_run_ok_flush st Hok Ht) as ((Hb' & _ & _) & _).
      split; [exact Hb' | split].
      + intros _. simpl.
        rewrite flush_current_block, flush_in_code_block.
        split; [assumption | split; [discriminate | now constructor]].
      + reflexivity. }
  destruct (table_run_ok_close st Hok) as [Hok1 Ht1].
  set (st1 := if in_table st then close_table st else st) in *.
  destruct (table_run_ok_flush st1 Hok1 Ht1) as (Hokf & Htf).
  destruct (span is_blank rest) as [blanks rest1].
  destruct (span is_lead_in rest1) as [lead_in rest2].
  destruct (collect_list rest) as [items rest3].
  destruct (is_hr line); cbn [fst].
  { apply table_run_ok_emit; [assumption | assumption | discriminate]. }
  destruct (is_heading line); cbn [fst].
  { apply table_run_ok_emit; [assumption | assumption |].
    destruct (re_step line); discriminate. }
  destruct (is_list_item line); cbn [fst].
  { apply table_run_ok_emit; [assumption | assumption | discriminate]. }
  assert (Happ : table_run_ok (append_line st1 line)).
  { pose proof (table_run_ok_type st1 Hok1 Ht1) as Hne.
    destruct Hok1 as (Hb1 & _ & _).
    now apply table_run_ok_intro. }
  destruct (is_blank line); [destruct (nonempty (current_block st1))|];
    exact Happ.
Qed.

(** A text in which no table-looking line is directly followed by a fence
    line gets no empty [table] block. *)
Lemma no_empty_table_block (text : string) :
  no_fence_after_table (split_nl text) ->
  Forall (fun b => empty_table b = false) (parse_content_blocks text).
Proof.
  intros Hadj.
  destruct (parse_content_blocks_run text) as (st & Hrun & ->).
  assert (Hinv : table_run_ok st).
  { refine (proj1 (parse_loop_invariant
             (fun st rest =>
                table_run_ok st
                /\ (in_table st = true ->
                    forall l tl, rest = l :: tl -> is_fence l = false)
                /\ no_fence_after_table rest)
             _ _ _ _ _ Hrun _)).
    - intros line rest st0 (Hok & Hhead & Hrest).
      assert (Hline : in_table st0 = true -> is_fence line = false)
        by (intros Ht; exact (Hhead Ht line rest eq_refl)).
      destruct (parse_step_suffix line rest st0) as [taken Htaken].
      split; [now apply table_run_ok_step | split].
      + intros Ht l tl Hl.
        destruct (parse_step_opens_table line rest st0 Hok Hline Ht)
          as [Htab Hsame].
        rewrite Hsame in Hl. subst rest.
        destruct Hrest as [Hpair _]. exact (Hpair Htab).
      + apply (no_fence_after_table_suffix taken). rewrite <- Htaken.
        exact (no_fence_after_table_tail line rest Hrest).
    - split; [|split; [discriminate | exact Hadj]].
      apply table_run_ok_intro; [constructor | reflexivity | discriminate]. }
  destruct Hinv as (Hb & _ & _). unfold parse_finish.
  destruct (nonempty (current_block st)); [|assumption].
  destruct (truthy (strip (join_nl (current_block st)))) eqn:Htr;
    [|assumption].
  apply blocks_snoc_ok; [assumption|].
  unfold empty_table. simpl.
  destruct (join_nl (current_block st)); [discriminate Htr|].
  now destruct (if negb (in_code_block st) then current_type st else bt_code).
Qed.

(** On such a text the segmentation is lossless up to the discarded
    tail. *)
Lemma lossless_without_fence_after_table (text : string) :
  no_fence_after_table (split_nl text) ->
  exists tail,
    join_nl (map content (parse_content_blocks text) ++ tail) = text
    /\ (tail = [] \/ exists t, tail = [t] /\ strip t = ""%string).
Proof.
  intros H. pose proof (no_empty_table_block text H) as Hne.
  destruct (parse_content_blocks_run text) as (st & Hrun & E).
  rewrite E in *.
  apply parse_finish_lossless; [now apply parse_loop_covers | exact Hne].
Qed.

(* ================================================================== *)
(** ** Binary64 rounding around the shrink floor *)
(* ================================================================== *)

Import FitBounds.

Lemma c720 : Prim2SF 720%float = SF720.
Proof. vm_compute. reflexivity. Qed.

Lemma c900 : Prim2SF 900%float = SF900.
Proof. vm_compute. reflexivity. Qed.

Lemma c08 : Prim2SF 0x1.999999999999ap-1%float = SFfloor.
Proof. vm_compute. reflexivity. Qed.

(** *** Bits of a mantissa *)

Lemma pow2_double (k : Z) : 0 <= k -> 2 ^ (k + 1) = 2 * 2 ^ k.
Proof. intros. rewrite Z.pow_add_r by lia. lia. Qed.

Lemma digits2_pos_bounds (p : positive) :
  2 ^ (Z.pos (digits2_pos p) - 1) <= Z.pos p < 2 ^ Z.pos (digits2_pos p).
Proof.
  induction p as [p IH|p IH|]; cbn [digits2_pos]; [| |simpl; lia];
    rewrite Pos2Z.inj_succ;
    pose proof (Pos2Z.is_pos (digits2_pos p)) as Hk;
    generalize dependent (Z.pos (digits2_pos p)); intros k IH Hk;
    replace (Z.succ k - 1) with ((k - 1) + 1) by lia;
    replace (Z.succ k) with ((k - 1) + 1 + 1) by lia;
    replace k with ((k - 1) + 1) in IH at 2 by lia;
    rewrite !pow2_double in * by lia.
  - lia.
  - lia.
Qed.

Lemma digits2_pos_unique (p : positive) (d : Z) :
  0 < d -> 2 ^ (d - 1) <= Z.pos p < 2 ^ d -> Z.pos (digits2_pos p) = d.
Proof.
  intros Hd [Hlo Hhi]. pose proof (digits2_pos_bounds p) as [Blo Bhi].
  set (k := Z.pos (digits2_pos p)) in *.
  assert (0 < k) by (subst k; lia).
  destruct (Z.lt_trichotomy k d) as [Hlt|[Heq|Hgt]]; [|assumption|].
  - assert (2 ^ k <= 2 ^ (d - 1)) by (apply Z.pow_le_mono_r; lia). lia.
  - assert (2 ^ d <= 2 ^ (k - 1)) by (apply Z.pow_le_mono_r; lia). lia.
Qed.

Lemma Zdigits2_eq (q d : Z) :
  0 < d -> 2 ^ (d - 1) <= q < 2 ^ d -> Zdigits2 q = d.
Proof.
  intros Hd Hq. destruct q as [|p|p].
  - assert (0 < 2 ^ (d - 1)) by (apply Z.pow_pos_nonneg; lia). lia.
  - simpl. now apply digits2_pos_unique.
  - assert (0 < 2 ^ (d - 1)) by (apply Z.pow_pos_nonneg; lia). lia.
Qed.

(** *** Rounding a quotient to 53 bits *)

Lemma rne_bounds (q : Z) (loc : location) :
  q <= round_nearest_even q loc <= q + 1.
Proof.
  destruct loc as [|[]]; simpl; try lia. destruct (Z.even q); lia.
Qed.

Lemma loc_of_record_of_loc (q : Z) (loc : location) :
  loc_of_shr_record (shr_record_of_loc q loc) = loc
  /\ shr_m (shr_record_of_loc q loc) = q.
Proof. destruct loc as [|[]]; split; reflexivity. Qed.

(** The second stage of [binary_round_aux] on a mantissa of 53 bits, or
    54 bits after a carry. *)
Lemma round_finish (q e : Z) :
  2 ^ 52 <= q <= 2 ^ 53 -> -1074 <= e <= 970 ->
  (let '(mrs, e') := shr_fexp prec emax q e loc_Exact in
   match shr_m mrs with
   | Z0 => S754_zero false
   | Zpos m => if e' <=? emax - prec then S754_finite false m e'
               else S754_infinity false
   | Zneg _ => S754_nan
   end)
  = if q <? 2 ^ 53 then S754_finite false (Z.to_pos q) e
    else S754_finite false (Z.to_pos (2 ^ 52)) (e + 1).
Proof.
  intros Hq He. unfold shr_fexp.
  destruct (Z.ltb_spec q (2 ^ 53)) as [Hlt|Hge].
  - rewrite (Zdigits2_eq q 53) by lia.
    replace (fexp prec emax (53 + e) - e) with 0
      by (unfold fexp, SpecFloat.emin, prec, emax; lia).
    cbn [shr shr_record_of_loc shr_m].
    destruct q as [|p|p]; try lia. cbn [Z.to_pos].
    destruct (Z.leb_spec e (emax - prec)) as [_|H]; [reflexivity|].
    unfold prec, emax in H. lia.
  - assert (q = 2 ^ 53) by lia. subst q.
    change (Zdigits2 (2 ^ 53)) with 54.
    replace (fexp prec emax (54 + e) - e) with 1
      by (unfold fexp, SpecFloat.emin, prec, emax; lia).
    cbn.
    destruct (Z.leb_spec (e + 1) 971) as [_|H]; [reflexivity | lia].
Qed.

Lemma round_53 (q e : Z) (loc : location) :
  2 ^ 52 <= q < 2 ^ 53 -> -1074 <= e <= 970 ->
  binary_round_aux prec emax false q e loc
  = if round_nearest_even q loc <? 2 ^ 53
    then S754_finite false (Z.to_pos (round_nearest_even q loc)) e
    else S754_finite false (Z.to_pos (2 ^ 52)) (e + 1).
Proof.
  intros Hq He. unfold binary_round_aux, shr_fexp at 1.
  rewrite (Zdigits2_eq q 53) by lia.
  replace (fexp prec emax (53 + e) - e) with 0
    by (unfold fexp, SpecFloat.emin, prec, emax; lia).
  cbn [shr].
  destruct (loc_of_record_of_loc q loc) as [-> ->].
  pose proof (rne_bounds q loc).
  apply round_finish; lia.
Qed.

Lemma shr_1_spec (p : positive) (r s : bool) :
  shr_m (shr_1 {| shr_m := Z.pos p; shr_r := r; shr_s := s |})
  = Z.pos p / 2.
Proof.
  destruct p as [p|p|]; cbn [shr_1 shr_m].
  - apply Z.div_unique with 1; lia.
  - apply Z.div_unique with 0; lia.
  - reflexivity.
Qed.

(** A quotient of 54 bits loses one bit before it is rounded. *)
Lemma round_54 (q e : Z) (loc : location) :
  2 ^ 53 <= q < 2 ^ 54 -> -1075 <= e <= 969 ->
  exists mant e',
    binary_round_aux prec emax false q e loc = S754_finite false mant e'
    /\ ((e' = e + 1 /\ Z.pos mant <= q / 2 + 1)
        \/ (e' = e + 2 /\ 2 ^ 53 <= q / 2 + 1)).
Proof.
  intros Hq He. unfold binary_round_aux, shr_fexp at 1.
  rewrite (Zdigits2_eq q 54) by lia.
  replace (fexp prec emax (54 + e) - e) with 1
    by (unfold fexp, SpecFloat.emin, prec, emax; lia).
  cbn [shr iter_pos].
  destruct q as [|p|p]; try lia.
  assert (Hhalf : 2 ^ 52 <= Z.pos p / 2 < 2 ^ 53).
  { split; [apply Z.div_le_lower_bound | apply Z.div_lt_upper_bound]; lia. }
  set (rec1 := shr_1 (shr_record_of_loc (Z.pos p) loc)).
  assert (Hm : shr_m rec1 = Z.pos p / 2).
  { subst rec1. destruct loc as [|[]]; apply shr_1_spec. }
  rewrite Hm.
  pose proof (rne_bounds (Z.pos p / 2) (loc_of_shr_record rec1)) as Hr.
  rewrite round_finish by lia.
  destruct (Z.ltb_spec (round_nearest_even (Z.pos p / 2)
                          (loc_of_shr_record rec1)) (2 ^ 53)).
  - eexists _, _. split; [reflexivity|]. left. split; [reflexivity|].
    rewrite Z2Pos.id by lia. lia.
  - eexists _, _. split; [reflexivity|]. right. split; lia.
Qed.

(** *** The quotient [720 / x] against the floor [0.8] *)

Lemma valid_digits (m : positive) (e : Z) :
  valid_binary (S754_finite false m e) = true -> -43 <= e ->
  2 ^ 52 <= Z.pos m < 2 ^ 53 /\ e <= 971.
Proof.
  unfold valid_binary, SpecFloat.valid_binary, bounded, canonical_mantissa.
  intros H He. apply andb_prop in H. destruct H as [H1 H2].
  apply Z.eqb_eq in H1. apply Z.leb_le in H2.
  unfold fexp, SpecFloat.emin, prec, emax in *.
  pose proof (digits2_pos_bounds m) as Hb.
  replace (Z.pos (digits2_pos m)) with 53 in Hb by lia.
  split; [exact Hb | lia].
Qed.

(** The quotient [720 / x], before rounding. *)
Lemma div_720_core (m : positive) (e : Z) :
  2 ^ 52 <= Z.pos m < 2 ^ 53 -> -43 <= e <= 971 ->
  SFdiv prec emax SF720 (S754_finite false m e)
  = binary_round_aux prec emax false (N720 / Z.pos m) (-96 - e)
      (new_location (Z.pos m) (N720 mod Z.pos m)).
Proof.
  intros Hm He. unfold SF720, SFdiv, SFdiv_core_binary.
  change (Zdigits2 (Z.pos M720)) with 53.
  rewrite (Zdigits2_eq (Z.pos m) 53) by lia.
  replace (Z.min (fexp prec emax (53 + -43 - (53 + e))) (-43 - e))
    with (-96 - e)
    by (unfold fexp, SpecFloat.emin, prec, emax; lia).
  replace (-43 - e - (-96 - e)) with 53 by lia.
  change (Z.shiftl (Z.pos M720) 53) with N720.
  unfold Z.div, Z.modulo.
  destruct (Z.div_eucl N720 (Z.pos m)) as [q r]. reflexivity.
Qed.

Lemma leb_floor_finite (mant : positive) (e : Z) :
  SFleb SFfloor (S754_finite false mant e)
  = match -53 ?= e with
    | Lt => true
    | Gt => false
    | Eq => (Z.pos Mfloor <=? Z.pos mant)
    end.
Proof.
  unfold SFleb, SFfloor, SFcompare.
  destruct (-53 ?= e); reflexivity.
Qed.

Lemma leb_finite_same_exp (m M : positive) (e : Z) :
  SFleb (S754_finite false m e) (S754_finite false M e)
  = (Z.pos m <=? Z.pos M).
Proof.
  unfold SFleb, SFcompare. rewrite Z.compare_refl. reflexivity.
Qed.

Lemma new_location_up (m r : Z) :
  0 < m -> 0 <= r -> m < 2 * r -> new_location m r = loc_Inexact Gt.
Proof.
  intros Hm Hr H. unfold new_location, new_location_even, new_location_odd.
  assert (E : (r =? 0) = false) by (apply Z.eqb_neq; lia).
  destruct (Z.even m).
  - rewrite (proj2 (Z.compare_gt_iff (2 * r) m)) by lia.
    exact (f_equal (fun b : bool => if b then _ else _) E).
  - rewrite (proj2 (Z.compare_gt_iff (2 * r + 1) m)) by lia.
    exact (f_equal (fun b : bool => if b then _ else _) E).
Qed.

Lemma quot_ge (N m q r k : Z) :
  N = m * q + r -> 0 <= r < m -> m * k <= N -> k <= q.
Proof. intros. nia. Qed.

Lemma quot_lt (N m q r k : Z) :
  N = m * q + r -> 0 <= r < m -> N < m * k -> q < k.
Proof. intros. nia. Qed.

(** In the binade of 720 and 900, above 720: the rounded quotient reaches
    the floor exactly up to 900. *)
Lemma div_720_binade (m : positive) :
  Z.pos M720 < Z.pos m < 2 ^ 53 ->
  SFleb SFfloor (SFdiv prec emax SF720 (S754_finite false m (-43)))
  = (Z.pos m <=? Z.pos M900).
Proof.
  intros Hm.
  assert (Hm' : 2 ^ 52 <= Z.pos m < 2 ^ 53) by (unfold M720 in Hm; lia).
  rewrite div_720_core by lia.
  change (-96 - -43) with (-53).
  pose proof (Z_div_mod N720 (Z.pos m) eq_refl) as Hdiv.
  unfold Z.div, Z.modulo.
  destruct (Z.div_eucl N720 (Z.pos m)) as [q r].
  destruct Hdiv as [Hq Hr].
  assert (Hlo : 2 ^ 52 <= q).
  { apply (quot_ge N720 (Z.pos m) q r); try assumption.
    unfold N720, M720 in *. lia. }
  assert (Hhi : q < 2 ^ 53 - 1).
  { apply (quot_lt N720 (Z.pos m) q r); try assumption.
    unfold N720, M720 in *. lia. }
  pose proof (rne_bounds q (new_location (Z.pos m) r)) as Hrne.
  rewrite round_53 by lia.
  destruct (Z.ltb_spec (round_nearest_even q (new_location (Z.pos m) r))
              (2 ^ 53)) as [_|H]; [|lia].
  rewrite leb_floor_finite. cbn [Z.compare].
  rewrite Z2Pos.id by lia.
  destruct (Z.leb_spec (Z.pos m) (Z.pos M900)) as [Hle|Hgt].
  - apply Z.leb_le.
    assert (Hq1 : Z.pos Mfloor - 1 <= q).
    { apply (quot_ge N720 (Z.pos m) q r); try assumption.
      unfold N720, M720, M900, Mfloor in *. lia. }
    destruct (Z.eq_dec q (Z.pos Mfloor - 1)) as [Heq|Hne]; [|lia].
    rewrite new_location_up; [simpl; lia | lia | lia |].
    subst q. unfold N720, M720, M900, Mfloor in *. lia.
  - apply Z.leb_gt.
    assert (Hq2 : q < Z.pos Mfloor - 1).
    { apply (quot_lt N720 (Z.pos m) q r); try assumption.
      unfold N720, M720, M900, Mfloor in *. lia. }
    lia.
Qed.

(** Above that binade the rounded quotient is below the floor. *)
Lemma div_720_above (m : positive) (e : Z) :
  2 ^ 52 <= Z.pos m < 2 ^ 53 -> -43 < e <= 971 ->
  SFleb SFfloor (SFdiv prec emax SF720 (S754_finite false m e)) = false.
Proof.
  intros Hm He. rewrite div_720_core by lia.
  pose proof (Z_div_mod N720 (Z.pos m) eq_refl) as Hdiv.
  unfold Z.div, Z.modulo.
  destruct (Z.div_eucl N720 (Z.pos m)) as [q r].
  destruct Hdiv as [Hq Hr].
  assert (Hlo : 2 ^ 52 <= q).
  { apply (quot_ge N720 (Z.pos m) q r); try assumption.
    unfold N720, M720 in *. lia. }
  assert (Hhi : q < 2 * Z.pos M720 + 1).
  { apply (quot_lt N720 (Z.pos m) q r); try assumption.
    unfold N720, M720 in *. lia. }
  destruct (Z.lt_ge_cases q (2 ^ 53)) as [Hsmall|Hbig].
  - pose proof (rne_bounds q (new_location (Z.pos m) r)) as Hrne.
    rewrite round_53 by lia.
    destruct (Z.ltb_spec (round_nearest_even q (new_location (Z.pos m) r))
                (2 ^ 53)) as [_|_];
      rewrite leb_floor_finite.
    + now rewrite (proj2 (Z.compare_gt_iff (-53) (-96 - e))) by lia.
    + destruct (Z.compare_spec (-53) (-96 - e + 1)) as [_|H|_];
        [reflexivity | lia | reflexivity].
  - assert (Hhalf : q / 2 <= Z.pos M720)
      by (apply Z.div_le_upper_bound; lia).
    unfold M720 in Hhi, Hhalf.
    destruct (round_54 q (-96 - e) (new_location (Z.pos m) r))
      as (mant & e' & -> & [[-> Hmant]|[_ Hcarry]]); [lia | lia | |lia].
    rewrite leb_floor_finite.
    destruct (Z.compare_spec (-53) (-96 - e + 1)) as [_|H'|_];
      [|lia|reflexivity].
    apply Z.leb_gt. unfold Mfloor. lia.
Qed.

Lemma leb_finite_exp (m M : positive) (e E : Z) :
  e <> E ->
  SFleb (S754_finite false m e) (S754_finite false M E) = (e <? E).
Proof.
  intros Hne. unfold SFleb, SFcompare, Z.ltb.
  destruct (Z.compare_spec e E); [contradiction | reflexivity | reflexivity].
Qed.

(** The fit test on a valid binary64 value: at most 720, or at least the
    floor once 720 is divided by it, is the same as at most 900. *)
Lemma SF_fit_threshold (x : spec_float) :
  valid_binary x = true ->
  SFleb x SF720 || SFleb SFfloor (SFdiv prec emax SF720 x) = SFleb x SF900.
Proof.
  intros Hv. destruct x as [s|s| |s m e]; try (destruct s; reflexivity).
  - reflexivity.
  - destruct s; [reflexivity|].
    unfold SF720 at 1, SF900.
    destruct (Z.lt_trichotomy e (-43)) as [Hlt|[->|Hgt]].
    + rewrite !leb_finite_exp by lia.
      now rewrite (proj2 (Z.ltb_lt e (-43))).
    + destruct (valid_digits m (-43) Hv ltac:(lia)) as [Hm _].
      rewrite !leb_finite_same_exp.
      destruct (Z.leb_spec (Z.pos m) (Z.pos M720)) as [Hle|Hnle].
      * symmetry. apply Z.leb_le. unfold M720, M900 in *. lia.
      * rewrite div_720_binade by lia. reflexivity.
    + destruct (valid_digits m e Hv ltac:(lia)) as [Hm He].
      rewrite !leb_finite_exp by lia.
      rewrite div_720_above by lia.
      now rewrite (proj2 (Z.ltb_ge e (-43))) by lia.
Qed.

Lemma fit_threshold (s : float) :
  ((s <=? 720) || (0x1.999999999999ap-1 <=? 720 / s) = (s <=? 900))%float.
Proof.
  rewrite !leb_spec, div_spec, c720, c900, c08.
  apply SF_fit_threshold, Prim2SF_valid.
Qed.

(* ================================================================== *)
(** ** Properties of the image fitter *)
(* ================================================================== *)

Import PyFloat ImagesToPdf.

(** *** [float(n)] of a positive [int] below 2^53 *)

Lemma iter_xO_pow (p k : positive) :
  Z.pos (Pos.iter xO p k) = Z.pos p * 2 ^ Z.pos k.
Proof.
  induction k as [|k IH] using Pos.peano_ind.
  - simpl. lia.
  - rewrite Pos.iter_succ, Pos2Z.inj_xO, IH, Pos2Z.inj_succ.
    rewrite Z.pow_succ_r by lia. lia.
Qed.

Lemma of_int_spec (n : positive) :
  Z.pos n < 2 ^ 53 ->
  exists m e,
    Prim2SF (of_int (Z.pos n)) = S754_finite false m e.
Proof.
  intros Hn. unfold of_int.
  pose proof (digits2_pos_bounds n) as Hd.
  set (d := Z.pos (digits2_pos n)) in *.
  assert (Hd53 : 0 < d <= 53).
  { split; [subst d; lia|].
    destruct (Z.le_gt_cases d 53) as [H|H]; [assumption|].
    assert (2 ^ 53 <= 2 ^ (d - 1)) by (apply Z.pow_le_mono_r; lia). lia. }
  assert (Hnorm : exists mz ez,
             binary_normalize prec emax (Z.pos n) 0 false
             = S754_finite false mz ez
             /\ 2 ^ 52 <= Z.pos mz < 2 ^ 53 /\ -52 <= ez <= 0).
  { cbn [binary_normalize]. unfold binary_round.
    replace (fexp prec emax (Z.pos (digits2_pos n) + 0)) with (d - 53)
      by (unfold fexp, SpecFloat.emin, prec, emax; subst d; lia).
    unfold shl_align.
    destruct (d - 53 - 0) as [|k|k] eqn:Hk; try lia.
    - assert (d = 53) by lia.
      replace (d - 1) with 52 in Hd by lia. replace d with 53 in Hd by lia.
      rewrite round_53 by lia. cbn [round_nearest_even].
      destruct (Z.ltb_spec (Z.pos n) (2 ^ 53)); [|lia].
      exists n, 0. repeat split; lia.
    - assert (Hm : 2 ^ 52 <= Z.pos (Pos.iter xO n k) < 2 ^ 53).
      { rewrite iter_xO_pow.
        assert (E1 : 2 ^ 52 = 2 ^ (d - 1) * 2 ^ Z.pos k)
          by (rewrite <- Z.pow_add_r by lia; f_equal; lia).
        assert (E2 : 2 ^ 53 = 2 ^ d * 2 ^ Z.pos k)
          by (rewrite <- Z.pow_add_r by lia; f_equal; lia).
        assert (0 < 2 ^ Z.pos k) by (apply Z.pow_pos_nonneg; lia).
        rewrite E1, E2. nia. }
      rewrite round_53 by lia. cbn [round_nearest_even].
      destruct (Z.ltb_spec (Z.pos (Pos.iter xO n k)) (2 ^ 53)); [|lia].
      eexists _, _. split; [reflexivity|]. cbn [Z.to_pos]. lia. }
  destruct Hnorm as (mz & ez & -> & Hmz & Hez).
  exists mz, ez. apply Prim2SF_SF2Prim.
  unfold valid_binary, SpecFloat.valid_binary, bounded, canonical_mantissa.
  replace (Z.pos (digits2_pos mz)) with 53
    by (symmetry; apply digits2_pos_unique; lia).
  apply andb_true_intro. split.
  - apply Z.eqb_eq. unfold fexp, SpecFloat.emin, prec, emax. lia.
  - apply Z.leb_le. unfold prec, emax. lia.
Qed.

Lemma of_int_nonzero (n : Z) :
  0 < n < 2 ^ 53 -> (of_int n =? 0)%float = false.
Proof.
  intros Hn. destruct n as [|p|p]; try lia.
  destruct (of_int_spec p ltac:(lia)) as (m & e & H).
  rewrite eqb_spec, H. reflexivity.
Qed.

Lemma usable_width_value : USABLE_WIDTH = 540%float.
Proof. vm_compute. reflexivity. Qed.

Lemma usable_height_value : USABLE_HEIGHT = 720%float.
Proof. vm_compute. reflexivity. Qed.

(** [pageH / 0.8] is [900.0]. *)
Lemma shrink_limit_value :
  (USABLE_HEIGHT / default_shrink_factor = 900)%float.
Proof. vm_compute. reflexivity. Qed.

(** A height above the page height is not zero, so [required_scale] is
    computed without [ZeroDivisionError]. *)
Lemma above_page_nonzero (s : float) :
  (s <=? 720)%float = false -> (s =? 0)%float = false.
Proof.
  rewrite leb_spec, eqb_spec, c720.
  change (Prim2SF 0%float) with (S754_zero false).
  destruct (Prim2SF s) as [b|b| |b m e]; try destruct b;
    try reflexivity; discriminate.
Qed.

Lemma can_fit_by_height (img_width img_height : Z) (s : float) :
  width_fit_height img_width img_height = Some s ->
  exists w h,
    can_fit_with_shrink img_width img_height default_shrink_factor
    = Some ((s <=? 900)%float, w, h).
Proof.
  unfold width_fit_height, can_fit_with_shrink.
  destruct (calculate_scaled_dimensions img_width img_height USABLE_WIDTH None)
    as [[scaled_width scaled_height]|]; [|discriminate].
  cbn [bind snd]. intros [= ->].
  rewrite usable_height_value.
  pose proof (fit_threshold s) as Hfit.
  destruct (s <=? 720)%float eqn:Hpage.
  - simpl in Hfit. rewrite <- Hfit. now eexists _, _.
  - unfold truediv. rewrite (above_page_nonzero s Hpage). cbn [bind].
    simpl in Hfit. unfold default_shrink_factor. rewrite <- Hfit.
    destruct (0x1.999999999999ap-1 <=? 720 / s)%float; now eexists _, _.
Qed.

Lemma width_fit_height_defined (img_width img_height : Z) :
  0 < img_width < 2 ^ 53 ->
  width_fit_height img_width img_height
  = Some (of_int img_height * (USABLE_WIDTH / of_int img_width))%float.
Proof.
  intros Hw. unfold width_fit_height, calculate_scaled_dimensions, truediv.
  now rewrite (of_int_nonzero img_width Hw).
Qed.

(** What [can_fit_with_shrink] decides by, for every image whose sides
    are positive and below 2^53 (where [float] is exact): the binary64
    product [float(H) * (540.0 / float(W))] against [pageH / 0.8], which is
    [900.0].  The quotient is rounded before it is multiplied by the
    height. *)
Lemma fit_decided_by_rounded_height (img_width img_height : Z) :
  0 < img_width < 2 ^ 53 ->
  0 < img_height < 2 ^ 53 ->
  exists w h,
    can_fit_with_shrink img_width img_height default_shrink_factor
    = Some ((of_int img_height * (USABLE_WIDTH / of_int img_width)
             <=? USABLE_HEIGHT / default_shrink_factor)%float, w, h).
Proof.
  intros Hw _.
  pose proof (width_fit_height_defined img_width img_height Hw) as Hs.
  destruct (can_fit_by_height _ _ _ Hs) as (w & h & Hfit).
  rewrite shrink_limit_value. now exists w, h.
Qed.

(** C6: a 105 x 175 image has the width-fit height 175 * (540 / 105) =
    900 = [pageH / 0.8] exactly, so it is to be classified as fitting, with
    the shrink exactly at the floor.  [can_fit_with_shrink] classifies it as
    not fitting, and [create_pdf] splits it: 540 / 105 is rounded before it
    is multiplied by 175, and the product is the next binary64 value above
    900. *)
Theorem floor_image_is_split :
  QArith_base.Qeq (FitSpec.spec_scaled_height 105 175)
                  FitSpec.spec_shrink_limit
  /\ FitSpec.spec_fits 105 175 = true
  /\ width_fit_height 105 175 = Some 0x1.c200000000001p+9%float
  /\ can_fit_with_shrink 105 175 default_shrink_factor
     = Some (false, 540%float, 0x1.c200000000001p+9%float)
  /\ create_pdf_image 10 105 175
     = Some (Split 2
         [ {| crop_top := 0; crop_bottom := 140;
              actual_height := 720%float; indicator := Some (1, 2) |};
           {| crop_top := 140; crop_bottom := 175;
              actual_height := 180%float; indicator := Some (2, 2) |} ]).
Proof. repeat split; vm_compute; reflexivity. Qed.

(** The two boundary images of the specification, evaluated. *)
Lemma shrink_floor_boundary :
  width_fit_height 540 900 = Some 900%float
  /\ can_fit_with_shrink 540 900 default_shrink_factor
     = Some (true, 432%float, 720%float)
  /\ width_fit_height 540 901 = Some 901%float
  /\ can_fit_with_shrink 540 901 default_shrink_factor
     = Some (false, 540%float, 901%float).
Proof. repeat split; vm_compute; reflexivity. Qed.

(* ================================================================== *)
(** ** The slice croppers at two images *)
(* ================================================================== *)

(** C7: for a 1080 x 2881 image (scaled height 1440.5, three pages
    needed) [create_pdf] draws three slices and captions them "(1/2)",
    "(2/2)", "(3/2)", and [add_split_image] makes two slices only. *)
Theorem slice_count_and_total_disagree :
  width_fit_height 1080 2881 = Some 1440.5%float
  /\ exact_ceil_div 1440.5%float USABLE_HEIGHT = Some 3
  /\ create_pdf_image 10 1080 2881
     = Some (Split 2
         [ {| crop_top := 0; crop_bottom := 1440;
              actual_height := 720%float; indicator := Some (1, 2) |};
           {| crop_top := 1440; crop_bottom := 2880;
              actual_height := 720%float; indicator := Some (2, 2) |};
           {| crop_top := 2880; crop_bottom := 2881;
              actual_height := 0.5%float; indicator := Some (3, 2) |} ])
  /\ JournalToPdf.create_pdf_screenshot 1080 2881
     = Some (JournalToPdf.MultiPage
         [ {| JournalToPdf.crop_y_start := 0;
              JournalToPdf.crop_y_end := 1440;
              JournalToPdf.slice_height := 720%float;
              JournalToPdf.caption := (1, 2) |};
           {| JournalToPdf.crop_y_start := 1440;
              JournalToPdf.crop_y_end := 2880;
              JournalToPdf.slice_height := 720%float;
              JournalToPdf.caption := (2, 2) |} ]).
Proof. repeat split; vm_compute; reflexivity. Qed.

(** C5: the last slice stops short of the image height.  [add_split_image]
    ends a 1080 x 2881 image at row 2880, and the crop loop of [create_pdf]
    ends a 100 x 230 image at row 229 (its last boundary is the float
    229.99999999999997, which [int] truncates). *)
Theorem last_slice_stops_short :
  (exists slices last,
      JournalToPdf.create_pdf_screenshot 1080 2881
      = Some (JournalToPdf.MultiPage (slices ++ [last]))
      /\ JournalToPdf.crop_y_end last = 2880)
  /\ (exists total slices last,
         create_pdf_image 10 100 230 = Some (Split total (slices ++ [last]))
         /\ crop_bottom last = 229).
Proof.
  split.
  - eexists [_], _. split; [vm_compute; reflexivity | reflexivity].
  - eexists _, [_], _. split; [vm_compute; reflexivity | reflexivity].
Qed.

(** The slices of the two images in full. *)
Lemma slices_of_the_two_images :
  JournalToPdf.add_split_image 1080 2881
    JournalToPdf.USABLE_WIDTH JournalToPdf.USABLE_HEIGHT
  = Some [ {| JournalToPdf.crop_y_start := 0;
              JournalToPdf.crop_y_end := 1440;
              JournalToPdf.slice_height := 720%float;
              JournalToPdf.caption := (1, 2) |};
           {| JournalToPdf.crop_y_start := 1440;
              JournalToPdf.crop_y_end := 2880;
              JournalToPdf.slice_height := 720%float;
              JournalToPdf.caption := (2, 2) |} ]
  /\ create_pdf_split 10 100 230
     = Some (2,
         [ {| crop_top := 0; crop_bottom := 133;
              actual_height := 720%float; indicator := Some (1, 2) |};
           {| crop_top := 133; crop_bottom := 229;
              actual_height := 522%float; indicator := Some (2, 2) |} ]).
Proof. split; vm_compute; reflexivity. Qed.

(* ================================================================== *)
(** ** The page packer: how many pages, and how full *)
(* ================================================================== *)

Lemma page_groups_concat (blocks : list ContentBlock) :
  List.concat (page_groups blocks) = blocks.
Proof.
  unfold page_groups, pack.
  pose proof (pack_loop_concat blocks pack_init) as H. simpl in H.
  unfold pack_finish.
  destruct (current_page (pack_loop (fun page => page) blocks pack_init))
    as [|b p] eqn:Hp; simpl.
  - now rewrite app_nil_r in H.
  - rewrite List.concat_app. simpl. now rewrite app_nil_r.
Qed.

(** A page is closed only when it holds a block. *)
Lemma pack_loop_nonempty (blocks : list ContentBlock)
  (st : PackState (list ContentBlock)) :
  Forall (fun g => g <> []) (pages st) ->
  Forall (fun g => g <> [])
         (pages (pack_loop (fun page => page) blocks st)).
Proof.
  revert st. induction blocks as [|b blocks IH]; intros st H; [exact H|].
  simpl. apply IH. unfold pack_step.
  destruct (should_break (current_chars st) b); simpl; [|exact H].
  destruct (current_page st) as [|x p] eqn:E; simpl; [exact H|].
  apply Forall_app; split; [exact H|].
  constructor; [discriminate | constructor].
Qed.

Lemma page_groups_nonempty (blocks : list ContentBlock) :
  Forall (fun g => g <> []) (page_groups blocks).
Proof.
  unfold page_groups, pack, pack_finish.
  pose proof (pack_loop_nonempty blocks pack_init (Forall_nil _)) as H.
  destruct (current_page (pack_loop (fun page => page) blocks pack_init))
    as [|x p] eqn:E; simpl; [exact H|].
  apply Forall_app; split; [exact H|].
  constructor; [discriminate | constructor].
Qed.

Lemma concat_length_nonempty {A : Type} (gs : list (list A)) :
  Forall (fun g => g <> []) gs ->
  (List.length gs <= List.length (List.concat gs))%nat.
Proof.
  induction 1 as [|g gs Hg _ IH]; simpl; [lia|].
  rewrite length_app. destruct g; [congruence | simpl; lia].
Qed.

(** X1: no page is empty: every page holds at least one block, so there
    are no more pages than blocks, and at least one page as soon as there
    is a block. *)
Theorem every_page_holds_a_block (blocks : list ContentBlock)
  (source_file : string) :
  Forall (fun g => g <> []) (page_groups blocks)
  /\ (List.length (split_into_pages blocks source_file)
      <= List.length blocks)%nat
  /\ (blocks <> [] -> split_into_pages blocks source_file <> []).
Proof.
  pose proof (page_groups_nonempty blocks) as Hne.
  pose proof (page_groups_concat blocks) as Hcat.
  rewrite split_into_pages_groups.
  split; [exact Hne | split].
  - rewrite length_map. rewrite <- Hcat at 2.
    now apply concat_length_nonempty.
  - intros Hb Hnil. apply Hb. rewrite <- Hcat.
    destruct (page_groups blocks); [reflexivity | discriminate].
Qed.

(** *** A page is closed only once it is full enough *)

Lemma should_break_true (cur : Z) (b : ContentBlock) :
  should_break cur b = true ->
  cur <> 0
  /\ (MIN_CHARS <= cur \/ OVERSHOOT_CHARS < cur + char_count b).
Proof.
  unfold should_break.
  destruct (Z.eqb_spec cur 0) as [E|E]; [discriminate|].
  destruct (Z.leb_spec MIN_CHARS cur);
    [intros _; split; [assumption | now left]|].
  rewrite !andb_false_r.
  destruct (Z.ltb_spec OVERSHOOT_CHARS (cur + char_count b));
    [intros _; split; [assumption | now right] | discriminate].
Qed.

Lemma breaks_justified_grow (ps : list (list ContentBlock))
  (cur : list ContentBlock) (b : ContentBlock) :
  cur <> [] ->
  breaks_justified (ps ++ [cur]) -> breaks_justified (ps ++ [cur ++ [b]]).
Proof.
  intros Hcur. destruct cur as [|c cur]; [congruence|].
  induction ps as [|p ps IH]; [trivial|].
  destruct ps as [|p' ps].
  - simpl. tauto.
  - intros [H1 H2]. split; [exact H1 | exact (IH H2)].
Qed.

Lemma breaks_justified_close (ps : list (list ContentBlock))
  (cur next : list ContentBlock) :
  break_justified cur next ->
  breaks_justified (ps ++ [cur]) ->
  breaks_justified ((ps ++ [cur]) ++ [next]).
Proof.
  intros Hj. induction ps as [|p ps IH].
  - intros _. simpl. tauto.
  - destruct ps as [|p' ps].
    + intros [H1 _]. simpl. tauto.
    + intros [H1 H2]. split; [exact H1 | exact (IH H2)].
Qed.

Lemma breaks_justified_at (before after : list (list ContentBlock))
  (g next : list ContentBlock) :
  breaks_justified (before ++ g :: next :: after) -> break_justified g next.
Proof.
  induction before as [|p before IH].
  - intros [H _]. exact H.
  - destruct before as [|p' before]; intros [_ H]; exact (IH H).
Qed.

Lemma pack_step_justified (st : PackState (list ContentBlock))
  (b : ContentBlock) :
  current_chars st = page_chars (current_page st) ->
  (current_page st = [] -> pages st = []) ->
  breaks_justified (pages st ++ [current_page st]) ->
  let st' := pack_step (fun page => page) st b in
  current_page st' <> []
  /\ breaks_justified (pages st' ++ [current_page st']).
Proof.
  intros Hchars Hempty Hj. unfold pack_step.
  destruct (should_break (current_chars st) b) eqn:Hsb;
    destruct (current_page st) as [|x p] eqn:Hp; simpl;
    rewrite ?Hp; simpl.
  - rewrite (Hempty eq_refl). split; [discriminate | exact I].
  - split; [discriminate|].
    apply (breaks_justified_close (pages st) (x :: p) [b]); [|exact Hj].
    destruct (should_break_true _ _ Hsb) as [H0 H1].
    rewrite Hchars in H0, H1. exact (conj H0 H1).
  - rewrite (Hempty eq_refl). split; [discriminate | exact I].
  - split; [discriminate|].
    apply (breaks_justified_grow (pages st) (x :: p) b);
      [discriminate | exact Hj].
Qed.

Lemma pack_loop_justified (blocks : list ContentBlock)
  (st : PackState (list ContentBlock)) :
  current_chars st = page_chars (current_page st) ->
  (current_page st = [] -> pages st = []) ->
  breaks_justified (pages st ++ [current_page st]) ->
  let st' := pack_loop (fun page => page) blocks st in
  (current_page st' = [] -> pages st' = [])
  /\ breaks_justified (pages st' ++ [current_page st']).
Proof.
  revert st. induction blocks as [|b blocks IH]; intros st Hc He Hj; simpl.
  - split; assumption.
  - destruct (pack_step_justified st b Hc He Hj) as [Hne Hj'].
    apply IH; [now apply pack_step_chars | intros E; contradiction | exact Hj'].
Qed.

Lemma page_groups_justified (blocks : list ContentBlock) :
  breaks_justified (page_groups blocks).
Proof.
  destruct (pack_loop_justified blocks pack_init eq_refl (fun _ => eq_refl) I)
    as [He Hj].
  unfold page_groups, pack, pack_finish.
  destruct (current_page (pack_loop (fun page => page) blocks pack_init))
    as [|x p] eqn:E; simpl; [|exact Hj].
  rewrite (He eq_refl). exact I.
Qed.

(** X2: a page is closed only once it is full enough.  Where one page is
    followed by another that opens with the block [b], the first page is
    not empty of characters, and it holds at least [MIN_CHARS] or [b]
    would have taken it past 1.3 x target. *)
Theorem page_closed_when_full_enough (blocks : list ContentBlock)
  (before after : list (list ContentBlock))
  (g rest : list ContentBlock) (b : ContentBlock) :
  page_groups blocks = before ++ g :: (b :: rest) :: after ->
  page_chars g <> 0
  /\ (MIN_CHARS <= page_chars g
      \/ OVERSHOOT_CHARS < page_chars g + char_count b).
Proof.
  intros Hg. pose proof (page_groups_justified blocks) as Hj.
  rewrite Hg in Hj. exact (breaks_justified_at _ _ _ _ Hj).
Qed.

Lemma page_closed_when_full_enough_witness :
  let g := [Samples.paragraph_of 2000] in
  page_chars g <> 0
  /\ (MIN_CHARS <= page_chars g
      \/ OVERSHOOT_CHARS
         < page_chars g + char_count (Samples.heading_of "Next")).
Proof.
  apply (page_closed_when_full_enough
           [Samples.paragraph_of 2000; Samples.heading_of "Next"]
           [] [] [Samples.paragraph_of 2000] []
           (Samples.heading_of "Next")).
  vm_compute. reflexivity.
Defined.

Lemma page_chars_nonneg (p : list ContentBlock) :
  Forall (fun b => 0 <= char_count b) p -> 0 <= page_chars p.
Proof. induction 1; simpl; lia. Qed.

(** X3: blocks that add up to fewer than [MIN_CHARS] characters stay
    together on one page. *)
Theorem short_document_one_page (blocks : list ContentBlock)
  (source_file : string) :
  Forall (fun b => 0 <= char_count b) blocks ->
  blocks <> [] ->
  page_chars blocks < MIN_CHARS ->
  page_groups blocks = [blocks]
  /\ split_into_pages blocks source_file = [page_text blocks].
Proof.
  intros Hnn Hne Hshort.
  assert (Hg : page_groups blocks = [blocks]).
  { pose proof (page_groups_concat blocks) as Hcat.
    pose proof (page_groups_nonempty blocks) as Hgs.
    pose proof (page_groups_justified blocks) as Hj.
    destruct (page_groups blocks) as [|g1 [|g2 later]].
    - simpl in Hcat. congruence.
    - simpl in Hcat. rewrite app_nil_r in Hcat. now rewrite Hcat.
    - exfalso. pose proof (Forall_inv (Forall_inv_tail Hgs)) as Hg2.
      destruct g2 as [|b rest]; [congruence|].
      destruct Hj as [[_ Hfull] _].
      simpl in Hcat. rewrite <- Hcat in Hnn, Hshort.
      apply Forall_app in Hnn. destruct Hnn as [Hn1 Hn2].
      pose proof (Forall_inv Hn2) as Hb. simpl in Hb.
      rewrite page_chars_app in Hshort. simpl in Hshort.
      assert (Hn3 : 0 <= page_chars (rest ++ List.concat later)).
      { apply page_chars_nonneg. exact (Forall_inv_tail Hn2). }
      pose proof (page_chars_nonneg _ Hn1).
      unfold MIN_CHARS, OVERSHOOT_CHARS in *. lia. }
  split; [exact Hg|]. now rewrite split_into_pages_groups, Hg.
Qed.

Lemma short_document_one_page_witness :
  let blocks := [Samples.heading_of "Next"; Samples.paragraph_of 10] in
  page_groups blocks = [blocks]
  /\ split_into_pages blocks "" = [page_text blocks].
Proof.
  apply (short_document_one_page
           [Samples.heading_of "Next"; Samples.paragraph_of 10] "").
  - repeat constructor; apply Z.leb_le; vm_compute; reflexivity.
  - discriminate.
  - apply Z.ltb_lt. vm_compute. reflexivity.
Defined.

(** *** The page texts *)

Lemma rstrip_idem (s : string) : rstrip (rstrip s) = rstrip s.
Proof.
  induction s as [|c s IH]; [reflexivity|]. simpl.
  destruct (rstrip s) as [|d r] eqn:E.
  - destruct (is_space c) eqn:Hc; [reflexivity|]. simpl. now rewrite Hc.
  - change (rstrip (String c (String d r)))
      with (match rstrip (String d r) with
            | EmptyString =>
                if is_space c then EmptyString else String c EmptyString
            | r' => String c r'
            end).
    now rewrite IH.
Qed.

(** [s.strip().strip() == s.strip()] *)
Lemma strip_idem (s : string) : strip (strip s) = strip s.
Proof.
  unfold strip. destruct (lstrip s) as [|c r] eqn:E; [reflexivity|].
  pose proof (lstrip_head _ _ _ E) as Hc.
  destruct (rstrip_head c r Hc) as [r' Hr]. rewrite Hr.
  simpl lstrip. rewrite Hc, <- Hr. apply rstrip_idem.
Qed.

(** X4: every page text returned is stripped: it neither begins nor ends
    with white space. *)
Theorem page_texts_are_stripped (blocks : list ContentBlock)
  (source_file : string) :
  Forall (fun page_content => strip page_content = page_content)
         (split_into_pages blocks source_file).
Proof.
  rewrite split_into_pages_groups. apply Forall_forall.
  intros p Hp. apply in_map_iff in Hp. destruct Hp as (g & <- & _).
  apply strip_idem.
Qed.

(* ================================================================== *)
(** ** The page packer: closed pages are final *)
(* ================================================================== *)

(** X5: blocks added at the end of a document leave the pages closed
    so far as they are: all the pages of the shorter document but its
    last one are pages of the longer one, in the same places. *)
Theorem closed_pages_are_final (pre post : list ContentBlock) :
  exists more,
    page_groups (pre ++ post) = removelast (page_groups pre) ++ more.
Proof.
  unfold page_groups, pack. rewrite pack_loop_app.
  set (st := pack_loop (fun page => page) pre pack_init).
  destruct (pack_finish_pages_prefix (fun page => page) post st)
    as [more Hmore].
  rewrite Hmore. unfold pack_finish.
  destruct (current_page st) as [|x p]; simpl.
  - destruct (pages st) as [|z init _] using rev_ind; [now exists more|].
    rewrite removelast_last. exists (z :: more). now rewrite <- app_assoc.
  - rewrite removelast_last. now exists more.
Qed.

(* ================================================================== *)
(** ** The block segmenter: what each block is made of *)
(* ================================================================== *)

(** *** White space at the two ends of a line *)

Lemma strip_empty (s : string) : strip s = ""%string <-> lstrip s = ""%string.
Proof.
  split; intros H.
  - destruct (lstrip s) as [|c r] eqn:E; [reflexivity|].
    destruct (strip_head _ _ _ E) as [r' Hr]. congruence.
  - unfold strip. now rewrite H.
Qed.

Lemma is_blank_lstrip (l : string) :
  is_blank l = true <-> lstrip l = ""%string.
Proof.
  unfold is_blank. rewrite <- strip_empty.
  destruct (strip l); simpl; split; congruence.
Qed.

Lemma lstrip_app (a b : string) :
  lstrip a = ""%string -> lstrip (a ++ b) = lstrip b.
Proof.
  induction a as [|c a IH]; simpl; [reflexivity|].
  destruct (is_space c); [exact IH | discriminate].
Qed.

Lemma table_line_head (l : string) :
  is_table_line l = true -> exists r, lstrip l = String "|" r.
Proof.
  rewrite is_table_line_bar. unfold startswith. intros H.
  destruct (lstrip l) as [|c s] eqn:E.
  - unfold strip in H. rewrite E in H. discriminate.
  - destruct (strip_head _ _ _ E) as [r' Hr]. rewrite Hr in H.
    cbn [prefix] in H.
    destruct (ascii_dec "|" c) as [<-|]; [now eexists | discriminate].
Qed.

(** A table row is no fence, rule, heading or list item. *)
Lemma table_line_plain (l : string) :
  is_table_line l = true -> is_plain l = true.
Proof.
  intros H. destruct (table_line_head l H) as [r Hr].
  destruct (strip_head _ _ _ Hr) as [r' Hs].
  unfold is_plain.
  rewrite (table_line_not_fence l)
    by (rewrite <- is_table_line_bar; exact H).
  assert (Hhr : is_hr l = false).
  { unfold is_hr. rewrite Hs. reflexivity. }
  assert (Hh : is_heading l = false).
  { unfold is_heading, startswith. destruct l as [|c s]; [reflexivity|].
    cbn [prefix]. destruct (ascii_dec "#" c) as [<-|]; [|reflexivity].
    discriminate Hr. }
  assert (Hl : is_list_item l = false).
  { unfold is_list_item, re_bullet, re_numbered. rewrite Hr.
    destruct r; reflexivity. }
  now rewrite Hhr, Hh, Hl.
Qed.

Lemma list_item_not_blank (l : string) :
  is_list_item l = true -> is_blank l = false.
Proof.
  intros H. destruct (is_blank l) eqn:E; [|reflexivity].
  apply is_blank_lstrip in E.
  unfold is_list_item, re_bullet, re_numbered in H. rewrite E in H.
  discriminate.
Qed.

(** *** The lines the inner loops take *)

Lemma span_forall (p : string -> bool) (ls : list string) :
  Forall (fun x => p x = true) (fst (span p ls)).
Proof.
  induction ls as [|l ls IH]; simpl; [constructor|].
  destruct (p l) eqn:E; [|constructor].
  destruct (span p ls) as [a r]. simpl in *. now constructor.
Qed.

Lemma collect_list_lines (ls : list string) :
  Forall (fun x => is_list_line x = true) (fst (collect_list ls)).
Proof.
  induction ls as [|l ls IH]; simpl; [constructor|].
  destruct (collect_list ls) as [a r]. simpl in IH.
  fold (is_list_line l).
  destruct (is_list_line l) eqn:E; [|constructor].
  destruct (is_blank l).
  - destruct (first_non_blank ls) as [l'|]; [|constructor].
    destruct (is_list_item l'); [|constructor].
    simpl. now constructor.
  - simpl. now constructor.
Qed.

(** A blank line is taken only when a list item is on its way. *)
Lemma collect_list_reaches (ls : list string) (l : string) :
  first_non_blank ls = Some l -> is_list_item l = true ->
  fst (collect_list ls) <> [].
Proof.
  destruct ls as [|x xs]; [discriminate|]. simpl.
  destruct (collect_list xs) as [a r].
  destruct (is_blank x) eqn:Hb.
  - intros Hf Hl. rewrite Hf, Hl, orb_true_r. discriminate.
  - intros [= ->] Hl. rewrite Hl. discriminate.
Qed.

Lemma collect_list_last (ls : list string) (d : string) :
  fst (collect_list ls) = []
  \/ is_blank (last (fst (collect_list ls)) d) = false.
Proof.
  induction ls as [|l ls IH]; simpl; [now left|].
  pose proof (collect_list_reaches ls) as Hreach.
  destruct (collect_list ls) as [a r]. simpl in IH, Hreach.
  destruct (is_list_item l || _ || is_blank l); [|now left].
  assert (Hlast : a <> [] -> is_blank (last (l :: a) d) = false).
  { intros Ha. destruct IH as [->|IH]; [congruence|].
    destruct a; [congruence | exact IH]. }
  destruct (is_blank l) eqn:Hb.
  - destruct (first_non_blank ls) as [l'|]; [|now left].
    destruct (is_list_item l') eqn:Hl; [|now left].
    right. simpl fst. apply Hlast. exact (Hreach l' eq_refl Hl).
  - right. simpl fst. destruct a as [|x a]; [exact Hb|].
    apply Hlast. discriminate.
Qed.

(** *** Lines hold no line separator *)

Lemma split_nl_lines (s : string) :
  Forall (fun x => no_newline x = true) (split_nl s).
Proof.
  induction s as [|c s IH]; simpl; [repeat constructor|].
  destruct (Ascii.eqb c newline) eqn:E; [now constructor|].
  pose proof (split_nl_nonempty s) as Hne.
  destruct (split_nl s) as [|l ls]; [congruence|].
  constructor; [|exact (Forall_inv_tail IH)].
  simpl. rewrite E. exact (Forall_inv IH).
Qed.

Lemma split_nl_line (l : string) : no_newline l = true -> split_nl l = [l].
Proof.
  induction l as [|c l IH]; simpl; [reflexivity|].
  destruct (Ascii.eqb c newline); [discriminate|]. simpl.
  intros H. now rewrite (IH H).
Qed.

Lemma split_nl_app (l rest : string) :
  no_newline l = true ->
  split_nl (l ++ String newline rest) = l :: split_nl rest.
Proof.
  induction l as [|c l IH]; simpl; [reflexivity|].
  destruct (Ascii.eqb c newline); [discriminate|]. simpl.
  intros H. now rewrite (IH H).
Qed.

(** ['\n'.join(ls).split('\n') == ls] for lines [ls], one at least. *)
Lemma split_join (ls : list string) :
  ls <> [] -> Forall (fun x => no_newline x = true) ls ->
  split_nl (join_nl ls) = ls.
Proof.
  intros Hne H. induction H as [|l ls Hl Hls IH]; [congruence|].
  destruct ls as [|l' ls].
  - simpl. now apply split_nl_line.
  - rewrite join_nl_cons by discriminate.
    change (nl ++ join_nl (l' :: ls))%string
      with (String newline (join_nl (l' :: ls))).
    rewrite split_nl_app by exact Hl. f_equal. apply IH. discriminate.
Qed.

(** The inner loops take lines and leave lines. *)
Lemma span_keeps (P : string -> Prop) (p : string -> bool)
  (ls : list string) :
  Forall P ls -> Forall P (fst (span p ls)) /\ Forall P (snd (span p ls)).
Proof.
  intros H. rewrite (span_app p ls) in H. now apply Forall_app in H.
Qed.

Lemma collect_list_keeps (P : string -> Prop) (ls : list string) :
  Forall P ls ->
  Forall P (fst (collect_list ls)) /\ Forall P (snd (collect_list ls)).
Proof.
  intros H. rewrite (collect_list_app ls) in H. now apply Forall_app in H.
Qed.

Lemma parse_step_keeps (P : string -> Prop) (line : string)
  (rest : list string) (st : ParseState) :
  Forall P rest -> Forall P (snd (parse_step line rest st)).
Proof.
  intros H. destruct (parse_step_suffix line rest st) as [taken E].
  rewrite E in H. now apply Forall_app in H.
Qed.

(** *** The invariant, step by step *)

Lemma well_shaped_make (g : list string) (ty : BlockType) :
  Forall (fun x => no_newline x = true) g ->
  block_shape ty g -> well_shaped (make_block (join_nl g) ty).
Proof.
  intros Hnl H. exists g. split; [reflexivity | split; assumption].
Qed.

Lemma fenced_make (text : string) (ty : BlockType) :
  ty <> bt_code -> fenced (make_block text ty).
Proof. intros H E. simpl in E. congruence. Qed.

Lemma flush_in_table (st : ParseState) :
  in_table (flush_current st) = in_table st.
Proof. unfold flush_current. now destruct (nonempty (current_block st)). Qed.

Lemma shape_inv_outside (st : ParseState) :
  Forall (fun x => no_newline x = true) (current_block st) ->
  Forall well_shaped (blocks st) -> Forall fenced (blocks st) ->
  in_code_block st = false ->
  current_type st = bt_paragraph ->
  (in_table st = true ->
   Forall (fun x => is_table_line x = true) (current_block st)) ->
  Forall (fun x => is_plain x = true) (current_block st) ->
  shape_inv st.
Proof.
  intros Hnl Hw Hf Hc Hty Ht Hp.
  split; [exact Hnl | split; [exact Hw | split; [exact Hf | split]]].
  - intros E. congruence.
  - intros _. split; [now left | split; [congruence | split]];
      [exact Ht | exact Hp].
Qed.

Lemma blocks_snoc (P : ContentBlock -> Prop) (bs : list ContentBlock)
  (b : ContentBlock) :
  Forall P bs -> P b -> Forall P (bs ++ [b]).
Proof.
  intros H Hb. apply Forall_app; split; [exact H|].
  constructor; [exact Hb | constructor].
Qed.

Lemma lines_snoc (cb : list string) (line : string) :
  Forall (fun x => no_newline x = true) cb -> no_newline line = true ->
  Forall (fun x => no_newline x = true) (cb ++ [line]).
Proof.
  intros H Hl. apply Forall_app; split; [exact H | now constructor].
Qed.

Lemma shape_flush (st : ParseState) :
  shape_inv st -> in_code_block st = false ->
  Forall well_shaped (blocks (flush_current st))
  /\ Forall fenced (blocks (flush_current st)).
Proof.
  intros (Hnl & Hw & Hf & _ & Hout) Hc.
  destruct (Hout Hc) as (Hty & Htab & Hrows & Hplain).
  unfold flush_current.
  destruct (current_block st) as [|l cb] eqn:E; simpl; [now split|].
  split; apply blocks_snoc; try assumption.
  - apply well_shaped_make; [exact Hnl|].
    destruct Hty as [Ht|Ht]; rewrite Ht; simpl.
    + split; [discriminate | exact Hplain].
    + exact (Hrows (Htab Ht)).
  - apply fenced_make. destruct Hty as [Ht|Ht]; rewrite Ht; discriminate.
Qed.

Lemma shape_emit (st : ParseState) (g : list string) (ty : BlockType) :
  shape_inv st -> in_code_block st = false ->
  Forall (fun x => no_newline x = true) g ->
  block_shape ty g -> ty <> bt_code ->
  shape_inv (emit_block (flush_current st) (join_nl g) ty).
Proof.
  intros Hinv Hc Hnl Hg Hty. destruct (shape_flush st Hinv Hc) as [Hw Hf].
  apply shape_inv_outside; simpl; rewrite ?flush_current_block.
  - constructor.
  - apply blocks_snoc; [assumption | now apply well_shaped_make].
  - apply blocks_snoc; [assumption | now apply fenced_make].
  - now rewrite flush_in_code_block.
  - reflexivity.
  - intros _. constructor.
  - constructor.
Qed.

Lemma shape_close_table (st : ParseState) :
  shape_inv st -> in_code_block st = false ->
  let st1 := if in_table st then close_table st else st in
  shape_inv st1 /\ in_code_block st1 = false /\ in_table st1 = false
  /\ current_type st1 = bt_paragraph.
Proof.
  intros Hinv Hc. pose proof Hinv as (Hnl & Hw & Hf & _ & Hout).
  destruct (Hout Hc) as (Hty & Htab & Hrows & Hplain).
  destruct (in_table st) eqn:Ht; cbv zeta.
  - split; [|split; [exact Hc | split; reflexivity]].
    apply shape_inv_outside; simpl;
      [ constructor | | | exact Hc | reflexivity | discriminate
      | constructor ].
    + apply blocks_snoc; [assumption|].
      apply well_shaped_make; [exact Hnl|]. simpl. exact (Hrows eq_refl).
    + apply blocks_snoc; [assumption|]. apply fenced_make. discriminate.
  - assert (Hp : current_type st = bt_paragraph).
    { destruct Hty as [E|E]; [exact E|]. specialize (Htab E). congruence. }
    split; [exact Hinv | split; [exact Hc | split; [exact Ht | exact Hp]]].
Qed.

Lemma shape_step (line : string) (rest : list string) (st : ParseState) :
  Forall (fun x => no_newline x = true) (line :: rest) ->
  shape_inv st -> shape_inv (fst (parse_step line rest st)).
Proof.
  intros Hlines Hinv. pose proof Hinv as (Hnl & Hw & Hf & Hin & Hout).
  pose proof (Forall_inv Hlines) as Hline.
  pose proof (Forall_inv_tail Hlines) as Hrest.
  unfold parse_step.
  pose proof (span_forall is_blank rest) as Hblanks.
  pose proof (span_forall is_lead_in (snd (span is_blank rest))) as Hlead.
  pose proof (collect_list_lines rest) as Hitems.
  pose proof (collect_list_last rest ""%string) as Hlast.
  destruct (span_keeps _ is_blank rest Hrest) as [Hnl1 Hrest1].
  destruct (span_keeps _ is_lead_in _ Hrest1) as [Hnl2 _].
  destruct (collect_list_keeps _ rest Hrest) as [Hnl3 _].
  destruct (span is_blank rest) as [blanks rest1].
  simpl in Hblanks, Hlead, Hnl1, Hnl2.
  destruct (span is_lead_in rest1) as [lead_in rest2]. simpl in Hlead, Hnl2.
  destruct (collect_list rest) as [items rest3].
  simpl in Hitems, Hlast, Hnl3.
  assert (Hgroup : Forall (fun x => no_newline x = true)
                          (line :: blanks ++ lead_in)).
  { constructor; [exact Hline|]. apply Forall_app. now split. }
  destruct (is_fence line) eqn:Hfence.
  { destruct (in_code_block st) eqn:Hc; cbn [fst].
    - (* the closing fence *)
      destruct (Hin eq_refl) as (Hty & opening & body & Hcb & Hop & Hbody).
      pose proof (lines_snoc _ _ Hnl Hline) as Hall.
      apply shape_inv_outside; simpl;
        [ constructor | | | reflexivity | reflexivity | constructor
        | constructor ].
      + apply blocks_snoc; [assumption|].
        apply well_shaped_make; [exact Hall|]. simpl. rewrite Hcb.
        exists opening, body, [line]. rewrite <- app_comm_cons.
        repeat split; try assumption. right. now exists line.
      + apply blocks_snoc; [assumption|].
        intros _. simpl. rewrite Hcb in *. exists opening, body, line.
        rewrite <- app_comm_cons in *. now repeat split.
    - (* the opening fence *)
      destruct (shape_flush st Hinv Hc) as [Hw1 Hf1].
      split; [|split; [exact Hw1 | split; [exact Hf1 | split]]]; simpl;
        rewrite ?flush_current_block.
      + now constructor.
      + intros _. split; [reflexivity|].
        exists line, []. repeat split; [exact Hfence | constructor].
      + discriminate. }
  destruct (in_code_block st) eqn:Hc; cbn [fst].
  { (* a line of code *)
    destruct (Hin eq_refl) as (Hty & opening & body & Hcb & Hop & Hbody).
    split; [|split; [exact Hw | split; [exact Hf | split]]]; simpl.
    - now apply lines_snoc.
    - intros _. split; [exact Hty|].
      exists opening, (body ++ [line]). rewrite Hcb.
      repeat split; [exact Hop|].
      apply Forall_app; split; [exact Hbody | now constructor].
    - rewrite Hc. discriminate. }
  destruct (Hout eq_refl) as (Hty & Htab & Hrows & Hplain).
  destruct (is_table_line line) eqn:Htable; cbn [fst].
  { (* a table row *)
    pose proof (table_line_plain line Htable) as Hpl.
    destruct (in_table st) eqn:Ht; cbn [negb].
    - split; [|split; [exact Hw | split; [exact Hf | split]]]; simpl.
      + now apply lines_snoc.
      + rewrite Hc. discriminate.
      + intros _. split; [exact Hty | split; [now rewrite Ht | split]].
        * intros _. apply Forall_app.
          split; [now apply Hrows | now constructor].
        * apply Forall_app; split; [exact Hplain | now constructor].
    - destruct (shape_flush st Hinv Hc) as [Hw1 Hf1].
      split; [|split; [exact Hw1 | split; [exact Hf1 | split]]]; simpl;
        rewrite ?flush_current_block, ?flush_in_code_block.
      + now constructor.
      + rewrite Hc. discriminate.
      + intros _. split; [now right | split; [reflexivity | split]].
        * intros _. now constructor.
        * now constructor. }
  destruct (shape_close_table st Hinv Hc) as (Hinv1 & Hc1 & Ht1 & Hty1).
  set (st1 := if in_table st then close_table st else st) in *.
  destruct (is_hr line) eqn:Hhr; cbn [fst].
  { apply (shape_emit st1 [line] bt_hr); try assumption;
      [now constructor | now exists line | discriminate]. }
  destruct (is_heading line) eqn:Hhead; cbn [fst].
  { destruct (re_step line) eqn:Hstep.
    - apply (shape_emit st1 (line :: blanks ++ lead_in) bt_step);
        try assumption; [|discriminate].
      exists line, blanks, lead_in. now repeat split.
    - apply (shape_emit st1 (line :: blanks ++ lead_in) bt_heading);
        try assumption; [|discriminate].
      exists line, blanks, lead_in. now repeat split. }
  destruct (is_list_item line) eqn:Hlist; cbn [fst].
  { apply (shape_emit st1 (line :: items) bt_list);
      try assumption; [now constructor | | discriminate].
    exists line, items. repeat split; try assumption.
    destruct Hlast as [->|Hlast]; [now apply list_item_not_blank|].
    destruct items as [|x items]; [now apply list_item_not_blank|].
    exact Hlast. }
  assert (Hpl : is_plain line = true).
  { unfold is_plain. now rewrite Hfence, Hhr, Hhead, Hlist. }
  pose proof Hinv1 as (Hnl' & Hw1 & Hf1 & _ & Hout1).
  destruct (Hout1 Hc1) as (_ & _ & _ & Hplain1).
  assert (Happ : shape_inv (append_line st1 line)).
  { apply shape_inv_outside; simpl; try assumption.
    - now apply lines_snoc.
    - rewrite Ht1. discriminate.
    - apply Forall_app; split; [exact Hplain1 | now constructor]. }
  destruct (is_blank line); [destruct (nonempty (current_block st1))|];
    cbn [fst]; exact Happ.
Qed.

Lemma shape_finish (st : ParseState) :
  shape_inv st -> Forall well_shaped (parse_finish st).
Proof.
  intros (Hnl & Hw & Hf & Hin & Hout). unfold parse_finish.
  destruct (current_block st) as [|l cb] eqn:E; simpl; [exact Hw|].
  destruct (truthy _); [|exact Hw].
  apply blocks_snoc; [exact Hw|]. apply well_shaped_make; [exact Hnl|].
  destruct (in_code_block st) eqn:Hc; simpl.
  - destruct (Hin eq_refl) as (_ & opening & body & Hcb & Hop & Hbody).
    injection Hcb as -> ->.
    exists opening, body, []. rewrite app_nil_r.
    repeat split; try assumption. now left.
  - destruct (Hout eq_refl) as (Hty & Htab & Hrows & Hplain).
    destruct Hty as [Ht|Ht]; rewrite Ht; simpl.
    + split; [discriminate | exact Hplain].
    + exact (Hrows (Htab Ht)).
Qed.

Lemma parse_finish_tail (st : ParseState) :
  exists tail,
    parse_finish st = blocks st ++ tail
    /\ (tail = [] \/ exists b, tail = [b]).
Proof.
  unfold parse_finish.
  destruct (nonempty (current_block st));
    [destruct (truthy _)|]; eexists;
    (split; [reflexivity | (right; eexists; reflexivity)])
    || (split; [symmetry; apply app_nil_r | now left]).
Qed.

Lemma shape_init : shape_inv parse_init.
Proof.
  apply shape_inv_outside; simpl;
    (reflexivity || discriminate || constructor).
Qed.

Lemma parse_loop_shape (text : string) (st : ParseState) :
  parse_loop (List.length (split_nl text)) (split_nl text) parse_init
  = Some st ->
  shape_inv st.
Proof.
  intros Hrun.
  apply (parse_loop_invariant
           (fun st lines =>
              shape_inv st /\ Forall (fun x => no_newline x = true) lines))
    with (fuel := List.length (split_nl text)) (lines := split_nl text)
         (st := parse_init) (st' := st).
  - intros line rest st0 [H1 H2]. split; [now apply shape_step|].
    apply parse_step_keeps. exact (Forall_inv_tail H2).
  - exact Hrun.
  - split; [apply shape_init | apply split_nl_lines].
Qed.

(** Every block is made of the lines its type stands for: [g] is
    [content.split('\n')], but for the block with no line at all. *)
Lemma parse_blocks_shape (text : string) (b : ContentBlock) :
  In b (parse_content_blocks text) ->
  exists g,
    content b = join_nl g
    /\ (g <> [] -> split_nl (content b) = g)
    /\ block_shape (block_type b) g.
Proof.
  destruct (parse_content_blocks_run text) as (st & Hrun & ->).
  pose proof (shape_finish st (parse_loop_shape text st Hrun)) as H.
  rewrite Forall_forall in H. intros Hin.
  destruct (H b Hin) as (g & Hc & Hnl & Hs).
  exists g. split; [exact Hc | split; [|exact Hs]].
  intros Hne. rewrite Hc. now apply split_join.
Qed.

(** Every ['code'] block but the last block of the text has its closing
    fence. *)
Lemma parse_blocks_fenced (text : string) (pre post : list ContentBlock)
  (b : ContentBlock) :
  parse_content_blocks text = pre ++ b :: post -> post <> [] -> fenced b.
Proof.
  destruct (parse_content_blocks_run text) as (st & Hrun & ->).
  destruct (parse_loop_shape text st Hrun) as (_ & _ & Hf & _).
  destruct (parse_finish_tail st) as (tail & -> & Htail).
  intros Heq Hpost. rewrite Forall_forall in Hf. apply Hf.
  destruct (exists_last Hpost) as (post' & z & ->).
  destruct Htail as [->|[y ->]].
  - rewrite app_nil_r in Heq. rewrite Heq. apply in_elt.
  - change (pre ++ b :: post' ++ [z]) with (pre ++ (b :: post') ++ [z]) in Heq.
    rewrite app_assoc in Heq. apply app_inj_tail in Heq.
    destruct Heq as [-> _]. apply in_elt.
Qed.

(** X6: a ['hr'] block is one line, and that line is a rule. *)
Theorem hr_block_is_one_rule (text : string) (b : ContentBlock) :
  In b (parse_content_blocks text) ->
  block_type b = bt_hr ->
  is_hr (content b) = true /\ split_nl (content b) = [content b].
Proof.
  intros Hin Hty.
  destruct (parse_blocks_shape text b Hin) as (g & Hc & Hsplit & Hs).
  rewrite Hty in Hs. destruct Hs as (l & -> & Hl).
  rewrite (Hsplit ltac:(discriminate)). rewrite Hc. now split.
Qed.

Lemma hr_block_is_one_rule_witness :
  is_hr (content (make_block " ---" bt_hr)) = true
  /\ split_nl (content (make_block " ---" bt_hr))
     = [content (make_block " ---" bt_hr)].
Proof.
  apply (hr_block_is_one_rule ("a" ++ nl ++ " ---" ++ nl ++ "b")%string
           (make_block " ---" bt_hr)).
  - vm_compute. auto.
  - reflexivity.
Defined.

(** X7: the lines of a ['heading'] or ['step'] block are the heading
    line, the blank lines that follow it and then the lead-in paragraph,
    up to the next blank line, heading, fence or table row; it is a
    ['step'] block exactly when the heading line matches the step
    pattern. *)
Theorem heading_block_lines (text : string) (b : ContentBlock) :
  In b (parse_content_blocks text) ->
  block_type b = bt_heading \/ block_type b = bt_step ->
  exists l blanks lead_in,
    split_nl (content b) = l :: blanks ++ lead_in
    /\ is_heading l = true
    /\ (re_step l = true <-> block_type b = bt_step)
    /\ Forall (fun x => is_blank x = true) blanks
    /\ Forall (fun x => is_lead_in x = true) lead_in.
Proof.
  intros Hin Hty.
  destruct (parse_blocks_shape text b Hin) as (g & Hc & Hsplit & Hs).
  destruct Hty as [Hty|Hty]; rewrite Hty in Hs |- *;
    destruct Hs as (l & blanks & lead_in & -> & Hh & Hstep & Hb & Hl);
    exists l, blanks, lead_in; rewrite Hstep;
    (split; [apply Hsplit; discriminate|]);
    repeat split; try assumption; try reflexivity; discriminate.
Qed.

Lemma heading_block_lines_witness :
  let b := make_block ("## Step 1.2" ++ nl ++ "" ++ nl ++ "Do it.") bt_step in
  exists l blanks lead_in,
    split_nl (content b) = l :: blanks ++ lead_in
    /\ is_heading l = true
    /\ (re_step l = true <-> block_type b = bt_step)
    /\ Forall (fun x => is_blank x = true) blanks
    /\ Forall (fun x => is_lead_in x = true) lead_in.
Proof.
  apply (heading_block_lines
           ("## Step 1.2" ++ nl ++ "" ++ nl ++ "Do it." ++ nl ++ "" ++ nl
            ++ "More.")%string
           (make_block ("## Step 1.2" ++ nl ++ "" ++ nl ++ "Do it.") bt_step)).
  - vm_compute. auto.
  - right. reflexivity.
Defined.

(** X8: the lines of a ['code'] block are a fence line, lines that are
    no fence lines, and the closing fence line; the closing fence is there
    unless the block is the last one of the text, where the fence may
    never be closed. *)
Theorem code_block_between_fences (text : string)
  (pre post : list ContentBlock) (b : ContentBlock) :
  parse_content_blocks text = pre ++ b :: post ->
  block_type b = bt_code ->
  exists opening body closing,
    split_nl (content b) = opening :: body ++ closing
    /\ is_fence opening = true
    /\ Forall (fun x => is_fence x = false) body
    /\ (closing = [] \/ exists f, closing = [f] /\ is_fence f = true)
    /\ (post <> [] -> closing <> []).
Proof.
  intros Heq Hty. destruct post as [|p post].
  - assert (Hin : In b (parse_content_blocks text))
      by (rewrite Heq; apply in_elt).
    destruct (parse_blocks_shape text b Hin) as (g & Hc & Hsplit & Hs).
    rewrite Hty in Hs.
    destruct Hs as (opening & body & closing & -> & Ho & Hb & Hcl).
    exists opening, body, closing.
    split; [apply Hsplit; discriminate|].
    repeat split; try assumption. congruence.
  - destruct (parse_blocks_fenced text pre (p :: post) b Heq
                ltac:(discriminate) Hty)
      as (opening & body & closing & Hc & Hnl & Ho & Hb & Hcl).
    exists opening, body, [closing].
    split; [rewrite Hc; apply split_join; [discriminate | exact Hnl]|].
    repeat split; try assumption.
    + right. now exists closing.
    + discriminate.
Qed.

Lemma code_block_between_fences_witness :
  let b := make_block ("```" ++ nl ++ "x = 1" ++ nl ++ "```") bt_code in
  exists opening body closing,
    split_nl (content b) = opening :: body ++ closing
    /\ is_fence opening = true
    /\ Forall (fun x => is_fence x = false) body
    /\ (closing = [] \/ exists f, closing = [f] /\ is_fence f = true)
    /\ ([make_block "end" bt_paragraph] <> [] -> closing <> []).
Proof.
  apply (code_block_between_fences
           ("```" ++ nl ++ "x = 1" ++ nl ++ "```" ++ nl ++ "end")%string
           []
           [make_block "end" bt_paragraph]
           (make_block ("```" ++ nl ++ "x = 1" ++ nl ++ "```") bt_code)).
  - vm_compute. reflexivity.
  - reflexivity.
Defined.

(** X9: every line of a ['table'] block passes the table test, unless
    the block has no text at all. *)
Theorem table_block_rows (text : string) (b : ContentBlock) :
  In b (parse_content_blocks text) ->
  block_type b = bt_table ->
  content b = ""%string
  \/ Forall (fun x => is_table_line x = true) (split_nl (content b)).
Proof.
  intros Hin Hty.
  destruct (parse_blocks_shape text b Hin) as (g & Hc & Hsplit & Hs).
  rewrite Hty in Hs. destruct g as [|l g]; [now left | right].
  rewrite Hsplit by discriminate. exact Hs.
Qed.

Lemma table_block_rows_witness :
  let b := make_block ("| a |" ++ nl ++ "|---|") bt_table in
  content b = ""%string
  \/ Forall (fun x => is_table_line x = true) (split_nl (content b)).
Proof.
  apply (table_block_rows ("| a |" ++ nl ++ "|---|" ++ nl ++ "end")%string
           (make_block ("| a |" ++ nl ++ "|---|") bt_table)).
  - vm_compute. auto.
  - reflexivity.
Defined.



(** X11: no line of a ['paragraph'] block is a fence line, a rule, a
    heading line or a list item. *)
Theorem paragraph_block_lines (text : string) (b : ContentBlock) :
  In b (parse_content_blocks text) ->
  block_type b = bt_paragraph ->
  Forall (fun x => is_fence x = false /\ is_hr x = false
                   /\ is_heading x = false /\ is_list_item x = false)
         (split_nl (content b)).
Proof.
  intros Hin Hty.
  destruct (parse_blocks_shape text b Hin) as (g & Hc & Hsplit & Hs).
  rewrite Hty in Hs. destruct Hs as [Hne Hp].
  rewrite (Hsplit Hne).
  eapply Forall_impl; [|exact Hp]. intros x Hx. unfold is_plain in Hx.
  destruct (is_fence x), (is_hr x), (is_heading x), (is_list_item x);
    try discriminate; now repeat split.
Qed.

Lemma paragraph_block_lines_witness :
  let b := make_block ("one" ++ nl ++ "two" ++ nl ++ "") bt_paragraph in
  Forall (fun x => is_fence x = false /\ is_hr x = false
                   /\ is_heading x = false /\ is_list_item x = false)
         (split_nl (content b)).
Proof.
  apply (paragraph_block_lines
           ("one" ++ nl ++ "two" ++ nl ++ "" ++ nl ++ "# end")%string
           (make_block ("one" ++ nl ++ "two" ++ nl ++ "") bt_paragraph)).
  - vm_compute. auto.
  - reflexivity.
Defined.

(** X12: no block is of type ['other'], the type the field's comment
    lists: the segmenter knows the seven other types only. *)
Theorem no_block_of_type_other (text : string) (b : ContentBlock) :
  In b (parse_content_blocks text) -> block_type b <> bt_other.
Proof.
  intros Hin Hty.
  destruct (parse_blocks_shape text b Hin) as (g & Hc & _ & Hs).
  rewrite Hty in Hs. exact Hs.
Qed.

Lemma no_block_of_type_other_witness :
  block_type (make_block "text" bt_paragraph) <> bt_other.
Proof.
  apply (no_block_of_type_other "text" (make_block "text" bt_paragraph)).
  vm_compute. auto.
Defined.

(* ================================================================== *)
(** ** The block segmenter: what follows a heading block *)
(* ================================================================== *)

Lemma no_list_snoc (bs : list ContentBlock) (x : ContentBlock) :
  no_list_after_heading bs ->
  ends_calm bs \/ is_list_or_hr (block_type x) = false ->
  no_list_after_heading (bs ++ [x]).
Proof.
  induction bs as [|b bs IH]; [intros; exact I|].
  destruct bs as [|b' bs].
  - intros _ Hx. split; [|exact I]. intros Hb.
    destruct Hx as [Hcalm|Hx]; [|exact Hx].
    rewrite (Hcalm [] b eq_refl) in Hb. discriminate.
  - intros [H1 H2] Hx. split; [exact H1|]. apply IH; [exact H2|].
    destruct Hx as [Hcalm|Hx]; [left | now right].
    intros before y E. apply (Hcalm (b :: before) y). simpl. now rewrite E.
Qed.

Lemma no_list_at (pre post : list ContentBlock) (b b' : ContentBlock) :
  no_list_after_heading (pre ++ b :: b' :: post) ->
  is_heading_type (block_type b) = true ->
  is_list_or_hr (block_type b') = false.
Proof.
  induction pre as [|p pre IH].
  - intros [H _]. exact H.
  - destruct pre as [|p' pre]; intros [_ H]; exact (IH H).
Qed.

Lemma ends_calm_snoc (bs : list ContentBlock) (x : ContentBlock) :
  is_heading_type (block_type x) = false -> ends_calm (bs ++ [x]).
Proof.
  intros Hx before b E. apply app_inj_tail in E. destruct E as [_ <-].
  exact Hx.
Qed.

Lemma span_stops (p : string -> bool) (ls : list string) :
  match snd (span p ls) with
  | [] => True
  | l :: _ => p l = false
  end.
Proof.
  induction ls as [|l ls IH]; simpl; [exact I|].
  destruct (p l) eqn:E; [|exact E].
  destruct (span p ls) as [a r]. exact IH.
Qed.

Lemma hr_not_heading (l : string) : is_hr l = true -> is_heading l = false.
Proof.
  unfold is_hr, is_heading, startswith. intros H.
  destruct l as [|c s]; [reflexivity|]. cbn [prefix].
  destruct (ascii_dec "#" c) as [<-|]; [|reflexivity].
  destruct (strip_head (String "#" s) "#" s eq_refl) as [r Hr].
  rewrite Hr in H. discriminate H.
Qed.

(** A rule or a list item that the main loop gets to see is a line the
    lead-in loop of a heading would have taken. *)
Lemma rule_or_item_is_lead_in (l : string) :
  is_fence l = false -> is_table_line l = false -> is_heading l = false ->
  is_hr l = true \/ is_list_item l = true ->
  is_lead_in l = true.
Proof.
  intros Hf Ht Hh Hl. unfold is_lead_in.
  unfold is_fence in Hf. rewrite is_table_line_bar in Ht.
  unfold is_heading in Hh. rewrite Hf, Ht, Hh.
  assert (Hb : is_blank l = false).
  { destruct Hl as [Hl|Hl]; [|now apply list_item_not_blank].
    unfold is_hr in Hl. unfold is_blank.
    destruct (strip l); [discriminate Hl | reflexivity]. }
  unfold is_blank in Hb. now rewrite Hb.
Qed.

Lemma flush_types (st : ParseState) :
  shape_inv st -> in_code_block st = false ->
  is_heading_type (current_type st) = false
  /\ is_list_or_hr (current_type st) = false.
Proof.
  intros (_ & _ & _ & _ & Hout) Hc. destruct (Hout Hc) as ([E|E] & _);
    rewrite E; now split.
Qed.

Lemma follow_flush (st : ParseState) :
  shape_inv st -> in_code_block st = false ->
  no_list_after_heading (blocks st) ->
  no_list_after_heading (blocks (flush_current st))
  /\ (current_block st <> [] -> ends_calm (blocks (flush_current st))).
Proof.
  intros Hinv Hc Hno. destruct (flush_types st Hinv Hc) as [H1 H2].
  unfold flush_current.
  destruct (current_block st) as [|l cb]; simpl.
  - split; [exact Hno | congruence].
  - split; [apply no_list_snoc; [exact Hno | now right]|].
    intros _. now apply ends_calm_snoc.
Qed.

Lemma follow_emit (st : ParseState) (text : string) (ty : BlockType)
  (lines : list string) :
  shape_inv st -> in_code_block st = false ->
  no_list_after_heading (blocks st) ->
  (is_list_or_hr ty = true -> current_block st = [] ->
   ends_calm (blocks st)) ->
  (is_heading_type ty = true ->
   match lines with [] => True | l :: _ => is_lead_in l = false end) ->
  follow_inv (emit_block (flush_current st) text ty) lines.
Proof.
  intros Hinv Hc Hno Hcalm Hnext.
  destruct (follow_flush st Hinv Hc Hno) as [Hno1 Hcalm1].
  split; cbn [blocks emit_block current_block].
  - apply no_list_snoc; [exact Hno1|].
    destruct (is_list_or_hr ty) eqn:Hty; [left | now right].
    destruct (current_block st) as [|l cb] eqn:Hcb.
    + unfold flush_current. rewrite Hcb. simpl. now apply Hcalm.
    + apply Hcalm1. discriminate.
  - destruct (is_heading_type ty) eqn:Hty.
    + right. right. now apply Hnext.
    + left. now apply ends_calm_snoc.
Qed.

Lemma follow_step (line : string) (rest : list string) (st : ParseState) :
  shape_inv st -> follow_inv st (line :: rest) ->
  follow_inv (fst (parse_step line rest st)) (snd (parse_step line rest st)).
Proof.
  intros Hinv [Hno Hnext]. pose proof Hinv as (_ & _ & _ & Hin & Hout).
  unfold parse_step.
  pose proof (span_stops is_lead_in (snd (span is_blank rest))) as Hstop.
  destruct (span is_blank rest) as [blanks rest1]. simpl in Hstop.
  destruct (span is_lead_in rest1) as [lead_in rest2]. simpl in Hstop.
  destruct (collect_list rest) as [items rest3].
  assert (Hgrow : forall cb : list string, cb ++ [line] <> [])
    by (intros cb; destruct cb; discriminate).
  destruct (is_fence line) eqn:Hfence.
  { destruct (in_code_block st) eqn:Hc; cbn [fst snd].
    - split; cbn [blocks current_block].
      + apply no_list_snoc; [exact Hno | now right].
      + left. now apply ends_calm_snoc.
    - destruct (follow_flush st Hinv Hc Hno) as [Hno1 _].
      split; cbn [blocks current_block]; [exact Hno1|].
      right. left. apply Hgrow. }
  destruct (in_code_block st) eqn:Hc; cbn [fst snd].
  { split; cbn [blocks current_block append_line]; [exact Hno|].
    right. left. apply Hgrow. }
  destruct (is_table_line line) eqn:Htable; cbn [fst snd].
  { destruct (in_table st); cbn [negb];
      (split; cbn [blocks current_block append_line];
       [|right; left; apply Hgrow]); [exact Hno|].
    exact (proj1 (follow_flush st Hinv Hc Hno)). }
  destruct (shape_close_table st Hinv Hc) as (Hinv1 & Hc1 & Ht1 & Hty1).
  assert (Hno1 : no_list_after_heading
                   (blocks (if in_table st then close_table st else st))).
  { destruct (in_table st); [|exact Hno].
    apply no_list_snoc; [exact Hno | now right]. }
  assert (Hcalm1 : is_heading line = false ->
                   is_hr line = true \/ is_list_item line = true ->
                   current_block (if in_table st then close_table st else st)
                   = [] ->
                   ends_calm
                     (blocks (if in_table st then close_table st else st))).
  { intros Hh Hl Hcb. destruct (in_table st).
    - now apply ends_calm_snoc.
    - destruct Hnext as [H|[H|H]]; [exact H | contradiction|].
      rewrite (rule_or_item_is_lead_in line Hfence Htable Hh Hl) in H.
      discriminate H. }
  set (st1 := if in_table st then close_table st else st) in *.
  destruct (is_hr line) eqn:Hhr; cbn [fst snd].
  { apply follow_emit; try assumption; [|discriminate].
    intros _. apply Hcalm1; [now apply hr_not_heading | now left]. }
  destruct (is_heading line) eqn:Hhead; cbn [fst snd].
  { destruct (re_step line); apply follow_emit; try assumption;
      try discriminate; intros _; exact Hstop. }
  destruct (is_list_item line) eqn:Hlist; cbn [fst snd].
  { apply follow_emit; try assumption; [|discriminate].
    intros _. apply Hcalm1; [reflexivity | now right]. }
  destruct (is_blank line); [destruct (nonempty (current_block st1))|];
    cbn [fst snd];
    (split; cbn [blocks current_block append_line];
     [exact Hno1 | right; left; apply Hgrow]).
Qed.

Lemma follow_finish (st : ParseState) :
  shape_inv st -> no_list_after_heading (blocks st) ->
  no_list_after_heading (parse_finish st).
Proof.
  intros (_ & _ & _ & Hin & Hout) Hno. unfold parse_finish.
  destruct (nonempty (current_block st)); [|exact Hno].
  destruct (truthy _); [|exact Hno].
  apply no_list_snoc; [exact Hno | right]. cbn [block_type make_block].
  destruct (in_code_block st); cbn [negb]; [reflexivity|].
  destruct (Hout eq_refl) as ([E|E] & _); now rewrite E.
Qed.

(** X13: a list or a rule right under a heading is never a block of its
    own.  The block that follows a ['heading'] or ['step'] block is never
    a ['list'] nor an ['hr'] block: the lead-in loop of the heading takes
    such lines into the heading block. *)
Theorem no_list_or_rule_after_heading (text : string)
  (pre post : list ContentBlock) (b b' : ContentBlock) :
  parse_content_blocks text = pre ++ b :: b' :: post ->
  block_type b = bt_heading \/ block_type b = bt_step ->
  block_type b' <> bt_list /\ block_type b' <> bt_hr.
Proof.
  destruct (parse_content_blocks_run text) as (st & Hrun & ->).
  intros Heq Hb.
  assert (Hinv : (shape_inv st /\ follow_inv st [])
                 /\ Forall (fun x => no_newline x = true) []).
  { apply (parse_loop_invariant
             (fun st lines =>
                (shape_inv st /\ follow_inv st lines)
                /\ Forall (fun x => no_newline x = true) lines))
      with (fuel := List.length (split_nl text)) (lines := split_nl text)
           (st := parse_init); [|exact Hrun|].
    - intros line rest st0 [[H1 H2] H3]. split; [split|].
      + now apply shape_step.
      + now apply follow_step.
      + apply parse_step_keeps. exact (Forall_inv_tail H3).
    - split; [split|]; [apply shape_init | | apply split_nl_lines].
      split; [exact I|]. left. intros before x E.
      destruct before; discriminate E. }
  destruct Hinv as [[Hshape [Hno _]] _].
  pose proof (follow_finish st Hshape Hno) as Hall. rewrite Heq in Hall.
  assert (Hh : is_heading_type (block_type b) = true)
    by (destruct Hb as [E|E]; now rewrite E).
  pose proof (no_list_at pre post b b' Hall Hh) as H.
  split; intros E; rewrite E in H; discriminate H.
Qed.

Lemma no_list_or_rule_after_heading_witness :
  block_type (make_block "" bt_paragraph) <> bt_list
  /\ block_type (make_block "" bt_paragraph) <> bt_hr.
Proof.
  apply (no_list_or_rule_after_heading
           ("# Title" ++ nl ++ "- a" ++ nl ++ "" ++ nl ++ "- b")%string
           []
           [make_block "- b" bt_list]
           (make_block ("# Title" ++ nl ++ "- a") bt_heading)
           (make_block "" bt_paragraph)).
  - vm_compute. reflexivity.
  - left. reflexivity.
Defined.

(* ================================================================== *)
(** ** The block segmenter: texts of white space *)
(* ================================================================== *)

Lemma blank_line_tests (line : string) :
  is_blank line = true ->
  is_fence line = false /\ is_table_line line = false
  /\ is_hr line = false /\ is_heading line = false
  /\ is_list_item line = false.
Proof.
  intros H. pose proof H as Hl. apply is_blank_lstrip in Hl.
  assert (Hs : strip line = ""%string) by (now apply strip_empty).
  unfold is_fence, is_hr. rewrite is_table_line_bar, Hs.
  repeat split; try reflexivity.
  - unfold is_heading, startswith. destruct line as [|c s]; [reflexivity|].
    cbn [prefix]. destruct (ascii_dec "#" c) as [<-|]; [|reflexivity].
    discriminate Hl.
  - unfold is_list_item, re_bullet, re_numbered. now rewrite Hl.
Qed.

Lemma blank_step (line : string) (rest : list string) (st : ParseState) :
  blank_inv st -> is_blank line = true ->
  blank_inv (fst (parse_step line rest st))
  /\ snd (parse_step line rest st) = rest.
Proof.
  intros (Hb & Hc & Ht & Hcb) Hl.
  destruct (blank_line_tests line Hl) as (H1 & H2 & H3 & H4 & H5).
  unfold parse_step. rewrite H1, Hc, H2, Ht, H3, H4, H5, Hl.
  destruct (nonempty (current_block st)); simpl;
    (split; [|reflexivity]); repeat split; try assumption;
    (apply Forall_app; split; [assumption | now constructor]).
Qed.

Lemma blank_lines (text : string) :
  lstrip text = ""%string ->
  Forall (fun x => is_blank x = true) (split_nl text).
Proof.
  induction text as [|c s IH]; simpl.
  - intros _. now constructor.
  - destruct (is_space c) eqn:Hc; [|discriminate]. intros Hs.
    specialize (IH Hs).
    destruct (Ascii.eqb c newline); [now constructor|].
    pose proof (split_nl_nonempty s) as Hne.
    destruct (split_nl s) as [|l ls]; [congruence|].
    inversion IH as [|? ? Hl Hls]; subst. constructor; [|exact Hls].
    apply is_blank_lstrip. simpl. rewrite Hc. now apply is_blank_lstrip.
Qed.

Lemma blank_join (ls : list string) :
  Forall (fun x => is_blank x = true) ls -> lstrip (join_nl ls) = ""%string.
Proof.
  induction 1 as [|l ls Hl _ IH]; [reflexivity|].
  apply is_blank_lstrip in Hl.
  destruct ls as [|l' ls]; [exact Hl|].
  rewrite join_nl_cons by discriminate.
  rewrite lstrip_app by exact Hl. exact IH.
Qed.

Lemma blank_loop (fuel : nat) (lines : list string) (st st' : ParseState) :
  parse_loop fuel lines st = Some st' ->
  blank_inv st -> Forall (fun x => is_blank x = true) lines ->
  blank_inv st'.
Proof.
  intros Hrun Hinv Hlines.
  apply (parse_loop_invariant
           (fun st lines =>
              blank_inv st /\ Forall (fun x => is_blank x = true) lines))
    with (fuel := fuel) (lines := lines) (st := st); auto.
  clear. intros line rest st [Hinv Hlines].
  inversion Hlines as [|? ? Hl Hrest]; subst.
  destruct (blank_step line rest st Hinv Hl) as [H1 H2].
  rewrite H2. now split.
Qed.

(** X14: a text gives no block at all exactly when it is white space
    from end to end (the empty text included). *)
Theorem no_block_iff_blank_text (text : string) :
  parse_content_blocks text = [] <-> strip text = ""%string.
Proof.
  destruct (parse_content_blocks_run text) as (st & Hrun & ->). split.
  - intros Hnil.
    destruct (parse_finish_lossless text st (parse_loop_covers text st Hrun))
      as (tail & Hjoin & Htail).
    { rewrite Hnil. constructor. }
    rewrite Hnil in Hjoin. simpl in Hjoin.
    destruct Htail as [->|(t & -> & Ht)]; subst text; [reflexivity | exact Ht].
  - intros Hs. apply strip_empty in Hs.
    assert (Hinv : blank_inv st).
    { apply (blank_loop _ _ _ _ Hrun); [|now apply blank_lines].
      repeat split. constructor. }
    destruct Hinv as (Hb & Hc & Ht & Hcb).
    unfold parse_finish. rewrite Hb.
    destruct (nonempty (current_block st)); [|reflexivity].
    pose proof (blank_join _ Hcb) as Hj. apply strip_empty in Hj.
    now rewrite Hj.
Qed.

(* ================================================================== *)
(** ** From the text to the pages *)
(* ================================================================== *)

Lemma parse_blocks_counted (text : string) :
  Forall counted (parse_content_blocks text).
Proof.
  destruct (parse_content_blocks_run text) as (st & Hrun & ->).
  assert (Hst : Forall counted (blocks st)).
  { apply (parse_loop_invariant
             (fun st _ => Forall counted (blocks st))
             (fun line rest st H => counted_step line rest st H)
             _ _ _ _ Hrun).
    constructor. }
  unfold parse_finish.
  destruct (nonempty (current_block st)); [|assumption].
  destruct (truthy _); [|assumption].
  now apply counted_snoc.
Qed.

Lemma page_groups_ok (blocks : list ContentBlock) :
  Forall (fun b => 0 <= char_count b) blocks ->
  Forall page_ok (page_groups blocks).
Proof.
  intros Hblocks.
  assert (Hinit : page_ok (current_page (@pack_init (list ContentBlock))))
    by (left; simpl; unfold MAX_CHARS; lia).
  destruct (pack_loop_ok blocks pack_init Hblocks (Forall_nil _) Hinit
              (Forall_nil _) eq_refl) as [Hpages Hcur].
  unfold page_groups, pack, pack_finish.
  destruct (nonempty _); [|assumption].
  apply Forall_app; split; [assumption | now constructor].
Qed.

(** X15: the pages of a text.  Whatever the text, every page made of
    its blocks is within [MAX_CHARS], or grew past it with a last block
    added while the page was below [MIN_CHARS]: the blocks the segmenter
    makes are charged their length, which is never negative. *)
Theorem text_pages_within_budget (text source_file : string) :
  split_into_pages (parse_content_blocks text) source_file
  = map page_text (page_groups (parse_content_blocks text))
  /\ Forall (fun page =>
       page_chars page <= MAX_CHARS
       \/ exists before last,
            page = before ++ [last]
            /\ page_chars before < MIN_CHARS
            /\ (page_chars page <= OVERSHOOT_CHARS
                \/ Forall (fun b => char_count b = 0) before))
       (page_groups (parse_content_blocks text)).
Proof.
  split; [apply split_into_pages_groups|].
  apply page_groups_ok.
  eapply Forall_impl; [|apply parse_blocks_counted].
  intros b Hb. unfold counted in Hb. rewrite Hb. unfold len. lia.
Qed.

(* ================================================================== *)
(** ** The names of the page files *)
(* ================================================================== *)

Lemma digit_not_dash (c : ascii) :
  is_digit c = true -> Ascii.eqb c "-" = false.
Proof.
  intros H. destruct (Ascii.eqb_spec c "-") as [->|]; [|reflexivity].
  discriminate H.
Qed.

Lemma upper_not_dash (c : ascii) :
  is_upper c = true -> Ascii.eqb c "-" = false.
Proof.
  intros H. destruct (Ascii.eqb_spec c "-") as [->|]; [|reflexivity].
  discriminate H.
Qed.

Lemma digit_not_upper (c : ascii) : is_digit c = true -> is_upper c = false.
Proof.
  unfold is_digit, is_upper. intros H.
  apply andb_true_iff in H. destruct H as [_ H]. apply N.leb_le in H.
  apply andb_false_iff. left. apply N.leb_gt. lia.
Qed.

(** Up to a dash that follows the digits, [\d+] and [split('-')] take the
    same text. *)
Lemma digits_before_dash (s r : string) :
  skip_digits s = String "-" r -> before_dash s = take_digits s.
Proof.
  induction s as [|d s IH]; simpl; [discriminate|].
  destruct (is_digit d) eqn:Hd.
  - intros H. now rewrite (digit_not_dash d Hd), (IH H).
  - intros [= -> _]. reflexivity.
Qed.

Lemma before_dash_prefix (s : string) : startswith s (before_dash s) = true.
Proof.
  unfold startswith. induction s as [|c s IH]; [reflexivity|]. simpl.
  destruct (Ascii.eqb c "-"); [reflexivity|]. cbn [prefix].
  destruct (ascii_dec c c); [exact IH | congruence].
Qed.

Lemma before_dash_has_no_dash (s : string) :
  before_dash (before_dash s) = before_dash s.
Proof.
  induction s as [|c s IH]; [reflexivity|]. simpl.
  destruct (Ascii.eqb c "-") eqn:E; [reflexivity|]. simpl.
  now rewrite E, IH.
Qed.

Lemma re_prefix_before_dash (filename g : string) :
  re_prefix filename = Some g -> g = before_dash filename.
Proof.
  unfold re_prefix, letter_digits.
  destruct filename as [|c s]; [discriminate|].
  destruct (is_upper c) eqn:Hu.
  - destruct (take_digits s) as [|d ds] eqn:Ht; [discriminate|].
    destruct (skip_digits s) as [|x r] eqn:Hs; [discriminate|].
    destruct (Ascii.eqb_spec x "-") as [->|]; [|discriminate].
    intros [= <-]. simpl. rewrite (upper_not_dash c Hu).
    now rewrite (digits_before_dash s r Hs), Ht.
  - destruct (take_digits (String c s)) as [|d ds] eqn:Ht; [discriminate|].
    destruct (skip_digits (String c s)) as [|x r] eqn:Hs; [discriminate|].
    destruct (Ascii.eqb_spec x "-") as [->|]; [|discriminate].
    intros [= <-]. now rewrite (digits_before_dash _ r Hs), Ht.
Qed.

(** X16: [extract_prefix] returns the file name up to its first dash (the
    whole name when it has none), whether or not the name matches the
    pattern: the pattern only takes a text that stops at a dash. *)
Theorem extract_prefix_is_text_before_dash (filename : string) :
  extract_prefix filename = before_dash filename
  /\ startswith filename (extract_prefix filename) = true
  /\ before_dash (extract_prefix filename) = extract_prefix filename.
Proof.
  assert (H : extract_prefix filename = before_dash filename).
  { unfold extract_prefix.
    destruct (re_prefix filename) as [g|] eqn:E; [|reflexivity].
    exact (re_prefix_before_dash filename g E). }
  rewrite H. split; [reflexivity | split].
  - apply before_dash_prefix.
  - apply before_dash_has_no_dash.
Qed.

(** *** Digits written and read back *)

Lemma take_digits_app (s tail : string) :
  take_digits tail = ""%string ->
  take_digits (take_digits s ++ tail) = take_digits s
  /\ skip_digits (take_digits s ++ tail) = tail.
Proof.
  intros Htail. induction s as [|c s [IH1 IH2]]; simpl.
  - split; [exact Htail|].
    destruct tail as [|x t]; [reflexivity|]. simpl in *.
    destruct (is_digit x); [discriminate | reflexivity].
  - destruct (is_digit c) eqn:Hc; simpl.
    + rewrite Hc, IH1. now split.
    + split; [exact Htail|].
      destruct tail as [|x t]; [reflexivity|]. simpl in *.
      destruct (is_digit x); [discriminate | reflexivity].
Qed.

Lemma string_of_uint_digits (d : Decimal.uint) :
  take_digits (NilEmpty.string_of_uint d) = NilEmpty.string_of_uint d.
Proof. induction d; simpl; try rewrite IHd; reflexivity. Qed.

Lemma decimal_digits (n : N) (tail : string) :
  take_digits tail = ""%string ->
  take_digits (decimal n ++ tail) = decimal n
  /\ skip_digits (decimal n ++ tail) = tail.
Proof.
  intros Htail. unfold decimal.
  rewrite <- (string_of_uint_digits (N.to_uint n)).
  now apply take_digits_app.
Qed.

Lemma decimal_nonempty (n : N) : decimal n <> ""%string.
Proof.
  unfold decimal. destruct n as [|p]; [discriminate|]. simpl.
  pose proof (Unsigned.to_uint_nonnil p) as H.
  destruct (Pos.to_uint p); (congruence || discriminate).
Qed.

(** [f"{i:02d}"] for [i >= 0]: the decimal digits of [i], with a zero
    before a single one. *)
Lemma format_02d_digits (i : Z) :
  0 <= i ->
  exists u,
    format_02d i = NilEmpty.string_of_uint u
    /\ u <> Decimal.Nil
    /\ Z.of_N (N.of_uint u) = i.
Proof.
  intros Hi. unfold format_02d.
  assert (Hn : Z.of_N (N.of_uint (N.to_uint (Z.to_N i))) = i)
    by (rewrite DecimalN.Unsigned.of_to; lia).
  assert (Hne : N.to_uint (Z.to_N i) <> Decimal.Nil).
  { pose proof (decimal_nonempty (Z.to_N i)) as H. unfold decimal in H.
    intros E. rewrite E in H. now apply H. }
  assert (Hpad : exists u,
             (if (String.length (decimal (Z.to_N i)) <? 2)%nat
              then "0" ++ decimal (Z.to_N i) else decimal (Z.to_N i))%string
             = NilEmpty.string_of_uint u
             /\ u <> Decimal.Nil /\ Z.of_N (N.of_uint u) = i).
  { destruct (String.length (decimal (Z.to_N i)) <? 2)%nat.
    - exists (Decimal.D0 (N.to_uint (Z.to_N i))).
      split; [reflexivity | split; [discriminate | exact Hn]].
    - exists (N.to_uint (Z.to_N i)). now repeat split. }
  destruct i as [|p|p]; [exact Hpad | exact Hpad | lia].
Qed.

Lemma int_of_digits_uint (u : Decimal.uint) :
  u <> Decimal.Nil ->
  GeneratePdf.int_of_digits (NilEmpty.string_of_uint u)
  = Some (Z.of_N (N.of_uint u)).
Proof.
  intros Hu. unfold GeneratePdf.int_of_digits.
  rewrite NilEmpty.usu. destruct u; (congruence || reflexivity).
Qed.

(** [int(f"{i:02d}") == i] *)
Lemma int_of_format_02d (i : Z) :
  0 <= i -> GeneratePdf.int_of_digits (format_02d i) = Some i.
Proof.
  intros Hi. destruct (format_02d_digits i Hi) as (u & -> & Hu & <-).
  now apply int_of_digits_uint.
Qed.

Lemma format_02d_tail (i : Z) (tail : string) :
  0 <= i -> take_digits tail = ""%string ->
  take_digits (format_02d i ++ tail) = format_02d i
  /\ skip_digits (format_02d i ++ tail) = tail
  /\ format_02d i <> ""%string.
Proof.
  intros Hi Htail. destruct (format_02d_digits i Hi) as (u & -> & Hu & _).
  rewrite <- (string_of_uint_digits u).
  destruct (take_digits_app (NilEmpty.string_of_uint u) tail Htail)
    as [H1 H2].
  split; [exact H1 | split; [exact H2|]].
  rewrite string_of_uint_digits. destruct u; (congruence || discriminate).
Qed.

Lemma letter_digits_app (name g rest tail : string) :
  letter_digits name = Some (g, rest) ->
  take_digits tail = ""%string ->
  letter_digits (g ++ tail) = Some (g, tail).
Proof.
  unfold letter_digits. destruct name as [|c s]; [discriminate|].
  intros H Htail. destruct (is_upper c) eqn:Hu.
  - destruct (take_digits s) as [|d ds] eqn:Ht; [discriminate|].
    injection H as <- _.
    destruct (take_digits_app s tail Htail) as [H1 H2].
    rewrite Ht in H1, H2. simpl. rewrite Hu.
    simpl in H1, H2. now rewrite H1, H2.
  - destruct (take_digits (String c s)) as [|d ds] eqn:Ht; [discriminate|].
    injection H as <- _.
    destruct (take_digits_app (String c s) tail Htail) as [H1 H2].
    rewrite Ht in H1, H2.
    assert (Hd : is_digit d = true).
    { simpl in Ht. destruct (is_digit c) eqn:Hc; [|discriminate].
      now injection Ht as <- _. }
    change ((String d ds ++ tail)%string)
      with (String d (ds ++ tail)%string) in *.
    cbv iota. rewrite (digit_not_upper d Hd). now rewrite H1, H2.
Qed.

(** X17: the page files are read back as they were written.  For a
    source file whose name matches the prefix pattern, the name
    [process_file] gives page [i] is parsed by [generate_html] into the
    same prefix and the same page number.  (The bound on [i] is the
    number of digits CPython converts between [int] and [str].) *)
Theorem page_file_name_read_back (source_name prefix : string) (i : Z) :
  re_prefix source_name = Some prefix ->
  0 <= i < 10 ^ 4300 ->
  extract_prefix source_name = prefix
  /\ GeneratePdf.parse_page_name (page_filename prefix i)
     = Some (prefix, i).
Proof.
  intros Hre [Hi _]. split; [unfold extract_prefix; now rewrite Hre|].
  unfold re_prefix in Hre.
  destruct (letter_digits source_name) as [[g rest]|] eqn:Hld;
    [|discriminate].
  assert (Hg : g = prefix).
  { destruct rest as [|c r]; [discriminate|].
    destruct (Ascii.eqb c "-"); [now injection Hre | discriminate]. }
  subst g. unfold GeneratePdf.parse_page_name, page_filename.
  rewrite (letter_digits_app source_name prefix rest
             ("-p" ++ format_02d i ++ ".md") Hld eq_refl).
  destruct (format_02d_tail i ".md" Hi eq_refl) as (H1 & H2 & H3).
  pose proof (int_of_format_02d i Hi) as Hint.
  destruct (format_02d i) as [|d ds]; [congruence|].
  set (tail := (String d ds ++ ".md")%string) in *.
  change (startswith ("-p" ++ tail)%string "-p") with true.
  change (drop 2 ("-p" ++ tail)%string) with tail.
  cbv iota. rewrite H1, H2.
  change (startswith ".md" ".md" && GeneratePdf.at_end (drop 3 ".md"))
    with true.
  cbv iota. now rewrite Hint.
Qed.

Lemma page_file_name_read_back_witness :
  extract_prefix "A01-styling-and-branding.md" = "A01"%string
  /\ GeneratePdf.parse_page_name (page_filename "A01" 7)
     = Some ("A01"%string, 7).
Proof.
  apply (page_file_name_read_back "A01-styling-and-branding.md" "A01" 7).
  - reflexivity.
  - split; [lia | apply Z.ltb_lt; vm_compute; reflexivity].
Defined.

(** *** One file per page *)

Lemma string_app_inv_head (p a b : string) :
  (p ++ a = p ++ b)%string -> a = b.
Proof. induction p as [|c p IH]; simpl; [auto | intros [= H]; auto]. Qed.

Lemma page_filename_inj (prefix : string) (i j : Z) :
  0 <= i -> 0 <= j ->
  page_filename prefix i = page_filename prefix j -> i = j.
Proof.
  intros Hi Hj H. unfold page_filename in H.
  apply string_app_inv_head in H. apply (string_app_inv_head "-p") in H.
  destruct (format_02d_tail i ".md" Hi eq_refl) as (Hti & _ & _).
  destruct (format_02d_tail j ".md" Hj eq_refl) as (Htj & _ & _).
  rewrite H, Htj in Hti.
  pose proof (int_of_format_02d i Hi) as Ei.
  pose proof (int_of_format_02d j Hj) as Ej.
  rewrite <- Hti, Ej in Ei. now injection Ei.
Qed.

Lemma enumerate_fst {A : Type} (start : Z) (l : list A) :
  map fst (enumerate start l)
  = map (fun n => start + Z.of_nat n) (seq 0 (List.length l)).
Proof.
  revert start. induction l as [|x l IH]; intros start; [reflexivity|].
  simpl. rewrite IH, <- seq_shift, map_map. f_equal; [lia|].
  apply map_ext. intros n. lia.
Qed.

Lemma enumerate_snd {A : Type} (start : Z) (l : list A) :
  map snd (enumerate start l) = l.
Proof.
  revert start. induction l as [|x l IH]; intros start; [reflexivity|].
  simpl. now rewrite IH.
Qed.

(** X18: [process_file] writes every page under a name of its own: the
    names are pairwise distinct, there is one per page, in page order, and
    the count returned is the number of files written. *)
Theorem process_file_one_file_per_page (source_name text : string) :
  let files := fst (process_file source_name text) in
  NoDup (map fst files)
  /\ map snd files
     = split_into_pages (parse_content_blocks text) source_name
  /\ snd (process_file source_name text)
     = (source_name, Z.of_nat (List.length files)).
Proof.
  unfold process_file. cbn [fst snd].
  set (pages := split_into_pages (parse_content_blocks text) source_name).
  set (prefix := extract_prefix source_name).
  split; [|split].
  - rewrite map_map. cbn [fst].
    rewrite <- (map_map fst (page_filename prefix)), enumerate_fst, map_map.
    apply NoDup_map_NoDup_ForallPairs; [|apply seq_NoDup].
    intros m n _ _ H. apply page_filename_inj in H; lia.
  - rewrite map_map. cbn [snd]. apply enumerate_snd.
  - now rewrite length_map, <- (length_map snd), enumerate_snd.
Qed.

(* ================================================================== *)
(** ** The image fitter and the croppers: errors and invariants *)
(* ================================================================== *)

(** X19: an image of width 0 makes every entry point raise
    [ZeroDivisionError], whatever its height; and [journal-to-pdf.py]
    raises on every image of height 0 too, as both of its branches divide
    by [img_height]. *)
Theorem empty_image_raises (img_width img_height : Z) (max_width : float)
  (max_height : option float) (shrink_factor : float) (fuel : nat) :
  calculate_scaled_dimensions 0 img_height max_width max_height = None
  /\ can_fit_with_shrink 0 img_height shrink_factor = None
  /\ create_pdf_image fuel 0 img_height = None
  /\ JournalToPdf.create_pdf_screenshot 0 img_height = None
  /\ JournalToPdf.add_split_image 0 img_height
       JournalToPdf.USABLE_WIDTH JournalToPdf.USABLE_HEIGHT = None
  /\ JournalToPdf.create_pdf_screenshot img_width 0 = None.
Proof.
  repeat split; try reflexivity.
  unfold JournalToPdf.create_pdf_screenshot.
  destruct (truediv JournalToPdf.USABLE_WIDTH (of_int img_width))
    as [scale|]; [|reflexivity].
  cbn [bind].
  destruct (of_int 0 * scale
            <=? (JournalToPdf.USABLE_HEIGHT
                 - of_int 1 * JournalToPdf.inch) * 1.25)%float;
    reflexivity.
Qed.

(** X20: an image reported to fit is never drawn taller than the usable
    height, whatever the shrink factor. *)
Theorem fit_is_within_usable_height (img_width img_height : Z)
  (shrink_factor scaled_width scaled_height : float) :
  can_fit_with_shrink img_width img_height shrink_factor
  = Some (true, scaled_width, scaled_height) ->
  (scaled_height <=? USABLE_HEIGHT)%float = true.
Proof.
  unfold can_fit_with_shrink.
  destruct (calculate_scaled_dimensions img_width img_height USABLE_WIDTH None)
    as [[w h]|]; [|discriminate].
  cbn [bind].
  destruct (h <=? USABLE_HEIGHT)%float eqn:Hfit.
  - intros [= _ <-]. exact Hfit.
  - destruct (truediv USABLE_HEIGHT h) as [r|]; [|discriminate]. cbn [bind].
    destruct (shrink_factor <=? r)%float; [|discriminate].
    intros [= _ <-]. reflexivity.
Qed.

Lemma fit_is_within_usable_height_witness :
  (720 <=? USABLE_HEIGHT)%float = true.
Proof.
  apply (fit_is_within_usable_height 540 900 default_shrink_factor
           432%float 720%float).
  vm_compute. reflexivity.
Defined.

(** X21: an image reported not to fit comes back with its width-fit
    size, which is what [create_pdf] computes again before it splits the
    image: the full usable width, a height above the usable height, and a
    required scale below the shrink factor. *)
Theorem no_fit_returns_width_fit (img_width img_height : Z)
  (shrink_factor scaled_width scaled_height : float) :
  can_fit_with_shrink img_width img_height shrink_factor
  = Some (false, scaled_width, scaled_height) ->
  calculate_scaled_dimensions img_width img_height USABLE_WIDTH None
  = Some (scaled_width, scaled_height)
  /\ scaled_width = USABLE_WIDTH
  /\ (scaled_height <=? USABLE_HEIGHT)%float = false
  /\ (shrink_factor <=? USABLE_HEIGHT / scaled_height)%float = false.
Proof.
  unfold can_fit_with_shrink.
  destruct (calculate_scaled_dimensions img_width img_height USABLE_WIDTH None)
    as [[w h]|] eqn:Hdims; [|discriminate].
  cbn [bind].
  destruct (h <=? USABLE_HEIGHT)%float eqn:Hfit; [discriminate|].
  unfold truediv at 1.
  destruct (h =? 0)%float; [discriminate|]. cbn [bind].
  destruct (shrink_factor <=? USABLE_HEIGHT / h)%float eqn:Hr;
    [discriminate|].
  intros [= <- <-]. repeat split; try assumption.
  unfold calculate_scaled_dimensions in Hdims.
  destruct (truediv USABLE_WIDTH (of_int img_width)); [|discriminate].
  cbn [bind] in Hdims. now injection Hdims.
Qed.

Lemma no_fit_returns_width_fit_witness :
  calculate_scaled_dimensions 540 901 USABLE_WIDTH None
  = Some (540%float, 901%float)
  /\ 540%float = USABLE_WIDTH
  /\ (901 <=? USABLE_HEIGHT)%float = false
  /\ (default_shrink_factor <=? USABLE_HEIGHT / 901)%float = false.
Proof.
  apply (no_fit_returns_width_fit 540 901 default_shrink_factor).
  vm_compute. reflexivity.
Defined.

Lemma ltb_irrefl (x : float) : (x <? x)%float = false.
Proof.
  rewrite ltb_spec. unfold SFltb.
  destruct (Prim2SF x) as [s|s| |s m e]; simpl; try reflexivity.
  - now destruct s.
  - rewrite Z.compare_refl.
    destruct s; rewrite ?Pos.compare_cont_refl; reflexivity.
Qed.

(** X22: with a height limit, [calculate_scaled_dimensions] returns a
    height that is not above the limit, and a size that touches the box:
    the full width, or the full height. *)
Theorem scaled_size_within_box (img_width img_height : Z)
  (max_width max_height scaled_width scaled_height : float) :
  calculate_scaled_dimensions img_width img_height max_width
    (Some max_height) = Some (scaled_width, scaled_height) ->
  (max_height <? scaled_height)%float = false
  /\ (scaled_width = max_width \/ scaled_height = max_height).
Proof.
  unfold calculate_scaled_dimensions.
  destruct (truediv max_width (of_int img_width)) as [scale|];
    [|discriminate].
  cbn [bind].
  destruct (max_height <? of_int img_height * scale)%float eqn:Hover.
  - destruct (truediv max_height (of_int img_height)); [|discriminate].
    cbn [bind]. intros [= _ <-]. split; [apply ltb_irrefl | now right].
  - intros [= <- <-]. split; [exact Hover | now left].
Qed.

Lemma scaled_size_within_box_witness :
  (720 <? 720)%float = false
  /\ (180%float = 540%float \/ 720%float = 720%float).
Proof.
  apply (scaled_size_within_box 100 400 540 720 180 720).
  vm_compute. reflexivity.
Defined.

(** *** The slices of a split image *)

Lemma crop_loop_chain (fuel : nat) (img_height : Z) (scale_factor : float)
  (total_pages : Z) (remaining_height crop_y_start : float) (page_num : Z)
  (slices : list Slice) (top : Z) :
  crop_loop fuel img_height scale_factor total_pages remaining_height
    crop_y_start page_num = Some slices ->
  to_int crop_y_start = Some top ->
  (forall s, nth_error slices 0 = Some s -> crop_top s = top)
  /\ (forall k s s',
         nth_error slices k = Some s -> nth_error slices (S k) = Some s' ->
         crop_top s' = crop_bottom s)
  /\ (forall k s,
         nth_error slices k = Some s ->
         indicator s
         = if (1 <? total_pages)%Z
           then Some (page_num + Z.of_nat k + 1, total_pages)%Z
           else None).
Proof.
  revert remaining_height crop_y_start page_num slices top.
  induction fuel as [|fuel IH];
    intros remaining_height crop_y_start page_num slices top Hrun Htop;
    cbn [crop_loop] in Hrun;
    destruct (0 <? remaining_height)%float; try discriminate;
    try (injection Hrun as <-; repeat split; intros;
         match goal with
         | H : nth_error [] ?k = Some _ |- _ => destruct k; discriminate H
         end).
  destruct (truediv (pymin remaining_height USABLE_HEIGHT) scale_factor)
    as [crop_height_original|]; [|discriminate].
  cbn [bind] in Hrun. rewrite Htop in Hrun. cbn [bind] in Hrun.
  destruct (to_int (pymin (crop_y_start + crop_height_original)
                          (of_int img_height))) as [bottom|] eqn:Hbottom;
    [|discriminate].
  cbn [bind] in Hrun.
  destruct (crop_loop fuel img_height scale_factor total_pages
              (remaining_height - pymin remaining_height USABLE_HEIGHT)
              (pymin (crop_y_start + crop_height_original)
                     (of_int img_height))
              (page_num + 1)) as [more|] eqn:Hmore; [|discriminate].
  cbn [bind] in Hrun. injection Hrun as <-.
  destruct (IH _ _ _ _ _ Hmore Hbottom) as (I1 & I2 & I3).
  split; [|split].
  - intros s [= <-]. reflexivity.
  - intros [|k] s s'; cbn [nth_error].
    + intros [= <-] Hs'. exact (I1 s' Hs').
    + apply I2.
  - intros [|k] s; cbn [nth_error].
    + intros [= <-]. cbn [indicator].
      destruct (1 <? total_pages)%Z; [|reflexivity].
      do 2 f_equal. lia.
    + intros Hs. rewrite (I3 k s Hs).
      destruct (1 <? total_pages)%Z; [|reflexivity].
      do 2 f_equal. lia.
Qed.

(** X23: the pages [create_pdf] cuts a tall image into follow one
    another without a gap or an overlap: the first crop starts at row 0
    and every other crop starts at the row where the one before it stops;
    and the indicators count the pages 1, 2, 3, ... in order. *)
Theorem split_slices_are_contiguous (fuel : nat) (img_width img_height : Z)
  (total_pages : Z) (slices : list Slice) :
  create_pdf_split fuel img_width img_height = Some (total_pages, slices) ->
  (forall s, nth_error slices 0 = Some s -> crop_top s = 0)
  /\ (forall k s s',
         nth_error slices k = Some s -> nth_error slices (S k) = Some s' ->
         crop_top s' = crop_bottom s)
  /\ (forall k s,
         nth_error slices k = Some s ->
         indicator s
         = if (1 <? total_pages)%Z
           then Some (Z.of_nat k + 1, total_pages)%Z
           else None).
Proof.
  unfold create_pdf_split.
  destruct (calculate_scaled_dimensions img_width img_height USABLE_WIDTH None)
    as [[scaled_width scaled_height]|]; [|discriminate].
  cbn [bind].
  destruct (floordiv _ _) as [q|]; [|discriminate]. cbn [bind].
  destruct (to_int q) as [total|]; [|discriminate]. cbn [bind].
  destruct (truediv scaled_width (of_int img_width)) as [scale_factor|];
    [|discriminate].
  cbn [bind].
  destruct (crop_loop fuel img_height scale_factor total scaled_height
              (of_int 0) 0) as [more|] eqn:Hloop; [|discriminate].
  cbn [bind]. intros [= <- <-].
  exact (crop_loop_chain _ _ _ _ _ _ _ _ 0%Z Hloop eq_refl).
Qed.

Lemma split_slices_are_contiguous_witness :
  let slices :=
    [ {| crop_top := 0; crop_bottom := 133;
         actual_height := 720%float; indicator := Some (1, 2) |};
      {| crop_top := 133; crop_bottom := 229;
         actual_height := 522%float; indicator := Some (2, 2) |} ] in
  (forall s, nth_error slices 0 = Some s -> crop_top s = 0)
  /\ (forall k s s',
         nth_error slices k = Some s -> nth_error slices (S k) = Some s' ->
         crop_top s' = crop_bottom s)
  /\ (forall k s,
         nth_error slices k = Some s ->
         indicator s
         = if (1 <? 2)%Z then Some (Z.of_nat k + 1, 2)%Z else None).
Proof.
  apply (split_slices_are_contiguous 10 100 230).
  vm_compute. reflexivity.
Defined.

Lemma zero_times (c : float) (t : Z) :
  to_int (of_int 0 * c)%float = Some t -> t = 0.
Proof.
  unfold to_int, parts. rewrite mul_spec.
  change (Prim2SF (of_int 0)) with (S754_zero false).
  destruct (Prim2SF c) as [s|s| |s m e]; simpl;
    try discriminate; now intros [= <-].
Qed.

Lemma slices_from_facts (n : nat) (img_height : Z)
  (scale crop_height_per_page : float) (num_pages page_num : Z)
  (slices : list JournalToPdf.Slice) :
  JournalToPdf.slices_from n img_height scale crop_height_per_page
    num_pages page_num = Some slices ->
  List.length slices = n
  /\ (forall s, nth_error slices 0 = Some s ->
        to_int (of_int page_num * crop_height_per_page)%float
        = Some (JournalToPdf.crop_y_start s))
  /\ (forall k s,
         nth_error slices k = Some s ->
         JournalToPdf.caption s = (page_num + Z.of_nat k + 1, num_pages)
         /\ JournalToPdf.crop_y_end s <= img_height)
  /\ (forall k s s',
         nth_error slices k = Some s -> nth_error slices (S k) = Some s' ->
         JournalToPdf.crop_y_end s <= JournalToPdf.crop_y_start s').
Proof.
  revert page_num slices. induction n as [|n IH]; intros page_num slices Hrun;
    cbn [JournalToPdf.slices_from] in Hrun.
  - injection Hrun as <-. repeat split; intros;
      match goal with
      | H : nth_error [] ?k = Some _ |- _ => destruct k; discriminate H
      end.
  - unfold JournalToPdf.make_slice in Hrun.
    destruct (to_int (of_int page_num * crop_height_per_page)%float)
      as [y0|] eqn:Hy0; [|discriminate].
    cbn [bind] in Hrun.
    destruct (to_int (of_int (page_num + 1) * crop_height_per_page)%float)
      as [y1|] eqn:Hy1; [|discriminate].
    cbn [bind] in Hrun.
    destruct (JournalToPdf.slices_from n img_height scale
                crop_height_per_page num_pages (page_num + 1))
      as [more|] eqn:Hmore; [|discriminate].
    cbn [bind] in Hrun. injection Hrun as <-.
    destruct (IH _ _ Hmore) as (I0 & I1 & I2 & I3).
    split; [simpl; now rewrite I0 | split; [|split]].
    + intros s [= <-]. reflexivity.
    + intros [|k] s; cbn [nth_error].
      * intros [= <-]. cbn [JournalToPdf.caption JournalToPdf.crop_y_end].
        split; [f_equal; lia | lia].
      * intros Hs. destruct (I2 k s Hs) as [Hc He].
        split; [rewrite Hc; f_equal; lia | exact He].
    + intros [|k] s s'; cbn [nth_error].
      * intros [= <-] Hs'. cbn [JournalToPdf.crop_y_end].
        pose proof (I1 s' Hs') as E. rewrite Hy1 in E.
        injection E as <-. lia.
      * apply I3.
Qed.

(** X24: [add_split_image] makes exactly the slices it announces: the
    captions count them 1, 2, ... up to their number.  The first slice
    starts at row 0, no slice ends below the image, and no slice starts
    before the one before it stops. *)
Theorem split_image_slices (img_width img_height : Z)
  (usable_width usable_height : float) (slices : list JournalToPdf.Slice) :
  JournalToPdf.add_split_image img_width img_height
    usable_width usable_height = Some slices ->
  (forall s, nth_error slices 0 = Some s -> JournalToPdf.crop_y_start s = 0)
  /\ (forall k s,
         nth_error slices k = Some s ->
         JournalToPdf.caption s
         = (Z.of_nat k + 1, Z.of_nat (List.length slices))
         /\ JournalToPdf.crop_y_end s <= img_height)
  /\ (forall k s s',
         nth_error slices k = Some s -> nth_error slices (S k) = Some s' ->
         JournalToPdf.crop_y_end s <= JournalToPdf.crop_y_start s').
Proof.
  unfold JournalToPdf.add_split_image.
  destruct (truediv usable_width (of_int img_width)) as [scale|];
    [|discriminate].
  cbn [bind].
  destruct (floordiv _ _) as [q|]; [|discriminate]. cbn [bind].
  destruct (to_int q) as [num_pages|]; [|discriminate]. cbn [bind].
  destruct (truediv usable_height scale) as [crop_height_per_page|];
    [|discriminate].
  cbn [bind]. intros Hrun.
  destruct (slices_from_facts _ _ _ _ _ _ _ Hrun) as (H0 & H1 & H2 & H3).
  split; [|split; [|exact H3]].
  - intros s Hs. exact (zero_times _ _ (H1 s Hs)).
  - intros k s Hs. destruct (H2 k s Hs) as [Hc He]. split; [|exact He].
    assert (List.length slices <> 0%nat)
      by (destruct slices; [destruct k; discriminate Hs | discriminate]).
    rewrite Hc. f_equal; lia.
Qed.

Lemma split_image_slices_witness :
  let slices :=
    [ {| JournalToPdf.crop_y_start := 0;
         JournalToPdf.crop_y_end := 1440;
         JournalToPdf.slice_height := 720%float;
         JournalToPdf.caption := (1, 2) |};
      {| JournalToPdf.crop_y_start := 1440;
         JournalToPdf.crop_y_end := 2880;
         JournalToPdf.slice_height := 720%float;
         JournalToPdf.caption := (2, 2) |} ] in
  (forall s, nth_error slices 0 = Some s -> JournalToPdf.crop_y_start s = 0)
  /\ (forall k s,
         nth_error slices k = Some s ->
         JournalToPdf.caption s
         = (Z.of_nat k + 1, Z.of_nat (List.length slices))
         /\ JournalToPdf.crop_y_end s <= 2881)
  /\ (forall k s s',
         nth_error slices k = Some s -> nth_error slices (S k) = Some s' ->
         JournalToPdf.crop_y_end s <= JournalToPdf.crop_y_start s').
Proof.
  apply (split_image_slices 1080 2881
           JournalToPdf.USABLE_WIDTH JournalToPdf.USABLE_HEIGHT).
  vm_compute. reflexivity.
Defined.

(* ================================================================== *)
(** ** The crops of [create_pdf] stay inside the image *)
(* ================================================================== *)

(** [float(n)] is [n] itself for [0 < n < 2^53], with a mantissa of 53
    bits. *)
Lemma of_int_exact (n : positive) :
  Z.pos n < 2 ^ 53 ->
  exists m e,
    Prim2SF (of_int (Z.pos n)) = S754_finite false m e
    /\ 2 ^ 52 <= Z.pos m < 2 ^ 53 /\ -52 <= e <= 0
    /\ Z.pos m = Z.pos n * 2 ^ (- e).
Proof.
  intros Hn. unfold of_int.
  pose proof (digits2_pos_bounds n) as Hd.
  set (d := Z.pos (digits2_pos n)) in *.
  assert (Hd53 : 0 < d <= 53).
  { split; [subst d; lia|].
    destruct (Z.le_gt_cases d 53) as [H|H]; [assumption|].
    assert (2 ^ 53 <= 2 ^ (d - 1)) by (apply Z.pow_le_mono_r; lia). lia. }
  assert (Hnorm : exists mz ez,
             binary_normalize prec emax (Z.pos n) 0 false
             = S754_finite false mz ez
             /\ 2 ^ 52 <= Z.pos mz < 2 ^ 53 /\ -52 <= ez <= 0
             /\ Z.pos mz = Z.pos n * 2 ^ (- ez)).
  { cbn [binary_normalize]. unfold binary_round.
    replace (fexp prec emax (Z.pos (digits2_pos n) + 0)) with (d - 53)
      by (unfold fexp, SpecFloat.emin, prec, emax; subst d; lia).
    unfold shl_align.
    destruct (d - 53 - 0) as [|k|k] eqn:Hk; try lia.
    - assert (d = 53) by lia.
      replace (d - 1) with 52 in Hd by lia. replace d with 53 in Hd by lia.
      rewrite round_53 by lia. cbn [round_nearest_even].
      destruct (Z.ltb_spec (Z.pos n) (2 ^ 53)); [|lia].
      exists n, 0. repeat split; lia.
    - assert (Hm : 2 ^ 52 <= Z.pos (Pos.iter xO n k) < 2 ^ 53).
      { rewrite iter_xO_pow.
        assert (E1 : 2 ^ 52 = 2 ^ (d - 1) * 2 ^ Z.pos k)
          by (rewrite <- Z.pow_add_r by lia; f_equal; lia).
        assert (E2 : 2 ^ 53 = 2 ^ d * 2 ^ Z.pos k)
          by (rewrite <- Z.pow_add_r by lia; f_equal; lia).
        assert (0 < 2 ^ Z.pos k) by (apply Z.pow_pos_nonneg; lia).
        rewrite E1, E2. nia. }
      rewrite round_53 by lia. cbn [round_nearest_even].
      destruct (Z.ltb_spec (Z.pos (Pos.iter xO n k)) (2 ^ 53)); [|lia].
      eexists _, _. split; [reflexivity|]. cbn [Z.to_pos].
      split; [exact Hm | split; [lia|]].
      rewrite iter_xO_pow. f_equal. f_equal. lia. }
  destruct Hnorm as (mz & ez & -> & Hmz & Hez & Hval).
  exists mz, ez. split; [|exact (conj Hmz (conj Hez Hval))].
  apply Prim2SF_SF2Prim.
  unfold valid_binary, SpecFloat.valid_binary, bounded, canonical_mantissa.
  replace (Z.pos (digits2_pos mz)) with 53
    by (symmetry; apply digits2_pos_unique; lia).
  apply andb_true_intro. split.
  - apply Z.eqb_eq. unfold fexp, SpecFloat.emin, prec, emax. lia.
  - apply Z.leb_le. unfold prec, emax. lia.
Qed.

(** A binary64 mantissa has 53 bits at most. *)
Lemma mantissa_bound (s : bool) (m : positive) (e : Z) :
  valid_binary (S754_finite s m e) = true -> Z.pos m < 2 ^ 53.
Proof.
  unfold valid_binary, SpecFloat.valid_binary, bounded, canonical_mantissa.
  intros H. apply andb_prop in H. destruct H as [H _].
  apply Z.eqb_eq in H. unfold fexp, SpecFloat.emin, prec, emax in H.
  pose proof (digits2_pos_bounds m) as [_ Hb].
  assert (Hd : Z.pos (digits2_pos m) <= 53) by lia.
  assert (2 ^ Z.pos (digits2_pos m) <= 2 ^ 53)
    by (apply Z.pow_le_mono_r; lia).
  lia.
Qed.

(** [int(x)] of a float that is not above [float(n)] is not above [n]. *)
Lemma to_int_not_above (x : float) (n b : Z) :
  0 <= n < 2 ^ 53 ->
  (of_int n <? x)%float = false ->
  to_int x = Some b ->
  b <= n.
Proof.
  intros Hn Hlt Hb. rewrite ltb_spec in Hlt.
  pose proof (Prim2SF_valid x) as Hvalid.
  unfold to_int, parts in Hb.
  destruct (Prim2SF x) as [s|s| |s m e]; try discriminate.
  - injection Hb as <-. simpl. lia.
  - destruct s.
    + (* a negative value *)
      injection Hb as <-.
      destruct (Z.leb_spec 0 e).
      * assert (Hp : 0 < 2 ^ e) by (apply Z.pow_pos_nonneg; lia).
        destruct (2 ^ e); lia.
      * assert (0 < 2 ^ (- e)) by (apply Z.pow_pos_nonneg; lia).
        pose proof (Z.quot_opp_l (Z.pos m) (2 ^ (- e)) ltac:(lia)) as Hq.
        change (- Z.pos m) with (Z.neg m) in Hq. rewrite Hq.
        assert (0 <= Z.pos m ÷ 2 ^ (- e)) by (apply Z.quot_pos; lia).
        lia.
    + pose proof (mantissa_bound false m e Hvalid) as Hm.
      destruct n as [|p|p]; [discriminate Hlt | | lia].
      destruct (of_int_exact p ltac:(lia)) as (mH & eH & HH & HmH & HeH & Hval).
      rewrite HH in Hlt. unfold SFltb, SFcompare in Hlt.
      injection Hb as <-.
      destruct (Z.compare_spec eH e) as [Heq|Hlt'|Hgt]; try discriminate.
      * (* the same exponent *)
        assert (Hle : Z.pos m <= Z.pos mH).
        { change (Pos.compare_cont Eq mH m) with (Pos.compare mH m) in Hlt.
          destruct (Pos.compare_spec mH m); [subst; lia | discriminate | lia]. }
        destruct (Z.leb_spec 0 e).
        -- replace e with 0 in * by lia. replace eH with 0 in * by lia.
           simpl in *. lia.
        -- assert (0 < 2 ^ (- e)) by (apply Z.pow_pos_nonneg; lia).
           rewrite Z.quot_div_nonneg by lia.
           apply Z.div_le_upper_bound; [lia|].
           rewrite Hval, Heq in Hle. lia.
      * (* a smaller exponent *)
        destruct (Z.leb_spec 0 e); [lia|].
        assert (Hp : 0 < 2 ^ (- e)) by (apply Z.pow_pos_nonneg; lia).
        rewrite Z.quot_div_nonneg by lia.
        apply Z.div_le_upper_bound; [lia|].
        assert (E : 2 ^ (- e) = 2 ^ (- eH) * 2 ^ (eH - e))
          by (rewrite <- Z.pow_add_r by lia; f_equal; lia).
        assert (2 ^ 1 <= 2 ^ (eH - e)) by (apply Z.pow_le_mono_r; lia).
        assert (0 < 2 ^ (- eH)) by (apply Z.pow_pos_nonneg; lia).
        rewrite E. change (2 ^ 1) with 2 in *. nia.
Qed.

Lemma to_int_of_int (n : Z) : 0 <= n < 2 ^ 53 -> to_int (of_int n) = Some n.
Proof.
  intros Hn. destruct n as [|p|p]; [reflexivity | | lia].
  destruct (of_int_exact p ltac:(lia)) as (m & e & H & Hm & He & Hval).
  unfold to_int, parts. rewrite H. f_equal.
  destruct (Z.leb_spec 0 e).
  - replace e with 0 in * by lia. simpl in *. lia.
  - assert (0 < 2 ^ (- e)) by (apply Z.pow_pos_nonneg; lia).
    rewrite Hval, Z.quot_mul; lia.
Qed.

Lemma crop_loop_bounded (fuel : nat) (img_height : Z) (scale_factor : float)
  (total_pages : Z) (remaining_height crop_y_start : float) (page_num : Z)
  (slices : list Slice) :
  0 <= img_height < 2 ^ 53 ->
  crop_loop fuel img_height scale_factor total_pages remaining_height
    crop_y_start page_num = Some slices ->
  Forall (fun s => crop_bottom s <= img_height) slices.
Proof.
  intros Hh. revert remaining_height crop_y_start page_num slices.
  induction fuel as [|fuel IH];
    intros remaining_height crop_y_start page_num slices Hrun;
    cbn [crop_loop] in Hrun;
    destruct (0 <? remaining_height)%float; try discriminate;
    try (injection Hrun as <-; constructor).
  destruct (truediv (pymin remaining_height USABLE_HEIGHT) scale_factor)
    as [crop_height_original|]; [|discriminate].
  cbn [bind] in Hrun.
  destruct (to_int crop_y_start) as [top|]; [|discriminate].
  cbn [bind] in Hrun.
  destruct (to_int (pymin (crop_y_start + crop_height_original)
                          (of_int img_height))) as [bottom|] eqn:Hbottom;
    [|discriminate].
  cbn [bind] in Hrun.
  destruct (crop_loop fuel img_height scale_factor total_pages
              (remaining_height - pymin remaining_height USABLE_HEIGHT)
              (pymin (crop_y_start + crop_height_original)
                     (of_int img_height))
              (page_num + 1)) as [more|] eqn:Hmore; [|discriminate].
  cbn [bind] in Hrun. injection Hrun as <-.
  constructor; [|exact (IH _ _ _ _ Hmore)].
  cbn [crop_bottom]. unfold pymin in Hbottom.
  destruct (of_int img_height <? crop_y_start + crop_height_original)%float
    eqn:Hover.
  - rewrite (to_int_of_int img_height Hh) in Hbottom.
    injection Hbottom as <-. lia.
  - exact (to_int_not_above _ _ _ Hh Hover Hbottom).
Qed.

(** X25: no crop of [create_pdf] reaches below the image: for an image
    height below 2^53, every crop box of a split image ends at a row that
    is at most the image height. *)
Theorem crops_stay_inside_the_image (fuel : nat) (img_width img_height : Z)
  (total_pages : Z) (slices : list Slice) :
  0 <= img_height < 2 ^ 53 ->
  create_pdf_split fuel img_width img_height = Some (total_pages, slices) ->
  Forall (fun s => crop_bottom s <= img_height) slices.
Proof.
  intros Hh. unfold create_pdf_split.
  destruct (calculate_scaled_dimensions img_width img_height USABLE_WIDTH None)
    as [[scaled_width scaled_height]|]; [|discriminate].
  cbn [bind].
  destruct (floordiv _ _) as [q|]; [|discriminate]. cbn [bind].
  destruct (to_int q) as [total|]; [|discriminate]. cbn [bind].
  destruct (truediv scaled_width (of_int img_width)) as [scale_factor|];
    [|discriminate].
  cbn [bind].
  destruct (crop_loop fuel img_height scale_factor total scaled_height
              (of_int 0) 0) as [more|] eqn:Hloop; [|discriminate].
  cbn [bind]. intros [= <- <-].
  exact (crop_loop_bounded _ _ _ _ _ _ _ _ Hh Hloop).
Qed.

Lemma crops_stay_inside_the_image_witness :
  Forall (fun s => crop_bottom s <= 230)
    [ {| crop_top := 0; crop_bottom := 133;
         actual_height := 720%float; indicator := Some (1, 2) |};
      {| crop_top := 133; crop_bottom := 229;
         actual_height := 522%float; indicator := Some (2, 2) |} ].
Proof.
  apply (crops_stay_inside_the_image 10 100 230 2).
  - split; [lia | apply Z.ltb_lt; vm_compute; reflexivity].
  - vm_compute. reflexivity.
Defined.

(* ================================================================== *)
(** ** The journal parser *)
(* ================================================================== *)

Lemma prefix_app (n l b : string) :
  String.prefix n l = true -> String.prefix n (l ++ b) = true.
Proof.
  revert n. induction l as [|c l IH]; intros n; destruct n as [|a n]; simpl;
    try discriminate; try reflexivity.
  - intros _. now destruct b.
  - destruct (ascii_dec a c); [apply IH | discriminate].
Qed.

Lemma contains_app_r (n l b : string) :
  JournalToPdf.contains n l = true -> JournalToPdf.contains n (l ++ b) = true.
Proof.
  induction l as [|c l IH]; simpl.
  - rewrite orb_false_r. intros H. destruct n; [|discriminate].
    destruct b; reflexivity.
  - intros H. apply orb_true_iff in H. apply orb_true_iff.
    destruct H as [H|H]; [left | right; now apply IH].
    exact (prefix_app n (String c l) b H).
Qed.

Lemma contains_app_l (n a l : string) :
  JournalToPdf.contains n l = true -> JournalToPdf.contains n (a ++ l) = true.
Proof.
  intros H. induction a as [|c a IH]; [exact H|]. simpl.
  rewrite IH. apply orb_true_r.
Qed.

Lemma split_nl_head (s : string) :
  exists b, s = (hd ""%string (split_nl s) ++ b)%string.
Proof.
  induction s as [|c s [b IH]]; [now exists ""%string|]. simpl.
  destruct (Ascii.eqb c newline); [now exists (String c s)|].
  destruct (split_nl s) as [|l ls]; simpl in *.
  - exists s. reflexivity.
  - exists b. now rewrite IH at 1.
Qed.

(** Every line of a text is a piece of the text. *)
Lemma split_nl_substring (s l : string) :
  In l (split_nl s) -> exists a b, s = (a ++ l ++ b)%string.
Proof.
  revert l. induction s as [|c s IH]; intros l; simpl.
  - intros [<-|[]]. now exists ""%string, ""%string.
  - destruct (split_nl_head s) as [b0 Hhead].
    destruct (Ascii.eqb c newline).
    + intros [<-|Hin].
      * now exists ""%string, (String c s).
      * destruct (IH l Hin) as (a & b & ->). now exists (String c a), b.
    + destruct (split_nl s) as [|l0 ls]; simpl in *.
      * intros [<-|[]]. exists ""%string, s. reflexivity.
      * intros [<-|Hin].
        -- exists ""%string, b0. simpl. now rewrite Hhead at 1.
        -- destruct (IH l (or_intror Hin)) as (a & b & ->).
           now exists (String c a), b.
Qed.

Lemma contains_line (n s l : string) :
  In l (split_nl s) ->
  JournalToPdf.contains n l = true -> JournalToPdf.contains n s = true.
Proof.
  intros Hin Hl. destruct (split_nl_substring s l Hin) as (a & b & ->).
  apply contains_app_l. now apply contains_app_r.
Qed.

Lemma mem_In (s : string) (l : list string) :
  JournalToPdf.mem s l = true <-> In s l.
Proof.
  unfold JournalToPdf.mem. rewrite existsb_exists. split.
  - intros (x & Hx & E). apply String.eqb_eq in E. now subst.
  - intros H. exists s. split; [exact H | apply String.eqb_refl].
Qed.

Lemma add_new_spec (inferred screenshots : list string) :
  exists extra,
    JournalToPdf.add_new screenshots inferred = screenshots ++ extra
    /\ NoDup extra
    /\ forall s, In s extra -> ~ In s screenshots /\ In s inferred.
Proof.
  revert screenshots.
  induction inferred as [|x inferred IH]; intros screenshots.
  - exists []. simpl. rewrite app_nil_r.
    repeat split; [constructor | contradiction | contradiction].
  - unfold JournalToPdf.add_new. simpl.
    fold (JournalToPdf.add_new
            (if JournalToPdf.mem x screenshots then screenshots
             else screenshots ++ [x]) inferred).
    destruct (JournalToPdf.mem x screenshots) eqn:Hmem.
    + destruct (IH screenshots) as (extra & -> & Hnd & Hin).
      exists extra. repeat split; try assumption; try (now apply Hin).
      right. now apply Hin.
    + assert (Hx : ~ In x screenshots).
      { intros H. apply mem_In in H. congruence. }
      destruct (IH (screenshots ++ [x])) as (extra & -> & Hnd & Hin).
      exists (x :: extra). rewrite <- app_assoc. split; [reflexivity|].
      split.
      * constructor; [|exact Hnd]. intros H. apply (Hin x H).
        apply in_or_app. right. now left.
      * intros s [<-|Hs]; [split; [exact Hx | now left]|].
        destruct (Hin s Hs) as [H1 H2]. split; [|now right].
        intros H. apply H1. apply in_or_app. now left.
Qed.

Section JournalFacts.
Import JournalToPdf.
Variable find_screenshots_in_text : string -> list string.
Variable infer_screenshots_for_test : string -> string -> list string.
Variable findall_test_ids : string -> list string.

Local Notation "'step'" :=
  (journal_step find_screenshots_in_text infer_screenshots_for_test
     findall_test_ids).
Local Notation "'entry'" :=
  (finish_entry find_screenshots_in_text infer_screenshots_for_test
     findall_test_ids).
Local Notation "'parse'" :=
  (parse_lines find_screenshots_in_text infer_screenshots_for_test
     findall_test_ids).

Lemma add_inferred_spec (content_text : string)
  (test_ids screenshots : list string) :
  exists extra,
    fold_left (fun shots test_id =>
                 add_new shots
                   (infer_screenshots_for_test test_id content_text))
              test_ids screenshots = screenshots ++ extra
    /\ NoDup extra
    /\ forall s, In s extra ->
         ~ In s screenshots
         /\ exists test_id,
              In test_id test_ids
              /\ In s (infer_screenshots_for_test test_id content_text).
Proof.
  revert screenshots.
  induction test_ids as [|t test_ids IH]; intros screenshots.
  - exists []. simpl. rewrite app_nil_r.
    repeat split; [constructor | contradiction | contradiction].
  - simpl.
    destruct (add_new_spec (infer_screenshots_for_test t content_text)
                screenshots) as (e1 & -> & Hnd1 & Hin1).
    destruct (IH (screenshots ++ e1)) as (e2 & -> & Hnd2 & Hin2).
    exists (e1 ++ e2). rewrite <- app_assoc. split; [reflexivity|].
    split.
    + apply NoDup_app; try assumption.
      intros s Hs1 Hs2. apply (Hin2 s Hs2). apply in_or_app. now right.
    + intros s Hs. apply in_app_or in Hs. destruct Hs as [Hs|Hs].
      * destruct (Hin1 s Hs) as [H1 H2]. split; [exact H1|].
        exists t. split; [now left | exact H2].
      * destruct (Hin2 s Hs) as [H1 (t' & Ht' & H2)]. split.
        -- intros H. apply H1. apply in_or_app. now left.
        -- exists t'. split; [now right | exact H2].
Qed.

Lemma finish_entry_ok (last : bool) (ts : string)
  (current_content : list string) :
  entry_ok find_screenshots_in_text infer_screenshots_for_test
    findall_test_ids (entry last ts current_content).
Proof.
  unfold entry_ok, finish_entry. cbn [content is_header screenshots].
  split; [apply strip_idem | split; [reflexivity|]].
  unfold add_inferred.
  destruct (add_inferred_spec (strip (join_nl current_content))
              (findall_test_ids (strip (join_nl current_content)))
              (find_screenshots_in_text (strip (join_nl current_content))))
    as (extra & -> & Hnd & Hin).
  exists extra. repeat split; try assumption; now apply Hin.
Qed.

(** Before the marker line, nothing happens. *)
Lemma journal_skips (pre : list string) (st : JournalState) :
  in_action_log st = false ->
  Forall (fun l => contains ACTION_LOG l = false) pre ->
  fold_left step pre st = st.
Proof.
  intros Hlog Hpre. revert st Hlog.
  induction Hpre as [|l pre Hl _ IH]; intros st Hlog; [reflexivity|].
  simpl. unfold journal_step at 2. rewrite Hl, Hlog. simpl.
  now apply IH.
Qed.

(** X26: a journal in which no line holds the Action Log heading gives
    no entry; and the lines before the first such line never count. *)
Theorem journal_starts_at_the_action_log (text : string)
  (pre rest : list string) :
  (contains ACTION_LOG text = false ->
   parse_journal find_screenshots_in_text infer_screenshots_for_test
     findall_test_ids text = [])
  /\ (Forall (fun l => contains ACTION_LOG l = false) pre ->
      parse (pre ++ rest) journal_init = parse rest journal_init).
Proof.
  split.
  - intros Htext. unfold parse_journal, parse_lines.
    rewrite journal_skips; [reflexivity | reflexivity|].
    apply Forall_forall. intros l Hl.
    destruct (contains ACTION_LOG l) eqn:E; [|reflexivity].
    rewrite (contains_line _ _ _ Hl E) in Htext. discriminate.
  - intros Hpre. unfold parse_lines.
    now rewrite fold_left_app, (journal_skips pre journal_init eq_refl Hpre).
Qed.

Lemma journal_timestamps (post : list string) (st : JournalState) :
  in_action_log st = true ->
  map timestamp (parse post st)
  = map timestamp (entries st)
    ++ match current_entry st with Some ts => [ts] | None => [] end
    ++ timestamps_of post.
Proof.
  revert st. induction post as [|l post IH]; intros st Hlog.
  - unfold parse_lines, journal_finish. simpl.
    destruct (current_entry st); [|now rewrite app_nil_r].
    now rewrite map_app.
  - unfold parse_lines in *. simpl. rewrite IH.
    + unfold journal_step, timestamps_of. cbn [flat_map].
      destruct (contains ACTION_LOG l); [reflexivity|].
      rewrite Hlog. cbn [negb].
      destruct (re_timestamp (strip l)) as [ts|];
        destruct (current_entry st) as [ts0|] eqn:Hcur;
        cbn [entries current_entry];
        rewrite ?Hcur, ?map_app, <- ?app_assoc; reflexivity.
    + unfold journal_step.
      destruct (contains ACTION_LOG l); [reflexivity|].
      rewrite Hlog. cbn [negb].
      destruct (re_timestamp (strip l)); [reflexivity|].
      destruct (current_entry st); [reflexivity | exact Hlog].
Qed.

(** X27: after the first line that holds the Action Log heading, there
    is one entry per timestamp line, in order, with that timestamp; later
    lines that hold the heading are skipped. *)
Theorem one_entry_per_timestamp (text : string) (pre post : list string)
  (marker : string) :
  split_nl text = pre ++ marker :: post ->
  Forall (fun l => contains ACTION_LOG l = false) pre ->
  contains ACTION_LOG marker = true ->
  map timestamp
      (parse_journal find_screenshots_in_text infer_screenshots_for_test
         findall_test_ids text)
  = timestamps_of post.
Proof.
  intros Hsplit Hpre Hmarker. unfold parse_journal, parse_lines.
  rewrite Hsplit, fold_left_app, (journal_skips pre journal_init eq_refl Hpre).
  simpl fold_left at 1. unfold journal_step at 2. rewrite Hmarker.
  change (journal_finish _ _ _ (fold_left _ post ?s)) with (parse post s).
  now rewrite journal_timestamps.
Qed.

Lemma journal_marks (lines : list string) (st : JournalState) :
  Forall complete_between (entries st) ->
  (current_entry st = None -> entries st = []) ->
  Forall complete_between (entries (fold_left step lines st))
  /\ (current_entry (fold_left step lines st) = None ->
      entries (fold_left step lines st) = []).
Proof.
  revert st. induction lines as [|l lines IH]; intros st Hall Hnone;
    [now split|].
  simpl. apply IH; unfold journal_step;
    destruct (contains ACTION_LOG l); try assumption;
    destruct (in_action_log st); cbn [negb]; try assumption;
    destruct (re_timestamp (strip l)) as [ts|];
    destruct (current_entry st) as [ts0|] eqn:Hcur;
    cbn [entries current_entry]; try assumption; try discriminate;
    try (intros _; exact (Hnone eq_refl)).
  apply Forall_app. split; [exact Hall|].
  constructor; [reflexivity | constructor].
Qed.

(** X28: whether an entry is marked as a completed category depends on
    where it stands.  The last entry is marked when its content holds
    "=== CATEGORY" or "=== ALL CATEGORIES"; every entry before it is marked
    when its content holds both "=== CATEGORY" and "COMPLETE ===". *)
Theorem completion_mark_by_position (lines : list string)
  (before : list JournalEntry) (last : JournalEntry) :
  parse lines journal_init = before ++ [last] ->
  Forall (fun e =>
            is_category_complete e
            = contains "=== CATEGORY" (content e)
              && contains "COMPLETE ===" (content e)) before
  /\ is_category_complete last
     = contains "=== CATEGORY" (content last)
       || contains "=== ALL CATEGORIES" (content last).
Proof.
  unfold parse_lines, journal_finish.
  destruct (journal_marks lines journal_init (Forall_nil _) (fun _ => eq_refl))
    as [Hall Hnone].
  destruct (current_entry (fold_left step lines journal_init)) as [ts|].
  - intros H. apply app_inj_tail in H. destruct H as [<- <-].
    split; [exact Hall | reflexivity].
  - rewrite (Hnone eq_refl). intros H. destruct before; discriminate H.
Qed.

Lemma journal_entries_ok (lines : list string) (st : JournalState) :
  Forall (entry_ok find_screenshots_in_text infer_screenshots_for_test
            findall_test_ids) (entries st) ->
  Forall (entry_ok find_screenshots_in_text infer_screenshots_for_test
            findall_test_ids) (parse lines st).
Proof.
  revert st. induction lines as [|l lines IH]; intros st Hall.
  - unfold parse_lines, journal_finish. simpl.
    destruct (current_entry st); [|exact Hall].
    apply Forall_app. split; [exact Hall|].
    constructor; [apply finish_entry_ok | constructor].
  - unfold parse_lines in *. simpl. apply IH. unfold journal_step.
    destruct (contains ACTION_LOG l); [exact Hall|].
    destruct (in_action_log st); cbn [negb]; [|exact Hall].
    destruct (re_timestamp (strip l)) as [ts|];
      destruct (current_entry st) as [ts0|];
      cbn [entries]; try exact Hall.
    apply Forall_app. split; [exact Hall|].
    constructor; [apply finish_entry_ok | constructor].
Qed.

(** X29: the fields of an entry.  Its content is stripped, it is no
    header, and its screenshots are those found in its content followed by
    the inferred ones: each of these is inferred for a test id of the
    content, was not there already, and is added once. *)
Theorem journal_entry_fields (text : string) (e : JournalEntry) :
  In e (parse_journal find_screenshots_in_text infer_screenshots_for_test
          findall_test_ids text) ->
  strip (content e) = content e
  /\ is_header e = false
  /\ exists inferred,
       screenshots e = find_screenshots_in_text (content e) ++ inferred
       /\ (forall s, In s inferred ->
             ~ In s (find_screenshots_in_text (content e))
             /\ exists test_id,
                  In test_id (findall_test_ids (content e))
                  /\ In s (infer_screenshots_for_test test_id (content e)))
       /\ NoDup inferred.
Proof.
  intros Hin.
  pose proof (journal_entries_ok (split_nl text) journal_init (Forall_nil _))
    as H.
  rewrite Forall_forall in H. exact (H e Hin).
Qed.
End JournalFacts.

(** A journal of two entries, read with an empty screenshots directory. *)
Lemma one_entry_per_timestamp_witness :
  map JournalToPdf.timestamp
      (JournalToPdf.parse_journal (fun _ => []) (fun _ _ => []) (fun _ => [])
         ("# Journal" ++ nl ++ "## Action Log" ++ nl
          ++ "2026-01-02_10:20:30" ++ nl ++ "=== CATEGORY 1" ++ nl
          ++ " 2026-01-02_10:25:00 " ++ nl ++ "=== CATEGORY 2")%string)
  = JournalToPdf.timestamps_of
      [ "2026-01-02_10:20:30"; "=== CATEGORY 1"; " 2026-01-02_10:25:00 ";
        "=== CATEGORY 2" ]%string.
Proof.
  apply (one_entry_per_timestamp (fun _ => []) (fun _ _ => []) (fun _ => [])
           ("# Journal" ++ nl ++ "## Action Log" ++ nl
            ++ "2026-01-02_10:20:30" ++ nl ++ "=== CATEGORY 1" ++ nl
            ++ " 2026-01-02_10:25:00 " ++ nl ++ "=== CATEGORY 2")%string
           ["# Journal"%string] _ "## Action Log"%string).
  - vm_compute. reflexivity.
  - repeat constructor.
  - reflexivity.
Defined.

Lemma completion_mark_by_position_witness :
  let first :=
    {| JournalToPdf.timestamp := "2026-01-02_10:20:30";
       JournalToPdf.content := "=== CATEGORY 1";
       JournalToPdf.screenshots := [];
       JournalToPdf.is_header := false;
       JournalToPdf.is_category_complete := false |} in
  let last :=
    {| JournalToPdf.timestamp := "2026-01-02_10:25:00";
       JournalToPdf.content := "=== CATEGORY 2";
       JournalToPdf.screenshots := [];
       JournalToPdf.is_header := false;
       JournalToPdf.is_category_complete := true |} in
  Forall (fun e =>
            JournalToPdf.is_category_complete e
            = JournalToPdf.contains "=== CATEGORY" (JournalToPdf.content e)
              && JournalToPdf.contains "COMPLETE ===" (JournalToPdf.content e))
         [first]
  /\ JournalToPdf.is_category_complete last
     = JournalToPdf.contains "=== CATEGORY" (JournalToPdf.content last)
       || JournalToPdf.contains "=== ALL CATEGORIES"
            (JournalToPdf.content last).
Proof.
  apply (completion_mark_by_position
           (fun _ => []) (fun _ _ => []) (fun _ => [])
           [ "## Action Log"; "2026-01-02_10:20:30"; "=== CATEGORY 1";
             " 2026-01-02_10:25:00 "; "=== CATEGORY 2" ]%string).
  vm_compute. reflexivity.
Defined.

Lemma journal_entry_fields_witness :
  let e :=
    {| JournalToPdf.timestamp := "2026-01-02_10:20:30";
       JournalToPdf.content := "V1.1.1 PASS";
       JournalToPdf.screenshots := ["results-table-default.png"%string];
       JournalToPdf.is_header := false;
       JournalToPdf.is_category_complete := false |} in
  let infer := fun test_id (_ : string) =>
    if String.eqb test_id "V1.1.1"
    then ["results-table-default.png"%string] else [] in
  strip (JournalToPdf.content e) = JournalToPdf.content e
  /\ JournalToPdf.is_header e = false
  /\ exists inferred,
       JournalToPdf.screenshots e = [] ++ inferred
       /\ (forall s, In s inferred ->
             ~ In s []
             /\ exists test_id,
                  In test_id ["V1.1.1"%string]
                  /\ In s (infer test_id (JournalToPdf.content e)))
       /\ NoDup inferred.
Proof.
  apply (journal_entry_fields
           (fun _ => [])
           (fun test_id (_ : string) =>
              if String.eqb test_id "V1.1.1"
              then ["results-table-default.png"%string] else [])
           (fun _ => ["V1.1.1"%string])
           ("## Action Log" ++ nl ++ "2026-01-02_10:20:30" ++ nl
            ++ "V1.1.1 PASS" ++ nl)%string).
  vm_compute. auto.
Defined.

(* ================================================================== *)
(** ** The screenshots of the report *)
(* ================================================================== *)

Lemma place_names_spec (img_exists : string -> bool)
  (names images_included : list string) :
  NoDup images_included ->
  NoDup (fold_left (JournalToPdf.place_step img_exists) names
           images_included)
  /\ forall s,
       In s (fold_left (JournalToPdf.place_step img_exists) names
               images_included)
       <-> In s images_included \/ (In s names /\ img_exists s = true).
Proof.
  revert images_included.
  induction names as [|x names IH]; intros images_included Hnd.
  - split; [exact Hnd|]. intros s. simpl. tauto.
  - simpl. unfold JournalToPdf.place_step at 2 4.
    destruct (JournalToPdf.mem x images_included) eqn:Hmem.
    + destruct (IH images_included Hnd) as [H1 H2].
      split; [exact H1|]. intros s. rewrite H2.
      apply mem_In in Hmem. split; [tauto|].
      intros [H|[[<-|H] He]]; tauto.
    + assert (Hx : ~ In x images_included).
      { intros H. apply mem_In in H. congruence. }
      destruct (img_exists x) eqn:Hex; cbn [negb].
      * assert (Hnd' : NoDup (images_included ++ [x])).
        { apply NoDup_app; [exact Hnd | repeat constructor; auto |].
          intros a Ha [<-|[]]. contradiction. }
        destruct (IH _ Hnd') as [H1 H2].
        split; [exact H1|]. intros s. rewrite H2, in_app_iff. simpl.
        split.
        -- intros [[H|[<-|[]]]|H]; tauto.
        -- intros [H|[[<-|H] He]]; tauto.
      * destruct (IH images_included Hnd) as [H1 H2].
        split; [exact H1|]. intros s. rewrite H2. split; [tauto|].
        intros [H|[[<-|H] He]]; [tauto | congruence | tauto].
Qed.

Lemma place_entries_flat (img_exists : string -> bool)
  (entries : list JournalToPdf.JournalEntry) (images_included : list string) :
  fold_left (JournalToPdf.place_entry img_exists) entries images_included
  = fold_left (JournalToPdf.place_step img_exists)
      (flat_map JournalToPdf.screenshots entries) images_included.
Proof.
  revert images_included.
  induction entries as [|e entries IH]; intros images_included;
    [reflexivity|].
  simpl. rewrite fold_left_app. apply IH.
Qed.

(** X30: the report includes every screenshot once.  The names
    [create_pdf] adds to [images_included], one for each image it puts in
    the story (or fails to load), are pairwise distinct, and they are
    exactly the screenshots that exist in the directory and that some
    entry lists, however many entries list them. *)
Theorem each_screenshot_included_once (img_exists : string -> bool)
  (entries : list JournalToPdf.JournalEntry) :
  NoDup (JournalToPdf.images_placed img_exists entries)
  /\ forall s,
       In s (JournalToPdf.images_placed img_exists entries)
       <-> img_exists s = true
           /\ exists e, In e entries /\ In s (JournalToPdf.screenshots e).
Proof.
  unfold JournalToPdf.images_placed. rewrite place_entries_flat.
  destruct (place_names_spec img_exists
              (flat_map JournalToPdf.screenshots entries) []
              (NoDup_nil _)) as [H1 H2].
  split; [exact H1|]. intros s. rewrite H2, in_flat_map. simpl. tauto.
Qed.
